(** * NoFace bootstrap server: peer registry and signaling relay

    A shallow embedding of [src/index.js]: the in-memory peer registry served
    by the Express routes ([POST /register], [GET /peers], [GET /peers/:id],
    [DELETE /peers/:id], [POST /peers/:id/heartbeat]), the periodic
    [cleanupInactivePeers] sweep, and the WebSocket signaling relay
    ([wss.on('connection')], [handlePeerOffer], [handlePeerAnswer],
    [handleIceCandidate]).

    Conventions of the embedding.
    - Request bodies, query parameters and frames carry JavaScript values
      ([Js.JsValue]).  A JSON number is an integer of magnitude below
      [2^53]; a number with a fraction, such as [8080.5], has no
      counterpart.  On these numbers printing in decimal and [parseInt] are
      exact.  Strings are sequences of code units below 256.
    - [Number(string)] rounds to binary64, as the engine does.  [parseInt]
      of a numeral returns its integer value, which is the value the engine
      returns for numerals up to [2^53] in magnitude.
    - [Date.now()] is an explicit integer argument [now] (milliseconds), and
      the timestamps of stored records are values it returned, so the [Date]
      conversions in log metadata do not throw.
    - The middleware in front of the routes (rate limiter, CORS, body
      parsers, the request logger that counts [totalRequests]) is not part of
      the handlers.  The request logger, the error handler, [GET /status],
      the interval timer and the sockets are put together with the routes
      in [Server].
    - Each Express handler and each WebSocket callback runs to completion on
      the single event-loop thread, so a handler is a function from the state
      before to the response and the state after.
    - A thrown exception is a value of the [Result] type; the handlers'
      [try/catch] blocks are written out. *)

From Stdlib Require Import ZArith QArith String Ascii List Bool Lia.
From Stdlib Require Import Permutation Sorted DecimalString DecimalPos.
From stdpp Require Import gmap strings.

Set Warnings "-register-all".

Open Scope string_scope.
Open Scope Z_scope.

(* ===================================================================== *)
(** * JavaScript values and the runtime operations the server relies on  *)
(* ===================================================================== *)

Module Js.

(** A value produced by [JSON.parse] (bodies, frames) or by the query-string
    parser, plus [undefined] for an absent property. *)
Inductive JsValue : Type :=
| JsUndefined
| JsNull
| JsBool (b : bool)
| JsNumber (z : Z)
| JsString (s : string)
| JsArray (items : list JsValue)
| JsObject (fields : list (string * JsValue)).

(** Result of [ToNumber]: a finite value, an infinity, or NaN.  A finite
    value is the exact rational value of a binary64 number; the conversion
    of a numeric string rounds to it ([binary64] below). *)
Inductive Num : Type :=
| NaN
| PosInf
| NegInf
| Fin (q : Q).

(** Outcome of an operation that may throw. *)
Inductive Result (A : Type) : Type :=
| Ok (a : A)
| Throw (error : string).

Arguments Ok {A} a.
Arguments Throw {A} error.

Definition bind {A B : Type} (r : Result A) (k : A -> Result B) : Result B :=
  match r with
  | Ok a => k a
  | Throw e => Throw e
  end.

Notation "'let!' x ':=' e 'in' k" := (bind e (fun x => k))
  (at level 10, x name, e at level 200, k at level 200).

(** [a || b] where evaluating [b] may throw: [b] is evaluated only when [a]
    is false. *)
Definition or_else (a : bool) (b : Result bool) : Result bool :=
  if a then Ok true else b.

(** [ToBoolean]: the falsy values are [undefined], [null], [false], [0] and
    the empty string. *)
Definition ToBoolean (v : JsValue) : bool :=
  match v with
  | JsUndefined | JsNull => false
  | JsBool b => b
  | JsNumber z => negb (z =? 0)
  | JsString s => negb (String.eqb s "")
  | JsArray _ | JsObject _ => true
  end.

(** [typeof v === 'string'] *)
Definition typeof_string (v : JsValue) : bool :=
  match v with JsString _ => true | _ => false end.

(** [Array.prototype.join] with the default separator, on already converted
    elements. *)
Fixpoint join_comma (parts : list string) : string :=
  match parts with
  | [] => ""
  | [p] => p
  | p :: rest => p +:+ "," +:+ join_comma rest
  end.

(** [Object.prototype.hasOwnProperty] on a parsed object. *)
Definition has_own (fields : list (string * JsValue)) (k : string) : bool :=
  existsb (fun f => String.eqb (fst f) k) fields.

(** [ToString].  A number prints in decimal, as every integer of magnitude
    below [10^21] does (the numbers of the embedding are below [2^53]).  An array is joined with commas, [null] and [undefined] elements
    giving the empty string.  A plain object is "[object Object]",
    unless it carries an own property [toString]: a parsed value is never a
    function, so the conversion finds nothing callable and throws. *)
Fixpoint ToString (v : JsValue) : Result string :=
  match v with
  | JsUndefined => Ok "undefined"
  | JsNull => Ok "null"
  | JsBool true => Ok "true"
  | JsBool false => Ok "false"
  | JsNumber z => Ok (NilZero.string_of_int (Z.to_int z))
  | JsString s => Ok s
  | JsArray items =>
      let fix parts (l : list JsValue) : Result (list string) :=
        match l with
        | [] => Ok []
        | x :: rest =>
            let! p := match x with
                      | JsUndefined | JsNull => Ok ""
                      | _ => ToString x
                      end in
            let! ps := parts rest in
            Ok (p :: ps)
        end in
      let! ps := parts items in
      Ok (join_comma ps)
  | JsObject fields =>
      if has_own fields "toString"
      then Throw "TypeError: Cannot convert object to primitive value"
      else Ok "[object Object]"
  end.

(** [v.k] for a property [k] that no prototype defines: the own property of
    an object, [undefined] on any other value, and a TypeError on [null] and
    [undefined]. *)
Fixpoint own_property (fields : list (string * JsValue)) (k : string)
  : JsValue :=
  match fields with
  | [] => JsUndefined
  | (k', v) :: rest => if String.eqb k' k then v else own_property rest k
  end.

Definition get_prop (v : JsValue) (k : string) : Result JsValue :=
  match v with
  | JsUndefined | JsNull =>
      Throw "TypeError: Cannot read properties of null"
  | JsObject fields => Ok (own_property fields k)
  | _ => Ok JsUndefined
  end.

(** [===] and the SameValueZero comparison of [Array.prototype.includes] on
    the values the server compares.  Arrays and objects are compared by
    reference; two values that come from different parses are never the same
    reference. *)
Definition strict_eq (a b : JsValue) : bool :=
  match a, b with
  | JsUndefined, JsUndefined => true
  | JsNull, JsNull => true
  | JsBool x, JsBool y => Bool.eqb x y
  | JsNumber x, JsNumber y => x =? y
  | JsString x, JsString y => String.eqb x y
  | _, _ => false
  end.

(** [arr.includes(x)] *)
Definition array_includes (items : list JsValue) (x : JsValue) : bool :=
  existsb (fun y => strict_eq y x) items.

(** [s.includes(":")] for a string [s] *)
Fixpoint string_includes_colon (s : string) : bool :=
  match s with
  | EmptyString => false
  | String c rest => Ascii.eqb c ":"%char || string_includes_colon rest
  end.

(** [v.includes(':')] as a method call on an arbitrary value: strings and
    arrays have the method; numbers, booleans and plain objects do not, and
    calling the missing property is a TypeError. *)
Definition includes_colon (v : JsValue) : Result bool :=
  match v with
  | JsString s => Ok (string_includes_colon s)
  | JsArray items => Ok (array_includes items (JsString ":"))
  | JsUndefined | JsNull =>
      Throw "TypeError: Cannot read properties of undefined"
  | JsBool _ | JsNumber _ | JsObject _ =>
      Throw "TypeError: data.ip.includes is not a function"
  end.

(** ** Character classes *)

Definition code (c : ascii) : Z := Z.of_nat (nat_of_ascii c).

Definition in_range (lo hi c : ascii) : bool :=
  (code lo <=? code c) && (code c <=? code hi).

(** WhiteSpace and LineTerminator code units below 256. *)
Definition is_space (c : ascii) : bool :=
  let n := code c in
  ((9 <=? n) && (n <=? 13)) || (n =? 32) || (n =? 160).

(** Value of [c] as a digit of the given radix. *)
Definition digit_value (radix : Z) (c : ascii) : option Z :=
  let n := code c in
  let d :=
    if in_range "0" "9" c then Some (n - 48)
    else if in_range "a" "z" c then Some (n - 97 + 10)
    else if in_range "A" "Z" c then Some (n - 65 + 10)
    else None in
  match d with
  | Some k => if k <? radix then Some k else None
  | None => None
  end.

(** Longest prefix of radix digits: its value read with accumulator [acc],
    the number of digits, and the rest of the input. *)
Fixpoint take_digits (radix : Z) (acc : Z) (count : nat) (s : list ascii)
  : Z * nat * list ascii :=
  match s with
  | [] => (acc, count, [])
  | c :: rest =>
      match digit_value radix c with
      | Some d => take_digits radix (acc * radix + d) (S count) rest
      | None => (acc, count, s)
      end
  end.

Fixpoint drop_spaces (s : list ascii) : list ascii :=
  match s with
  | c :: rest => if is_space c then drop_spaces rest else s
  | [] => []
  end.

Definition trim (s : list ascii) : list ascii :=
  rev (drop_spaces (rev (drop_spaces s))).

Definition starts_with_prefix (a b : ascii) (s : list ascii) : bool :=
  match s with
  | z :: x :: _ => Ascii.eqb z "0"%char && (Ascii.eqb x a || Ascii.eqb x b)
  | _ => false
  end.

(** ** [parseInt(string)] with no radix argument *)

Definition parseInt_chars (input : list ascii) : option Z :=
  let s := drop_spaces input in
  let '(sign, s) :=
    match s with
    | c :: rest =>
        if Ascii.eqb c "-"%char then (-1, rest)
        else if Ascii.eqb c "+"%char then (1, rest)
        else (1, s)
    | [] => (1, s)
    end in
  let '(radix, s) :=
    if starts_with_prefix "x" "X" s then (16, skipn 2 s) else (10, s) in
  let '(value, count, _) := take_digits radix 0 0%nat s in
  match count with
  | O => None
  | S _ => Some (sign * value)
  end.

(** [parseInt(v)]: the argument is first converted with [ToString]; [None]
    is NaN.  The result is the integer that the digits denote; the engine
    returns the same number for numerals up to [2^53] in magnitude and the
    nearest binary64 number beyond. *)
Definition parseInt (v : JsValue) : Result (option Z) :=
  let! s := ToString v in
  Ok (parseInt_chars (list_ascii_of_string s)).

(** ** [Number(string)]: the StringNumericLiteral grammar *)

(** [n / d] rounded to the nearest integer, ties to the even one. *)
Definition round_half_even (n : Z) (d : positive) : Z :=
  let f := n / Zpos d in
  match 2 * (n mod Zpos d) ?= Zpos d with
  | Lt => f
  | Gt => f + 1
  | Eq => if Z.even f then f else f + 1
  end.

(** The binary64 number nearest to a rational (round to nearest, ties to
    even, as the engine's string-to-number conversion does for literals of
    any length): 53 significant bits, exponents down to the subnormal step
    [2^-1074]; a magnitude that rounds to [2^1024] or more is an infinity.
    The sign of a zero result is dropped: no comparison sees it. *)
Definition binary64 (q : Q) : Num :=
  let a := Z.abs (Qnum q) in
  let d := Qden q in
  if a =? 0 then Fin 0
  else
    (* [2^e <= a/d < 2^(e+1)] *)
    let e0 := Z.log2 a - Z.log2 (Zpos d) in
    let below :=
      if 0 <=? e0 then a <? Zpos d * 2 ^ e0 else a * 2 ^ (- e0) <? Zpos d in
    let e := if below then e0 - 1 else e0 in
    (* the unit in the last place is [2^u] *)
    let u := Z.max (e - 52) (- 1074) in
    let m :=
      if 0 <=? u then round_half_even a (d * Z.to_pos (2 ^ u))
      else round_half_even (a * 2 ^ (- u)) d in
    let negative := Qnum q <? 0 in
    if 0 <=? u then
      if 2 ^ 1024 <=? m * 2 ^ u then (if negative then NegInf else PosInf)
      else Fin (Qmake ((if negative then -1 else 1) * (m * 2 ^ u)) 1)
    else
      Fin (Qred (Qmake ((if negative then -1 else 1) * m)
                       (Z.to_pos (2 ^ (- u))))).

Definition pow10 (m : Z) (e : Z) : Q :=
  if 0 <=? e then Qmake (m * 10 ^ e) 1
  else Qmake m (Z.to_pos (10 ^ (- e))).

(** ExponentPart, or nothing: the exponent, if the whole rest is consumed. *)
Definition parse_exponent (s : list ascii) : option Z :=
  match s with
  | [] => Some 0
  | c :: rest =>
      if Ascii.eqb c "e"%char || Ascii.eqb c "E"%char then
        let '(sign, rest) :=
          match rest with
          | d :: rest' =>
              if Ascii.eqb d "-"%char then (-1, rest')
              else if Ascii.eqb d "+"%char then (1, rest')
              else (1, rest)
          | [] => (1, rest)
          end in
        match take_digits 10 0 0%nat rest with
        | (_, O, _) => None
        | (e, S _, []) => Some (sign * e)
        | (_, S _, _ :: _) => None
        end
      else None
  end.

(** StrUnsignedDecimalLiteral other than [Infinity]. *)
Definition parse_unsigned_decimal (s : list ascii) : option Q :=
  let '(int_part, int_count, s1) := take_digits 10 0 0%nat s in
  let '(mantissa, frac_count, has_dot, s2) :=
    match s1 with
    | c :: rest =>
        if Ascii.eqb c "."%char then
          let '(m, k, rest') := take_digits 10 int_part 0%nat rest in
          (m, k, true, rest')
        else (int_part, 0%nat, false, s1)
    | [] => (int_part, 0%nat, false, s1)
    end in
  match int_count, frac_count with
  | O, O => None
  | _, _ =>
      match parse_exponent s2 with
      | Some e => Some (pow10 mantissa (e - Z.of_nat frac_count))
      | None => None
      end
  end.

Definition infinity_chars : list ascii := list_ascii_of_string "Infinity".

Definition chars_eqb (a b : list ascii) : bool :=
  String.eqb (string_of_list_ascii a) (string_of_list_ascii b).

Definition parse_signed_decimal (s : list ascii) : Num :=
  let '(negative, body) :=
    match s with
    | c :: rest =>
        if Ascii.eqb c "-"%char then (true, rest)
        else if Ascii.eqb c "+"%char then (false, rest)
        else (false, s)
    | [] => (false, s)
    end in
  if chars_eqb body infinity_chars then
    (if negative then NegInf else PosInf)
  else
    match parse_unsigned_decimal body with
    | Some q => binary64 (if negative then Qopp q else q)
    | None => NaN
    end.

(** NonDecimalIntegerLiteral: [0x], [0o] or [0b] followed by digits only. *)
Definition parse_non_decimal (radix : Z) (s : list ascii) : Num :=
  match take_digits radix 0 0%nat (skipn 2 s) with
  | (v, S _, []) => binary64 (Qmake v 1)
  | _ => NaN
  end.

Definition StringToNumber (str : string) : Num :=
  let s := trim (list_ascii_of_string str) in
  match s with
  | [] => Fin 0
  | _ =>
      if starts_with_prefix "x" "X" s then parse_non_decimal 16 s
      else if starts_with_prefix "o" "O" s then parse_non_decimal 8 s
      else if starts_with_prefix "b" "B" s then parse_non_decimal 2 s
      else parse_signed_decimal s
  end.

(** [ToNumber]; arrays and objects are first reduced to the primitive that
    [ToString] gives. *)
Definition ToNumber (v : JsValue) : Result Num :=
  match v with
  | JsUndefined => Ok NaN
  | JsNull => Ok (Fin 0)
  | JsBool true => Ok (Fin 1)
  | JsBool false => Ok (Fin 0)
  | JsNumber z => Ok (Fin (inject_Z z))
  | JsString s => Ok (StringToNumber s)
  | JsArray _ | JsObject _ =>
      let! s := ToString v in
      Ok (StringToNumber s)
  end.

Definition Qlt_bool (a b : Q) : bool := negb (Qle_bool b a).

Definition num_isNaN (n : Num) : bool :=
  match n with NaN => true | _ => false end.

(** [n < k] and [n > k] for an integer literal [k]: false on NaN. *)
Definition num_lt (n : Num) (k : Z) : bool :=
  match n with
  | NaN => false
  | PosInf => false
  | NegInf => true
  | Fin q => Qlt_bool q (inject_Z k)
  end.

Definition num_gt (n : Num) (k : Z) : bool :=
  match n with
  | NaN => false
  | PosInf => true
  | NegInf => false
  | Fin q => Qlt_bool (inject_Z k) q
  end.

(** [isNaN(v)], [v < k] and [v > k] on an arbitrary value. *)
Definition isNaN (v : JsValue) : Result bool :=
  let! n := ToNumber v in Ok (num_isNaN n).

Definition lt_literal (v : JsValue) (k : Z) : Result bool :=
  let! n := ToNumber v in Ok (num_lt n k).

Definition gt_literal (v : JsValue) (k : Z) : Result bool :=
  let! n := ToNumber v in Ok (num_gt n k).

(** ** Regular expressions (matched through derivatives) *)

Inductive Regex : Type :=
| RNone
| REps
| RRange (lo hi : ascii)
| RSeq (r1 r2 : Regex)
| RAlt (r1 r2 : Regex).

Definition RChar (c : ascii) : Regex := RRange c c.
Definition ROpt (r : Regex) : Regex := RAlt r REps.

Fixpoint RRepeat (n : nat) (r : Regex) : Regex :=
  match n with
  | O => REps
  | S k => RSeq r (RRepeat k r)
  end.

Fixpoint nullable (r : Regex) : bool :=
  match r with
  | RNone => false
  | REps => true
  | RRange _ _ => false
  | RSeq a b => nullable a && nullable b
  | RAlt a b => nullable a || nullable b
  end.

Fixpoint deriv (c : ascii) (r : Regex) : Regex :=
  match r with
  | RNone | REps => RNone
  | RRange lo hi => if in_range lo hi c then REps else RNone
  | RSeq a b =>
      if nullable a then RAlt (RSeq (deriv c a) b) (deriv c b)
      else RSeq (deriv c a) b
  | RAlt a b => RAlt (deriv c a) (deriv c b)
  end.

(** [/^r$/.test(s)] (no flags) on a string: the whole of [s] matches [r]. *)
Fixpoint regex_match (r : Regex) (s : string) : bool :=
  match s with
  | EmptyString => nullable r
  | String c rest => regex_match (deriv c r) rest
  end.

(** [/^r$/.test(v)]: the argument is converted with [ToString]. *)
Definition regex_test (r : Regex) (v : JsValue) : Result bool :=
  let! s := ToString v in Ok (regex_match r s).

(** [Array.prototype.slice(start, end)] with integer arguments. *)
Definition slice_index (len i : Z) : Z :=
  if i <? 0 then Z.max (len + i) 0 else Z.min i len.

Definition slice {A : Type} (l : list A) (start finish : Z) : list A :=
  let len := Z.of_nat (List.length l) in
  let k := slice_index len start in
  let final := slice_index len finish in
  firstn (Z.to_nat (Z.max (final - k) 0)) (skipn (Z.to_nat k) l).

(** [Array.prototype.sort(cmp)].  The sort is stable (ECMAScript 2019), so
    with a consistent comparator its result is determined; it is computed
    here by straight insertion.  [cmp a b > 0] puts [b] before [a]. *)
Fixpoint sort_insert {A : Type} (cmp : A -> A -> Z) (x : A) (l : list A)
  : list A :=
  match l with
  | [] => [x]
  | y :: rest =>
      if cmp x y <=? 0 then x :: y :: rest
      else y :: sort_insert cmp x rest
  end.

Fixpoint sort {A : Type} (cmp : A -> A -> Z) (l : list A) : list A :=
  match l with
  | [] => []
  | x :: rest => sort_insert cmp x (sort cmp rest)
  end.

End Js.

(* ===================================================================== *)
(** * The peer registry and its HTTP routes                              *)
(* ===================================================================== *)

Module Registry.
Import Js.

(** ** [Map] with string keys

    A JavaScript [Map] iterates in insertion order, and [set] on a key that is
    already present keeps the key's position; the list of entries is kept in
    that order. *)

Definition JsMap (V : Type) : Type := list (string * V).

Fixpoint map_get {V : Type} (k : string) (m : JsMap V) : option V :=
  match m with
  | [] => None
  | (k', v) :: rest => if String.eqb k' k then Some v else map_get k rest
  end.

Definition map_has {V : Type} (k : string) (m : JsMap V) : bool :=
  match map_get k m with Some _ => true | None => false end.

Fixpoint map_set {V : Type} (k : string) (v : V) (m : JsMap V) : JsMap V :=
  match m with
  | [] => [(k, v)]
  | (k', v') :: rest =>
      if String.eqb k' k then (k', v) :: rest
      else (k', v') :: map_set k v rest
  end.

Fixpoint map_delete {V : Type} (k : string) (m : JsMap V) : JsMap V :=
  match m with
  | [] => []
  | (k', v') :: rest =>
      if String.eqb k' k then map_delete k rest
      else (k', v') :: map_delete k rest
  end.

Definition map_values {V : Type} (m : JsMap V) : list V := List.map snd m.

Definition map_size {V : Type} (m : JsMap V) : Z := Z.of_nat (List.length m).

(** Keys are unique in every map built by [map_set] from the empty map. *)
Definition map_wf {V : Type} (m : JsMap V) : Prop :=
  List.NoDup (List.map fst m).

(** ** Stored records and server state *)

Record Peer : Type := mkPeer {
  id : string;
  ip : string;
  port : option Z;              (* [parseInt(port)]; [None] is NaN *)
  name : JsValue;
  version : JsValue;
  capabilities : list JsValue;
  lastSeen : Z;
  registeredAt : Z;
  updatedAt : Z;
  connectionCount : Z;
  userAgent : string;
  ipAddress : string
}.

Record ServerStats : Type := mkStats {
  startTime : Z;
  totalRegistrations : Z;
  totalRequests : Z;
  errors : Z
}.

Inductive Level : Type := info | warn | error.

(** A logger call: level and message (the metadata object is left out). *)
Definition LogEntry : Type := (Level * string)%type.

Record State : Type := mkState {
  peers : JsMap Peer;
  serverStats : ServerStats;
  logs : list LogEntry
}.

Definition set_peers (st : State) (m : JsMap Peer) : State :=
  mkState m (serverStats st) (logs st).

Definition logger (lvl : Level) (msg : string) (st : State) : State :=
  mkState (peers st) (serverStats st) (logs st ++ [(lvl, msg)]).

(** [serverStats.errors++] *)
Definition count_error (st : State) : State :=
  let s := serverStats st in
  mkState (peers st)
          (mkStats (startTime s) (totalRegistrations s) (totalRequests s)
                   (errors s + 1))
          (logs st).

(** [serverStats.totalRegistrations++] *)
Definition count_registration (st : State) : State :=
  let s := serverStats st in
  mkState (peers st)
          (mkStats (startTime s) (totalRegistrations s + 1) (totalRequests s)
                   (errors s))
          (logs st).

(** ** [validatePeerData] *)

(** [x.length < k] *)
Definition length_lt (x : JsValue) (k : Z) : bool :=
  match x with
  | JsString s => Z.of_nat (String.length s) <? k
  | JsArray l => Z.of_nat (List.length l) <? k
  | _ => false
  end.

Definition digit : Regex := RRange "0" "9".

(** [25[0-5]|2[0-4][0-9]|[01]?[0-9][0-9]?] *)
Definition octet : Regex :=
  RAlt (RSeq (RChar "2") (RSeq (RChar "5") (RRange "0" "5")))
       (RAlt (RSeq (RChar "2") (RSeq (RRange "0" "4") digit))
             (RSeq (ROpt (RRange "0" "1")) (RSeq digit (ROpt digit)))).

(** [/^(?:(?:octet)\.){3}(?:octet)$/] *)
Definition ipRegex : Regex :=
  RSeq (RRepeat 3 (RSeq octet (RChar "."))) octet.

Definition push (errors : list string) (e : string) : list string :=
  errors ++ [e].

Definition validatePeerData (d_id d_ip d_port : JsValue)
  : Result (list string) :=
  let errors := [] in
  let errors :=
    if negb (ToBoolean d_id) || negb (typeof_string d_id)
       || length_lt d_id 10
    then push errors "Invalid peer ID" else errors in
  let errors :=
    if negb (ToBoolean d_ip) || negb (typeof_string d_ip)
    then push errors "Invalid IP address" else errors in
  let! port_bad :=
    or_else (negb (ToBoolean d_port))
      (let! nan := isNaN d_port in
       or_else nan
         (let! low := lt_literal d_port 1 in
          or_else low (gt_literal d_port 65535))) in
  let errors :=
    if port_bad then push errors "Invalid port number" else errors in
  (* Validate IP format (basic check) *)
  if ToBoolean d_ip then
    let! matched := regex_test ipRegex d_ip in
    if negb matched then
      let! has_colon := includes_colon d_ip in
      if negb has_colon then Ok (push errors "Invalid IP address format")
      else Ok errors
    else Ok errors
  else Ok errors.

(** ** [POST /register] *)

Record RegisterRequest : Type := mkRegisterRequest {
  body_id : JsValue;
  body_ip : JsValue;
  body_port : JsValue;
  body_name : JsValue;
  body_capabilities : JsValue;
  body_version : JsValue;
  header_userAgent : option string;     (* [req.get('User-Agent')] *)
  req_ip : string                       (* [req.ip] *)
}.

(** The [peer] object of the 200 response. *)
Record RegisteredPeer : Type := mkRegisteredPeer {
  rp_id : string;
  rp_name : JsValue;
  rp_version : JsValue;
  rp_capabilities : list JsValue;
  rp_registeredAt : Z;
  rp_updatedAt : Z
}.

Record NetworkSummary : Type := mkNetwork {
  totalPeers : Z;
  activePeers : Z
}.

Inductive RegisterResponse : Type :=
| Register200 (message : string) (peer : RegisteredPeer)
              (network : NetworkSummary)
| Register400 (error_text : string) (details : list string)
| Register500 (error_text : string).

(** [now - p.lastSeen < 2 * 60 * 1000] *)
Definition activeThreshold : Z := 2 * 60 * 1000.

Definition is_active (now : Z) (p : Peer) : bool :=
  now - lastSeen p <? activeThreshold.

(** Destructuring default: [field = dflt] applies to [undefined] only. *)
Definition default_to (dflt v : JsValue) : JsValue :=
  match v with JsUndefined => dflt | _ => v end.

(** [x || 0] on a number *)
Definition or_zero (x : Z) : Z := if x =? 0 then 0 else x.

(** The body of the handler's [try] block.  Its only operations that may
    throw, [validatePeerData] and [parseInt], come before the first write, so
    a throw leaves the state as it was on entry. *)
Definition register_try (req : RegisterRequest) (now : Z) (st : State)
  : Result (RegisterResponse * State) :=
  let capabilities_in := default_to (JsArray []) (body_capabilities req) in
  let version_in := default_to (JsString "1.0.0") (body_version req) in
  let! validationErrors :=
    validatePeerData (body_id req) (body_ip req) (body_port req) in
  match validationErrors with
  | _ :: _ => Ok (Register400 "Validation failed" validationErrors, st)
  | [] =>
      match body_id req, body_ip req with
      | JsString id_s, JsString ip_s =>
          let! portNum := parseInt (body_port req) in
          let existingPeer := map_get id_s (peers st) in
          let isUpdate :=
            match existingPeer with Some _ => true | None => false end in
          let peer := {|
            id := id_s;
            ip := ip_s;
            port := portNum;
            name := if ToBoolean (body_name req) then body_name req
                    else JsString ("Peer-" +:+ substring 0 8 id_s);
            version := version_in;
            capabilities := match capabilities_in with
                            | JsArray items => items   (* [Array.isArray] *)
                            | _ => []
                            end;
            lastSeen := now;
            registeredAt := match existingPeer with
                            | Some e => registeredAt e
                            | None => now
                            end;
            updatedAt := now;
            connectionCount := match existingPeer with
                               | Some e => or_zero (connectionCount e) + 1
                               | None => 1
                               end;
            userAgent := match header_userAgent req with
                         | Some ua => if String.eqb ua "" then "Unknown"
                                      else ua
                         | None => "Unknown"
                         end;
            ipAddress := req_ip req
          |} in
          let st := set_peers st (map_set id_s peer (peers st)) in
          let st := count_registration st in
          let st :=
            logger info ((if isUpdate then "Updated" else "Registered")
                         +:+ " peer: " +:+ id_s) st in
          Ok (Register200
                ("Peer " +:+ (if isUpdate then "updated" else "registered")
                 +:+ " successfully")
                {| rp_id := id peer;
                   rp_name := name peer;
                   rp_version := version peer;
                   rp_capabilities := capabilities peer;
                   rp_registeredAt := registeredAt peer;
                   rp_updatedAt := updatedAt peer |}
                {| totalPeers := map_size (peers st);
                   activePeers :=
                     Z.of_nat (List.length
                       (List.filter (is_active now)
                                    (map_values (peers st)))) |},
              st)
      | _, _ =>
          (* not reached: an empty error list means that both are strings,
             see [validatePeerData_ok_strings] *)
          Throw "unreachable"
      end
  end.

Definition post_register (req : RegisterRequest) (now : Z) (st : State)
  : RegisterResponse * State :=
  match register_try req now st with
  | Ok result => result
  | Throw _ =>
      (* catch (error) *)
      let st := count_error st in
      let st := logger error "Registration error:" st in
      (Register500 "Internal server error", st)
  end.

(** ** [GET /peers] *)

Record PeersQuery : Type := mkPeersQuery {
  q_limit : JsValue;
  q_active : JsValue;
  q_capability : JsValue;
  q_version : JsValue;
  q_offset : JsValue
}.

(** The public projection of a stored record ("Remove sensitive
    information"). *)
Record PublicPeer : Type := mkPublicPeer {
  pp_id : string;
  pp_ip : string;
  pp_port : option Z;
  pp_name : JsValue;
  pp_version : JsValue;
  pp_capabilities : list JsValue;
  pp_lastSeen : Z;
  pp_registeredAt : Z;
  pp_connectionCount : Z
}.

Definition public_view (p : Peer) : PublicPeer :=
  {| pp_id := id p;
     pp_ip := ip p;
     pp_port := port p;
     pp_name := name p;
     pp_version := version p;
     pp_capabilities := capabilities p;
     pp_lastSeen := lastSeen p;
     pp_registeredAt := registeredAt p;
     pp_connectionCount := connectionCount p |}.

Record Pagination : Type := mkPagination {
  total : Z;
  limit : Z;
  offset : Z;
  hasMore : bool
}.

Record Filters : Type := mkFilters {
  f_activeOnly : bool;
  f_capability : JsValue;
  f_version : JsValue
}.

Record PeersData : Type := mkPeersData {
  r_peers : list PublicPeer;
  r_pagination : Pagination;
  r_filters : Filters
}.

Inductive PeersResponse : Type :=
| Peers200 (data : PeersData)
| Peers500 (error_text : string).

(** [n || d] for the result [n] of [parseInt]: NaN and 0 are falsy. *)
Definition or_default (n : option Z) (d : Z) : Z :=
  match n with
  | Some k => if k =? 0 then d else k
  | None => d
  end.

(** [Math.min(parseInt(req.query.limit) || 50, 100)] *)
Definition query_limit (q : PeersQuery) : Result Z :=
  let! n := parseInt (q_limit q) in
  Ok (Z.min (or_default n 50) 100).

(** [parseInt(req.query.offset) || 0] *)
Definition query_offset (q : PeersQuery) : Result Z :=
  let! n := parseInt (q_offset q) in
  Ok (or_default n 0).

(** [req.query.active === 'true'] *)
Definition query_activeOnly (q : PeersQuery) : bool :=
  strict_eq (q_active q) (JsString "true").

(** The three optional filters, in the order of the handler. *)
Definition filter_peers (q : PeersQuery) (now : Z) (peerList : list Peer)
  : list Peer :=
  let peerList :=
    if query_activeOnly q
    then List.filter (is_active now) peerList
    else peerList in
  let peerList :=
    if ToBoolean (q_capability q)
    then List.filter
           (fun peer => array_includes (capabilities peer) (q_capability q))
           peerList
    else peerList in
  let peerList :=
    if ToBoolean (q_version q)
    then List.filter (fun peer => strict_eq (version peer) (q_version q))
                     peerList
    else peerList in
  peerList.

(** [peerList.sort((a, b) => b.lastSeen - a.lastSeen)] *)
Definition by_lastSeen_desc (a b : Peer) : Z := lastSeen b - lastSeen a.

Definition sort_peers (peerList : list Peer) : list Peer :=
  sort by_lastSeen_desc peerList.

(** The body of the [try] block: it performs no write. *)
Definition peers_try (q : PeersQuery) (now : Z) (st : State)
  : Result PeersData :=
  let! limit := query_limit q in
  let activeOnly := query_activeOnly q in
  let! offset := query_offset q in
  let peerList := map_values (peers st) in
  let peerList := filter_peers q now peerList in
  let peerList := sort_peers peerList in
  let total := Z.of_nat (List.length peerList) in
  let peerList := slice peerList offset (offset + limit) in
  let publicPeers := List.map public_view peerList in
  Ok {| r_peers := publicPeers;
        r_pagination := {| total := total;
                           limit := limit;
                           offset := offset;
                           hasMore := offset + limit <? total |};
        r_filters := {| f_activeOnly := activeOnly;
                        f_capability := q_capability q;
                        f_version := q_version q |} |}.

Definition get_peers (q : PeersQuery) (now : Z) (st : State)
  : PeersResponse * State :=
  match peers_try q now st with
  | Ok data => (Peers200 data, st)
  | Throw _ =>
      let st := count_error st in
      let st := logger error "Peers list error:" st in
      (Peers500 "Internal server error", st)
  end.

(** ** [GET /peers/:id] *)

Inductive PeerResponse : Type :=
| Peer200 (peer : PublicPeer)
| Peer404 (error_text : string).

Definition get_peer (id : string) (st : State) : PeerResponse * State :=
  match map_get id (peers st) with
  | None => (Peer404 "Peer not found", st)
  | Some peer => (Peer200 (public_view peer), st)
  end.

(** ** [DELETE /peers/:id] *)

Inductive DeleteResponse : Type :=
| Delete200 (message : string) (peer_id : string) (peer_name : JsValue)
| Delete404 (error_text : string).

Definition delete_peer (id : string) (st : State) : DeleteResponse * State :=
  if negb (map_has id (peers st)) then (Delete404 "Peer not found", st)
  else
    match map_get id (peers st) with
    | Some peer =>
        let st := set_peers st (map_delete id (peers st)) in
        let st := logger info ("Unregistered peer: " +:+ id) st in
        (Delete200 "Peer unregistered successfully"
                   (Registry.id peer) (name peer), st)
    | None => (Delete404 "Peer not found", st)   (* excluded by [has] *)
    end.

(** ** [POST /peers/:id/heartbeat] *)

Inductive HeartbeatResponse : Type :=
| Heartbeat200 (message : string) (lastSeen_out : Z)
| Heartbeat404 (error_text : string).

(** [peer.lastSeen = t] *)
Definition set_lastSeen (p : Peer) (t : Z) : Peer :=
  {| id := id p; ip := ip p; port := port p; name := name p;
     version := version p; capabilities := capabilities p;
     lastSeen := t;
     registeredAt := registeredAt p; updatedAt := updatedAt p;
     connectionCount := connectionCount p;
     userAgent := userAgent p; ipAddress := ipAddress p |}.

Definition post_heartbeat (id : string) (now : Z) (st : State)
  : HeartbeatResponse * State :=
  match map_get id (peers st) with
  | None => (Heartbeat404 "Peer not found", st)
  | Some peer =>
      let peer := set_lastSeen peer now in
      let st := set_peers st (map_set id peer (peers st)) in
      (Heartbeat200 "Heartbeat received" (lastSeen peer), st)
  end.

(** ** [cleanupInactivePeers] *)

Definition inactiveThreshold : Z := 5 * 60 * 1000.

Definition is_stale (now : Z) (p : Peer) : bool :=
  now - lastSeen p >? inactiveThreshold.

(** The [for ... of peers.entries()] loop.  The iterator is live, but the
    only entry deleted in an iteration is the one just visited, so the loop
    visits the entries present when it starts, in order. *)
Fixpoint cleanup_loop (now : Z) (entries : list (string * Peer))
  (st : State) (removedCount : Z) : State * Z :=
  match entries with
  | [] => (st, removedCount)
  | (id, peer) :: rest =>
      if is_stale now peer then
        let st := set_peers st (map_delete id (peers st)) in
        let st := logger info ("Removed inactive peer: " +:+ id) st in
        cleanup_loop now rest st (removedCount + 1)
      else cleanup_loop now rest st removedCount
  end.

Definition cleanupInactivePeers (now : Z) (st : State) : State :=
  let '(st, removedCount) := cleanup_loop now (peers st) st 0 in
  if removedCount >? 0 then
    logger info ("Cleanup completed: removed "
                 +:+ NilZero.string_of_int (Z.to_int removedCount)
                 +:+ " inactive peers") st
  else st.

End Registry.

(* ===================================================================== *)
(** * The WebSocket signaling relay                                      *)
(* ===================================================================== *)

Module Signaling.
Import Js.

(** ** Keys of [websocketClients]

    The map is keyed by whatever [data.peerId] holds.  Primitive keys are
    compared by value; an array or object is a key by identity, and every
    parsed frame allocates new ones ([KRef] carries the allocation number). *)
Inductive JsKey : Type :=
| KUndefined
| KNull
| KBool (b : bool)
| KNumber (z : Z)
| KString (s : string)
| KRef (r : nat).

#[global] Instance JsKey_eq_dec : EqDecision JsKey.
Proof. solve_decision. Defined.

#[global] Instance JsKey_countable : Countable JsKey.
Proof.
  refine (inj_countable'
    (fun k => match k with
              | KUndefined => inl tt
              | KNull => inr (inl tt)
              | KBool b => inr (inr (inl b))
              | KNumber z => inr (inr (inr (inl z)))
              | KString s => inr (inr (inr (inr (inl s))))
              | KRef r => inr (inr (inr (inr (inr r))))
              end)
    (fun x => match x with
              | inl tt => KUndefined
              | inr (inl tt) => KNull
              | inr (inr (inl b)) => KBool b
              | inr (inr (inr (inl z))) => KNumber z
              | inr (inr (inr (inr (inl s)))) => KString s
              | inr (inr (inr (inr (inr r)))) => KRef r
              end) _).
  intros []; reflexivity.
Defined.

(** The key under which [set(v, _)] stores, [fresh] being the identity of
    [v] when it is an array or object. *)
Definition key_of (fresh : nat) (v : JsValue) : JsKey :=
  match v with
  | JsUndefined => KUndefined
  | JsNull => KNull
  | JsBool b => KBool b
  | JsNumber z => KNumber z
  | JsString s => KString s
  | JsArray _ | JsObject _ => KRef fresh
  end.

(** The key that [get(v)] can find: none for an array or object that was
    just parsed, since no entry of the map has its identity. *)
Definition lookup_key (v : JsValue) : option JsKey :=
  match v with
  | JsArray _ | JsObject _ => None
  | _ => Some (key_of 0%nat v)
  end.

(** ** Sockets and server state *)

Inductive ReadyState : Type := CONNECTING | OPEN | CLOSING | CLOSED.

Definition is_open (r : ReadyState) : bool :=
  match r with OPEN => true | _ => false end.

(** One accepted socket [ws] together with the variables its callbacks
    close over: [peerId] (with the map key it denotes) and the frames passed
    to [ws.send], oldest first. *)
Record Connection : Type := mkConnection {
  readyState : ReadyState;
  peerId : JsValue;
  peerKey : JsKey;
  sent : list JsValue
}.

Record State : Type := mkState {
  registry : Registry.State;               (* [peers], stats and the log *)
  websocketClients : gmap JsKey nat;       (* peer id -> socket *)
  connections : gmap nat Connection;       (* sockets accepted so far *)
  next_ws : nat;
  next_ref : nat;
  exited : bool                            (* [process.exit] was called *)
}.

Definition log (lvl : Registry.Level) (msg : string) (st : State) : State :=
  mkState (Registry.logger lvl msg (registry st)) (websocketClients st)
          (connections st) (next_ws st) (next_ref st) (exited st).

Definition set_clients (st : State) (m : gmap JsKey nat) : State :=
  mkState (registry st) m (connections st) (next_ws st) (next_ref st)
          (exited st).

Definition set_connections (st : State) (m : gmap nat Connection) : State :=
  mkState (registry st) (websocketClients st) m (next_ws st) (next_ref st)
          (exited st).

Definition socket_open (st : State) (ws : nat) : bool :=
  match connections st !! ws with
  | Some c => is_open (readyState c)
  | None => false
  end.

(** The frames handed to [ws.send] on socket [ws] so far. *)
Definition outbox (st : State) (ws : nat) : list JsValue :=
  match connections st !! ws with
  | Some c => sent c
  | None => []
  end.

(** [ws.send(JSON.stringify(frame))]: the frame goes out on an open socket;
    on any other socket nothing is sent and the call throws. *)
Definition ws_send (ws : nat) (frame : JsValue) (st : State)
  : State * Result unit :=
  match connections st !! ws with
  | Some c =>
      if is_open (readyState c) then
        (set_connections st
           (<[ws := mkConnection (readyState c) (peerId c) (peerKey c)
                                 (sent c ++ [frame])]> (connections st)),
         Ok tt)
      else (st, Throw "Error: WebSocket is not open")
  | None => (st, Throw "Error: WebSocket is not open")
  end.

(** [data.k] on a value that is not [null]. *)
Definition field (data : JsValue) (k : string) : JsValue :=
  match data with
  | JsObject fields => own_property fields k
  | _ => JsUndefined
  end.

(** ** Relay of offers, answers and ICE candidates

    [handlePeerOffer], [handlePeerAnswer] and [handleIceCandidate] are the
    same function up to the frame type, the name of the payload property and
    the wording of the log line. *)
Definition relay (type payload label : string) (data : JsValue) (st : State)
  : State * Result unit :=
  let targetPeer :=
    match lookup_key (field data "to") with
    | Some k => websocketClients st !! k
    | None => None
    end in
  match targetPeer with
  | Some target =>
      if socket_open st target then
        match ws_send target
                (JsObject [("type", JsString type);
                           ("from", field data "from");
                           (payload, field data payload)]) st with
        | (st, Throw e) => (st, Throw e)
        | (st, Ok _) =>
            match ToString (field data "from"), ToString (field data "to")
            with
            | Ok from_s, Ok to_s =>
                (log Registry.info
                     (label +:+ " forwarded from " +:+ from_s +:+ " to "
                      +:+ to_s) st, Ok tt)
            | Throw e, _ => (st, Throw e)
            | _, Throw e => (st, Throw e)
            end
        end
      else
        match ToString (field data "to") with
        | Ok to_s =>
            (log Registry.warn
                 ("Target peer not found or not connected: " +:+ to_s) st,
             Ok tt)
        | Throw e => (st, Throw e)
        end
  | None =>
      match ToString (field data "to") with
      | Ok to_s =>
          (log Registry.warn
               ("Target peer not found or not connected: " +:+ to_s) st,
           Ok tt)
      | Throw e => (st, Throw e)
      end
  end.

Definition handlePeerOffer (data : JsValue) (st : State)
  : State * Result unit :=
  relay "peer_offer" "offer" "Peer offer" data st.

Definition handlePeerAnswer (data : JsValue) (st : State)
  : State * Result unit :=
  relay "peer_answer" "answer" "Peer answer" data st.

Definition handleIceCandidate (data : JsValue) (st : State)
  : State * Result unit :=
  relay "ice_candidate" "candidate" "ICE candidate" data st.

(** ** The [register] case *)

(** One entry of the [peer_list] frame. *)
Definition peer_summary (p : Registry.Peer) : JsValue :=
  JsObject [("id", JsString (Registry.id p));
            ("name", Registry.name p);
            ("capabilities", JsArray (Registry.capabilities p));
            ("lastSeen", JsNumber (Registry.lastSeen p))].

Definition peer_list (st : State) : JsValue :=
  JsObject [("type", JsString "peer_list");
            ("peers",
             JsArray (List.map peer_summary
                        (Registry.map_values
                           (Registry.peers (registry st)))))].

Definition is_reference (v : JsValue) : bool :=
  match v with JsArray _ | JsObject _ => true | _ => false end.

Definition handle_register (ws : nat) (data : JsValue) (st : State)
  : State * Result unit :=
  (* peerId = data.peerId *)
  let id_value := field data "peerId" in
  let key := key_of (next_ref st) id_value in
  let st :=
    mkState (registry st) (websocketClients st)
            (match connections st !! ws with
             | Some c =>
                 <[ws := mkConnection (readyState c) id_value key (sent c)]>
                   (connections st)
             | None => connections st
             end)
            (next_ws st)
            (if is_reference id_value then S (next_ref st) else next_ref st)
            (exited st) in
  (* websocketClients.set(peerId, ws) *)
  let st := set_clients st (<[key := ws]> (websocketClients st)) in
  match ToString id_value with
  | Throw e => (st, Throw e)
  | Ok id_s =>
      let st := log Registry.info ("WebSocket peer registered: " +:+ id_s)
                    st in
      (* Send current peer list *)
      ws_send ws (peer_list st) st
  end.

(** ** The callbacks of one socket *)

(** [ws.on('message')].  [parsed] is the outcome of [JSON.parse(message)]:
    [None] when it throws a SyntaxError. *)
Definition on_message (ws : nat) (parsed : option JsValue) (st : State)
  : State :=
  let '(st, outcome) :=
    match parsed with
    | None => (st, Throw "SyntaxError")
    | Some data =>
        match get_prop data "type" with
        | Throw e => (st, Throw e)
        | Ok type =>
            if strict_eq type (JsString "register") then
              handle_register ws data st
            else if strict_eq type (JsString "peer_offer") then
              handlePeerOffer data st
            else if strict_eq type (JsString "peer_answer") then
              handlePeerAnswer data st
            else if strict_eq type (JsString "ice_candidate") then
              handleIceCandidate data st
            else if strict_eq type (JsString "ping") then
              ws_send ws (JsObject [("type", JsString "pong")]) st
            else
              (log Registry.warn "Unknown WebSocket message type" st, Ok tt)
        end
    end in
  match outcome with
  | Ok _ => st
  | Throw _ => log Registry.error "WebSocket message error" st
  end.

(** [ws.on('close')], run once the socket has reached [CLOSED].  The
    callback has no [try]; an exception in it reaches the process-wide
    [uncaughtException] handler, which logs and exits. *)
Definition on_close (ws : nat) (st : State) : State :=
  match connections st !! ws with
  | None => st
  | Some c =>
      let st :=
        set_connections st
          (<[ws := mkConnection CLOSED (peerId c) (peerKey c) (sent c)]>
             (connections st)) in
      if ToBoolean (peerId c) then
        let st := set_clients st (delete (peerKey c) (websocketClients st)) in
        match ToString (peerId c) with
        | Ok id_s =>
            log Registry.info ("WebSocket peer disconnected: " +:+ id_s) st
        | Throw _ =>
            let st := log Registry.error "Uncaught Exception:" st in
            mkState (registry st) (websocketClients st) (connections st)
                    (next_ws st) (next_ref st) true
        end
      else st
  end.

(** [ws.on('error')] *)
Definition on_error (ws : nat) (st : State) : State :=
  log Registry.error "WebSocket error" st.

(** [wss.on('connection')]: a new socket, open, with [peerId = null]. *)
Definition on_connection (st : State) : State :=
  let ws := next_ws st in
  let st :=
    mkState (registry st) (websocketClients st)
            (<[ws := mkConnection OPEN JsNull KNull []]> (connections st))
            (S ws) (next_ref st) (exited st) in
  log Registry.info "New WebSocket connection" st.

(** ** Traces of socket events *)

Inductive Event : Type :=
| EConnection                                   (* a socket is accepted *)
| EMessage (ws : nat) (parsed : option JsValue) (* a frame arrives *)
| EClosing (ws : nat)                           (* the closing handshake starts *)
| EClose (ws : nat)                             (* the socket is closed *)
| EError (ws : nat).

Definition socket_closed (st : State) (ws : nat) : bool :=
  match connections st !! ws with
  | Some c => match readyState c with CLOSED => true | _ => false end
  | None => true
  end.

Definition start_closing (ws : nat) (st : State) : State :=
  match connections st !! ws with
  | Some c =>
      set_connections st
        (<[ws := mkConnection CLOSING (peerId c) (peerKey c) (sent c)]>
           (connections st))
  | None => st
  end.

(** The library emits [message] only for a socket that is open and [close]
    once per socket; nothing runs once the process has exited. *)
Definition step (st : State) (ev : Event) : State :=
  if exited st then st
  else
    match ev with
    | EConnection => on_connection st
    | EMessage ws parsed =>
        if socket_open st ws then on_message ws parsed st else st
    | EClosing ws => if socket_open st ws then start_closing ws st else st
    | EClose ws => if socket_closed st ws then st else on_close ws st
    | EError ws => if socket_closed st ws then st else on_error ws st
    end.

Definition run (evs : list Event) (st : State) : State :=
  fold_left step evs st.

Definition initial (reg : Registry.State) : State :=
  mkState reg ∅ ∅ 0%nat 0%nat false.

End Signaling.

(* ===================================================================== *)
(** * Vocabulary of the specification                                    *)
(* ===================================================================== *)

Module RegistrySpec.
Import Js Registry.

(** ** The three constraints on a registration *)

(** [id] is present and has at least 10 characters. *)
Definition id_valid (v : JsValue) : bool :=
  match v with
  | JsString s => 10 <=? Z.of_nat (String.length s)
  | _ => false
  end.

(** [ip] is present and is a dotted quad or contains a colon. *)
Definition ip_valid (v : JsValue) : bool :=
  match v with
  | JsString s =>
      negb (String.eqb s "")
      && (regex_match ipRegex s || string_includes_colon s)
  | _ => false
  end.

(** [port] is numeric and lies in [1, 65535]. *)
Definition port_valid (v : JsValue) : bool :=
  match ToNumber v with
  | Ok n => negb (num_isNaN n) && negb (num_lt n 1) && negb (num_gt n 65535)
  | Throw _ => false
  end.

Definition request_valid (r : RegisterRequest) : bool :=
  id_valid (body_id r) && ip_valid (body_ip r) && port_valid (body_port r).

(** The registrations [reqs] handled one after the other. *)
Definition register_all (reqs : list RegisterRequest) (now : Z) (st : State)
  : State :=
  fold_left (fun s r => snd (post_register r now s)) reqs st.

(** ** Sweep *)

(** Some entry of [entries] under key [k] is past the inactivity
    threshold. *)
Definition stale_key (now : Z) (k : string) (entries : list (string * Peer))
  : bool :=
  existsb (fun e => String.eqb (fst e) k && is_stale now (snd e)) entries.

(** ** Queries *)

(** [GET /peers?limit=lim&offset=off] *)
Definition page_query (lim off : string) : PeersQuery :=
  mkPeersQuery (JsString lim) JsUndefined JsUndefined JsUndefined
               (JsString off).

(** [GET /peers?limit=-5] *)
Definition negative_limit_query : PeersQuery :=
  mkPeersQuery (JsString "-5") JsUndefined JsUndefined JsUndefined
               JsUndefined.

(** [GET /peers?active=true] *)
Definition active_query : PeersQuery :=
  mkPeersQuery JsUndefined (JsString "true") JsUndefined JsUndefined
               JsUndefined.

(** ** Requester metadata *)

(** A record with the requester's [userAgent] and [ipAddress] blanked. *)
Definition redact (p : Peer) : Peer :=
  {| id := id p; ip := ip p; port := port p; name := name p;
     version := version p; capabilities := capabilities p;
     lastSeen := lastSeen p; registeredAt := registeredAt p;
     updatedAt := updatedAt p; connectionCount := connectionCount p;
     userAgent := ""; ipAddress := "" |}.

Definition redact_map (m : JsMap Peer) : JsMap Peer :=
  List.map (fun e => (fst e, redact (snd e))) m.

(** Two states whose stored records differ at most in [userAgent] and
    [ipAddress]. *)
Definition same_public (st1 st2 : State) : Prop :=
  redact_map (peers st1) = redact_map (peers st2).

(** ** Sample data *)

Definition no_stats : ServerStats := mkStats 0 0 0 0.

Definition empty_state : State := mkState [] no_stats [].

Definition sample_peer (peer_id agent : string) (seen : Z) : Peer :=
  {| id := peer_id; ip := "192.168.1.100"; port := Some 8080;
     name := JsString "Test Node"; version := JsString "1.0.0";
     capabilities := [JsString "websocket"; JsString "webrtc"];
     lastSeen := seen; registeredAt := 1000; updatedAt := seen;
     connectionCount := 1; userAgent := agent; ipAddress := "10.0.0.7" |}.

(** At [now = 1000000]: seen 10 s, 3 min, 4 min 59 s and 5 min 1 s ago. *)
Definition sample_now : Z := 1000000.

Definition aged_state : State :=
  mkState [("peer_fresh_0001", sample_peer "peer_fresh_0001" "curl" 990000);
           ("peer_3min_0002", sample_peer "peer_3min_0002" "curl" 820000);
           ("peer_4m59_0003", sample_peer "peer_4m59_0003" "curl" 701000);
           ("peer_5m01_0004", sample_peer "peer_5m01_0004" "curl" 699000)]
          no_stats [].

(** The same records as [aged_state], registered from another browser. *)
Definition aged_state_other_agent : State :=
  mkState [("peer_fresh_0001", sample_peer "peer_fresh_0001" "Firefox" 990000);
           ("peer_3min_0002", sample_peer "peer_3min_0002" "Firefox" 820000);
           ("peer_4m59_0003", sample_peer "peer_4m59_0003" "Firefox" 701000);
           ("peer_5m01_0004", sample_peer "peer_5m01_0004" "Firefox" 699000)]
          no_stats [].

(** [n] peers, all seen at the same instant. *)
Definition crowd (n : nat) : State :=
  mkState
    (List.map
       (fun i =>
          let peer_id :=
            "peer_number_" +:+ NilZero.string_of_int (Z.to_int (Z.of_nat i)) in
          (peer_id, sample_peer peer_id "curl" 5000))
       (seq 0 n))
    no_stats [].

(** The registration of [src/test-api.js]. *)
Definition sample_request : RegisterRequest :=
  mkRegisterRequest (JsString "test_peer_123") (JsString "192.168.1.100")
                    (JsNumber 8080) (JsString "Test Node")
                    JsUndefined JsUndefined None "::1".

(** The state after [sample_request] was handled at time 1000 on the empty
    registry. *)
Definition registered_once : State :=
  Eval vm_compute in snd (post_register sample_request 1000 empty_state).

(** [{"id": "short", "ip": 42, "port": 8080}]: the id is too short and the
    ip is not a string. *)
Definition numeric_ip_request : RegisterRequest :=
  mkRegisterRequest (JsString "short") (JsNumber 42) (JsNumber 8080)
                    JsUndefined JsUndefined JsUndefined None "::1".

End RegistrySpec.

Module SignalingSpec.
Import Js Signaling.

Inductive RelayKind : Type := Offer | Answer | IceCandidate.

Definition relay_type (k : RelayKind) : string :=
  match k with
  | Offer => "peer_offer"
  | Answer => "peer_answer"
  | IceCandidate => "ice_candidate"
  end.

Definition relay_payload (k : RelayKind) : string :=
  match k with
  | Offer => "offer"
  | Answer => "answer"
  | IceCandidate => "candidate"
  end.

Definition relay_label (k : RelayKind) : string :=
  match k with
  | Offer => "Peer offer"
  | Answer => "Peer answer"
  | IceCandidate => "ICE candidate"
  end.

(** The frame [{type, from, payload}] that a relay puts on the target. *)
Definition forwarded (k : RelayKind) (data : JsValue) : JsValue :=
  JsObject [("type", JsString (relay_type k));
            ("from", field data "from");
            (relay_payload k, field data (relay_payload k))].

(** The socket that [websocketClients.get(to)] returns. *)
Definition target_of (st : State) (to : JsValue) : option nat :=
  match lookup_key to with
  | Some k => websocketClients st !! k
  | None => None
  end.

Definition logs_of (st : State) : list Registry.LogEntry :=
  Registry.logs (registry st).

(** The line logged for a message that cannot be delivered to [to]: the
    warning of the relay, or the error of the [catch] around it when [to]
    cannot be printed. *)
Definition delivery_failure (to : JsValue) : Registry.LogEntry :=
  match ToString to with
  | Ok to_s =>
      (Registry.warn, "Target peer not found or not connected: " +:+ to_s)
  | Throw _ => (Registry.error, "WebSocket message error")
  end.

(** A dropped message: the state is as before but for one more line in the
    log, the delivery failure; in particular no socket received anything and
    no socket changed. *)
Definition dropped (st st' : State) (to : JsValue) : Prop :=
  st' = log (fst (delivery_failure to)) (snd (delivery_failure to)) st /\
  connections st' = connections st /\
  logs_of st' = (logs_of st ++ [delivery_failure to])%list.

(** What the [catch] of [ws.on('message')] makes of a handler's outcome. *)
Definition caught (r : State * Result unit) : State :=
  match snd r with
  | Ok _ => fst r
  | Throw _ => log Registry.error "WebSocket message error" (fst r)
  end.

(** The peer ids bound to socket [ws] in [websocketClients]. *)
Definition bound_ids (st : State) (ws : nat) : gmap JsKey nat :=
  filter (fun kv => kv.2 = ws) (websocketClients st).

(** No socket is the value of two keys. *)
Definition one_id_per_channel (st : State) : Prop :=
  forall k1 k2 ws,
    websocketClients st !! k1 = Some ws ->
    websocketClients st !! k2 = Some ws -> k1 = k2.

(** [ev] is a [register] frame arriving on [ws]. *)
Definition is_register (ws : nat) (ev : Event) : bool :=
  match ev with
  | EMessage w (Some data) =>
      Nat.eqb w ws &&
      match get_prop data "type" with
      | Ok type => strict_eq type (JsString "register")
      | Throw _ => false
      end
  | _ => false
  end.

(** How many [register] frames arrive on [ws] in the trace [evs]. *)
Definition registrations (ws : nat) (evs : list Event) : nat :=
  List.length (List.filter (is_register ws) evs).

(** ** Sample data *)

Definition register_frame (peer : string) : JsValue :=
  JsObject [("type", JsString "register"); ("peerId", JsString peer)].

(** [peer_offer{from: "A", to: "B", offer: X}] *)
Definition offer_A_to_B : JsValue :=
  JsObject [("type", JsString "peer_offer");
            ("from", JsString "A");
            ("to", JsString "B");
            ("offer", JsObject [("type", JsString "offer");
                                ("sdp", JsString "v=0")])].

(** The same offer addressed to a peer that never registered. *)
Definition offer_A_to_nobody : JsValue :=
  JsObject [("type", JsString "peer_offer");
            ("from", JsString "A");
            ("to", JsString "Z");
            ("offer", JsObject [("type", JsString "offer");
                                ("sdp", JsString "v=0")])].

(** Socket 0 registers as "A", socket 1 as "B". *)
Definition A_and_B : State :=
  run [EConnection; EConnection;
       EMessage 0 (Some (register_frame "A"));
       EMessage 1 (Some (register_frame "B"))]
      (initial RegistrySpec.aged_state).

(** One socket announces "A" and then "B". *)
Definition two_registrations : list Event :=
  [EConnection;
   EMessage 0 (Some (register_frame "A"));
   EMessage 0 (Some (register_frame "B"))].

(** One socket announces "A" and closes; another announces "A". *)
Definition one_registration_each : list Event :=
  [EConnection; EConnection;
   EMessage 0 (Some (register_frame "A"));
   EClose 0;
   EMessage 1 (Some (register_frame "A"))].

End SignalingSpec.

(* ===================================================================== *)
(** * Further vocabulary: sequences of requests, pages, the sweep        *)
(* ===================================================================== *)

Module RegistryMore.
Import Js Registry RegistrySpec.

(** The same registration handled at each of the given times, in order. *)
Definition register_at_times (req : RegisterRequest) (times : list Z)
  (st : State) : State :=
  fold_left (fun s t => snd (post_register req t s)) times st.

(** What the sweep is meant to keep and to drop. *)
Definition keeps (now : Z) (e : string * Peer) : bool :=
  negb (is_stale now (snd e)).

Definition removal_line (e : string * Peer) : LogEntry :=
  (info, "Removed inactive peer: " +:+ fst e).

Definition summary_line (n : nat) : LogEntry :=
  (info, "Cleanup completed: removed "
         +:+ NilZero.string_of_int (Z.to_int (Z.of_nat n))
         +:+ " inactive peers").

(** A record passes the filters that the query asks for. *)
Definition matches_query (q : PeersQuery) (now : Z) (p : Peer) : bool :=
  (negb (query_activeOnly q) || is_active now p)
  && (negb (ToBoolean (q_capability q))
      || array_includes (capabilities p) (q_capability q))
  && (negb (ToBoolean (q_version q))
      || strict_eq (version p) (q_version q)).

(** The filtered and sorted list that [GET /peers] cuts its page from. *)
Definition listing (q : PeersQuery) (now : Z) (st : State) : list Peer :=
  sort_peers (filter_peers q now (map_values (peers st))).

(** The decimal numeral of an integer, as it is written in a URL. *)
Definition decimal (z : Z) : string := NilZero.string_of_int (Z.to_int z).

(** The query [q] with [limit=<lim>&offset=<off>] written as decimal
    numerals. *)
Definition with_window (q : PeersQuery) (lim off : Z) : PeersQuery :=
  mkPeersQuery (JsString (decimal lim)) (q_active q) (q_capability q)
               (q_version q) (JsString (decimal off)).

(** A query with no parameter at all. *)
Definition no_filter : PeersQuery :=
  mkPeersQuery JsUndefined JsUndefined JsUndefined JsUndefined JsUndefined.

(** The data-model invariant of the registry: one entry per id, every record
    stored under its own id, every [connectionCount] at least 1. *)
Definition record_ok (e : string * Peer) : Prop :=
  id (snd e) = fst e /\ 1 <= connectionCount (snd e).

Definition registry_ok (st : State) : Prop :=
  map_wf (peers st) /\ Forall record_ok (peers st).

(** An array or object as a query parameter (a repeated or nested key). *)
Definition is_structured (v : JsValue) : bool :=
  match v with JsArray _ | JsObject _ => true | _ => false end.

(** ** More sample data *)

Definition request_for (peer_id : string) : RegisterRequest :=
  mkRegisterRequest (JsString peer_id) (JsString "10.1.2.3") (JsNumber 4001)
                    JsUndefined (JsArray [JsString "webrtc"]) JsUndefined
                    (Some "Dart/3.0") "203.0.113.9".

End RegistryMore.

(* ===================================================================== *)
(** * Further vocabulary of the signaling channel                        *)
(* ===================================================================== *)

Module SignalingMore.
Import Js Signaling SignalingSpec.

(** [{"type": "register", "peerId": v}] *)
Definition register_as (v : JsValue) : JsValue :=
  JsObject [("type", JsString "register"); ("peerId", v)].

(** A relay frame of kind [k] addressed to [to]. *)
Definition relay_frame (k : RelayKind) (from to payload : JsValue)
  : JsValue :=
  JsObject [("type", JsString (relay_type k)); ("from", from); ("to", to);
            (relay_payload k, payload)].

Definition pong : JsValue := JsObject [("type", JsString "pong")].

(** The five values of [data.type] that the [switch] has a case for. *)
Definition known_type (t : JsValue) : bool :=
  strict_eq t (JsString "register") || strict_eq t (JsString "peer_offer")
  || strict_eq t (JsString "peer_answer")
  || strict_eq t (JsString "ice_candidate") || strict_eq t (JsString "ping").

(** The log line of a frame that no case handles: the [catch] line when
    [JSON.parse] or [data.type] throws, the [default] line otherwise. *)
Definition unusable_line (parsed : option JsValue) : Registry.LogEntry :=
  match parsed with
  | None => (Registry.error, "WebSocket message error")
  | Some data =>
      match get_prop data "type" with
      | Throw _ => (Registry.error, "WebSocket message error")
      | Ok _ => (Registry.warn, "Unknown WebSocket message type")
      end
  end.

Definition unusable (parsed : option JsValue) : bool :=
  match parsed with
  | None => true
  | Some data =>
      match get_prop data "type" with
      | Throw _ => true
      | Ok t => negb (known_type t)
      end
  end.

(** [st'] has the registry of [st]: the same [peers] map and counters, and
    a log that extends that of [st]. *)
Definition same_store (st st' : State) : Prop :=
  Registry.peers (registry st') = Registry.peers (registry st) /\
  Registry.serverStats (registry st') = Registry.serverStats (registry st) /\
  exists more, logs_of st' = (logs_of st ++ more)%list.

(** [{"type": "register", "peerId": {"toString": 1}}]: an id that cannot be
    converted to a string. *)
Definition unprintable_id : JsValue :=
  JsObject [("toString", JsNumber 1)].

End SignalingMore.

(* ===================================================================== *)
(** * The application: middleware, routes, timer and sockets together    *)
(* ===================================================================== *)

Module Server.
Import Js Registry.

(** ** Request logging middleware

    [serverStats.totalRequests++; logger.info(`${req.method} ${req.path}`)].
    It runs for every request that the earlier middleware (security headers,
    CORS, rate limiter, body parsers) lets through. *)
Definition count_request (st : State) : State :=
  let s := serverStats st in
  mkState (peers st)
          (mkStats (startTime s) (totalRegistrations s) (totalRequests s + 1)
                   (errors s))
          (logs st).

Definition log_request (method path : string) (st : State) : State :=
  logger info (method +:+ " " +:+ path) (count_request st).

(** ** [GET /status]

    The [network] object and the three counters of [statistics].  The other
    fields of the answer are read from the process (uptime, memory,
    environment, wall clock) and do not depend on the state of the
    registry.  Nothing in the [try] block throws. *)
Record NetworkStatus : Type := mkNetworkStatus {
  ns_totalPeers : Z;
  ns_activePeers : Z;
  ns_inactivePeers : Z
}.

Record Statistics : Type := mkStatistics {
  s_totalRegistrations : Z;
  s_totalRequests : Z;
  s_errors : Z
}.

Record StatusData : Type := mkStatusData {
  st_network : NetworkStatus;
  st_statistics : Statistics
}.

Definition get_status (now : Z) (st : State) : StatusData * State :=
  let activePeers := List.filter (is_active now) (map_values (peers st)) in
  ({| st_network :=
        {| ns_totalPeers := map_size (peers st);
           ns_activePeers := Z.of_nat (List.length activePeers);
           ns_inactivePeers :=
             map_size (peers st) - Z.of_nat (List.length activePeers) |};
      st_statistics :=
        {| s_totalRegistrations := totalRegistrations (serverStats st);
           s_totalRequests := totalRequests (serverStats st);
           s_errors := errors (serverStats st) |} |},
   st).

(** ** Routes *)

(** The route that Express selects for a request, with the parameters the
    handler reads. *)
Inductive Route : Type :=
| PostRegister (req : RegisterRequest)
| GetPeers (q : PeersQuery)
| GetPeer (id : string)
| GetStatus
| DeletePeer (id : string)
| PostHeartbeat (id : string)
| GetHealth
| GetApiDocs
| NoRoute.                         (* [app.use('*', ...)] *)

Inductive Answer : Type :=
| ARegister (r : RegisterResponse)
| APeers (r : PeersResponse)
| APeer (r : PeerResponse)
| AStatus (r : StatusData)
| ADelete (r : DeleteResponse)
| AHeartbeat (r : HeartbeatResponse)
| AHealth
| AApiDocs
| ANotFound                        (* 404 "Endpoint not found" *)
| AUnhandled.                      (* 500 from the error handler *)

(** The HTTP status of an answer: [res.json] alone answers 200. *)
Definition status_code (a : Answer) : Z :=
  match a with
  | ARegister (Register200 _ _ _) => 200
  | ARegister (Register400 _ _) => 400
  | ARegister (Register500 _) => 500
  | APeers (Peers200 _) => 200
  | APeers (Peers500 _) => 500
  | APeer (Peer200 _) => 200
  | APeer (Peer404 _) => 404
  | AStatus _ => 200
  | ADelete (Delete200 _ _ _) => 200
  | ADelete (Delete404 _) => 404
  | AHeartbeat (Heartbeat200 _ _) => 200
  | AHeartbeat (Heartbeat404 _) => 404
  | AHealth => 200
  | AApiDocs => 200
  | ANotFound => 404
  | AUnhandled => 500
  end.

Definition dispatch (r : Route) (now : Z) (st : State) : Answer * State :=
  match r with
  | PostRegister req =>
      let '(a, st) := post_register req now st in (ARegister a, st)
  | GetPeers q => let '(a, st) := get_peers q now st in (APeers a, st)
  | GetPeer id => let '(a, st) := get_peer id st in (APeer a, st)
  | GetStatus => let '(a, st) := get_status now st in (AStatus a, st)
  | DeletePeer id => let '(a, st) := delete_peer id st in (ADelete a, st)
  | PostHeartbeat id =>
      let '(a, st) := post_heartbeat id now st in (AHeartbeat a, st)
  | GetHealth => (AHealth, st)
  | GetApiDocs => (AApiDocs, st)
  | NoRoute => (ANotFound, st)
  end.

(** A request as the application sees it.
    - [Routed]: it passes the logging middleware and reaches its route.
    - [Unroutable]: it passes the logging middleware, and the router then
      fails on it and passes the error to [next]: a route parameter with a
      malformed percent-escape, as in [/peers/%E0%A4%A], cannot be decoded.
      The error handler answers.
    - [Failed]: a middleware in front of the logger passed an error to
      [next] (the body parser on a malformed body, for instance); only the
      error handler sees the request. *)
Inductive Request : Type :=
| Routed (method path : string) (r : Route)
| Unroutable (method path : string)
| Failed.

(** The request went through the logging middleware. *)
Definition logged (rq : Request) : bool :=
  match rq with
  | Routed _ _ _ | Unroutable _ _ => true
  | Failed => false
  end.

(** [serverStats.errors++; logger.error('Unhandled error:', error)] *)
Definition error_handler (st : State) : Answer * State :=
  let st := count_error st in
  let st := logger error "Unhandled error:" st in
  (AUnhandled, st).

Definition serve (rq : Request) (now : Z) (st : State) : Answer * State :=
  match rq with
  | Routed method path r => dispatch r now (log_request method path st)
  | Unroutable method path => error_handler (log_request method path st)
  | Failed => error_handler st
  end.

(** ** Everything that runs on the event loop *)

Inductive Callback : Type :=
| Http (now : Z) (rq : Request)       (* a request, handled at time [now] *)
| Tick (now : Z)                      (* the 60 s interval timer fires *)
| Socket (ev : Signaling.Event).

Definition with_registry (st : Signaling.State) (reg : State)
  : Signaling.State :=
  Signaling.mkState reg (Signaling.websocketClients st)
                    (Signaling.connections st) (Signaling.next_ws st)
                    (Signaling.next_ref st) (Signaling.exited st).

(** One callback, with the HTTP answer it produces, if any.  Nothing runs
    once the process has exited. *)
Definition react (st : Signaling.State) (ev : Callback)
  : Signaling.State * list Answer :=
  if Signaling.exited st then (st, [])
  else
    match ev with
    | Http now rq =>
        let '(a, reg) := serve rq now (Signaling.registry st) in
        (with_registry st reg, [a])
    | Tick now =>
        (with_registry st (cleanupInactivePeers now (Signaling.registry st)),
         [])
    | Socket ev => (Signaling.step st ev, [])
    end.

Fixpoint react_all (evs : list Callback) (st : Signaling.State)
  : Signaling.State * list Answer :=
  match evs with
  | [] => (st, [])
  | ev :: rest =>
      let '(st, answers) := react st ev in
      let '(st, more) := react_all rest st in
      (st, (answers ++ more)%list)
  end.

(** The requests among [evs] that get handled, in order: those that arrive
    before the process exits. *)
Fixpoint handled (evs : list Callback) (st : Signaling.State)
  : list Request :=
  match evs with
  | [] => []
  | ev :: rest =>
      ((if Signaling.exited st then []
        else match ev with Http _ rq => [rq] | _ => [] end)
       ++ handled rest (fst (react st ev)))%list
  end.

(** The server right after start at time [t]: empty maps, counters at
    zero. *)
Definition boot (t : Z) : Signaling.State :=
  Signaling.initial (mkState [] (mkStats t 0 0 0) []).

(** ** Counting answers *)

Definition is_registration (a : Answer) : bool :=
  match a with ARegister (Register200 _ _ _) => true | _ => false end.

Definition is_server_error (a : Answer) : bool := status_code a =? 500.

Definition count (f : Answer -> bool) (answers : list Answer) : Z :=
  Z.of_nat (List.length (List.filter f answers)).

(** How many of the requests satisfy [f]. *)
Definition served (f : Request -> bool) (requests : list Request) : Z :=
  Z.of_nat (List.length (List.filter f requests)).

Definition bump (b : bool) : Z := if b then 1 else 0.

(** The counters in [st'] are those of [st], moved as the answer [a] of a
    route requires. *)
Definition counted (a : Answer) (st st' : State) : Prop :=
  totalRequests (serverStats st') = totalRequests (serverStats st) /\
  errors (serverStats st')
    = errors (serverStats st) + bump (is_server_error a) /\
  totalRegistrations (serverStats st')
    = totalRegistrations (serverStats st) + bump (is_registration a).

(** The answers that can go with a change of the [peers] map. *)
Definition is_write (a : Answer) : bool :=
  match a with
  | ARegister (Register200 _ _ _) => true
  | ADelete (Delete200 _ _ _) => true
  | AHeartbeat (Heartbeat200 _ _) => true
  | _ => false
  end.

End Server.

(* ===================================================================== *)
(** * Proof automation                                                   *)
(* ===================================================================== *)

(** Case analysis on the next conversion that may throw. *)
Ltac case_result :=
  match goal with
  | |- context [Js.bind ?r _] => destruct r eqn:?; cbn [Js.bind]
  | |- context [match ?x with Js.Ok _ => _ | Js.Throw _ => _ end] =>
      destruct x eqn:?
  | |- context [if ?b then _ else _] => destruct b eqn:?
  end.

(** Membership of a literal in a list of literals. *)
Ltac in_literals :=
  cbn [In app]; intuition (try discriminate; try congruence).

(** Uniqueness of the keys of a literal map. *)
Ltac literal_wf :=
  unfold Registry.map_wf; cbn [List.map fst Registry.peers];
  repeat (constructor; [cbn [In]; intuition discriminate|]);
  constructor.

(* ===================================================================== *)
(** * The model on concrete inputs                                       *)
(* ===================================================================== *)

Module ModelChecks.
Import Js Registry RegistrySpec.

Example ipRegex_dotted_quad :
  regex_match ipRegex "192.168.1.100" = true /\
  regex_match ipRegex "01.002.3.255" = true /\
  regex_match ipRegex "256.1.1.1" = false /\
  regex_match ipRegex "1.2.3" = false /\
  regex_match ipRegex "1.2.3.4 " = false.
Proof. vm_compute. repeat split. Qed.

Example parseInt_cases :
  parseInt (JsString "  -12px") = Ok (Some (-12)) /\
  parseInt (JsString "0x1F") = Ok (Some 31) /\
  parseInt (JsString "1e3") = Ok (Some 1) /\
  parseInt (JsNumber 8080) = Ok (Some 8080) /\
  parseInt (JsString "abc") = Ok None /\
  parseInt JsUndefined = Ok None /\
  parseInt (JsArray [JsString "7"; JsString "8"]) = Ok (Some 7).
Proof. vm_compute. repeat split. Qed.

Example StringToNumber_cases :
  StringToNumber "" = Fin 0 /\
  StringToNumber " 80 " = Fin (inject_Z 80) /\
  StringToNumber "1e3" = Fin (inject_Z 1000) /\
  StringToNumber "0x50" = Fin (inject_Z 80) /\
  StringToNumber "80.5" = Fin (Qmake 161 2) /\
  StringToNumber "-Infinity" = NegInf /\
  StringToNumber "12px" = NaN /\
  StringToNumber "." = NaN.
Proof. vm_compute. repeat split. Qed.

(** Rounding to binary64: literals that are not binary64 numbers. *)
Example StringToNumber_rounds :
  StringToNumber "0.1" = Fin (Qmake 3602879701896397 36028797018963968) /\
  StringToNumber "0.99999999999999999999" = Fin 1 /\
  StringToNumber "65535.00000000000000000001" = Fin (inject_Z 65535) /\
  StringToNumber "9007199254740993" = Fin (inject_Z 9007199254740992) /\
  StringToNumber "9007199254740995" = Fin (inject_Z 9007199254740996) /\
  StringToNumber "1.7976931348623159e308" = PosInf /\
  StringToNumber "-1e400" = NegInf /\
  StringToNumber "2.4703282292062327e-324" = Fin 0.
Proof. vm_compute. repeat split. Qed.

Example port_cases :
  port_valid (JsNumber 8080) = true /\
  port_valid (JsString "8080") = true /\
  port_valid (JsNumber 0) = false /\
  port_valid (JsNumber 65536) = false /\
  port_valid (JsString "http") = false /\
  port_valid JsUndefined = false.
Proof. vm_compute. repeat split. Qed.

(** The range test sees the port after [Number] has rounded it. *)
Example port_rounding_cases :
  port_valid (JsString "0.99999999999999999999") = true /\
  port_valid (JsString "0.9999999999999999") = false /\
  port_valid (JsString "65535.00000000000000000001") = true /\
  port_valid (JsString "65535.0000000001") = false /\
  port_valid (JsString "1e400") = false /\
  port_valid (JsString " 0x1F ") = true.
Proof. vm_compute. repeat split. Qed.

Example slice_cases :
  slice [1; 2; 3; 4; 5] 1 3 = [2; 3] /\
  slice [1; 2; 3; 4; 5] 3 10 = [4; 5] /\
  slice [1; 2; 3; 4; 5] (-2) 10 = [4; 5] /\
  slice [1; 2; 3; 4; 5] 4 2 = [].
Proof. vm_compute. repeat split. Qed.

(** The sort is stable: equal keys keep their order. *)
Example sort_cases :
  sort (fun a b => snd b - snd a)
       [("a", 1); ("b", 3); ("c", 1); ("d", 3); ("e", 2)]
  = [("b", 3); ("d", 3); ("e", 2); ("a", 1); ("c", 1)].
Proof. vm_compute. reflexivity. Qed.

(** A port string that [Number] rounds up to 1 is accepted, and [parseInt]
    stores its leading digits: port 0. *)
Example rounded_port_registration :
  exists message rp net st',
    post_register
      (mkRegisterRequest (JsString "test_peer_123") (JsString "192.168.1.100")
                         (JsString "0.99999999999999999999") JsUndefined
                         JsUndefined JsUndefined None "::1")
      1000 empty_state
    = (Register200 message rp net, st') /\
    option_map port (map_get "test_peer_123" (peers st')) = Some (Some 0).
Proof. eexists _, _, _, _. split; vm_compute; reflexivity. Qed.

(** With a short id the same port is not reported. *)
Example short_id_rounded_port :
  post_register
    (mkRegisterRequest (JsString "short") (JsString "192.168.1.100")
                       (JsString "0.99999999999999999999") JsUndefined
                       JsUndefined JsUndefined None "::1")
    1000 empty_state
  = (Register400 "Validation failed" ["Invalid peer ID"], empty_state).
Proof. vm_compute. reflexivity. Qed.

(** The invalid registration of [src/test-api.js]: ip and port are missing. *)
Example invalid_registration :
  post_register
    (mkRegisterRequest (JsString "invalid_peer") JsUndefined JsUndefined
                       JsUndefined JsUndefined JsUndefined None "::1")
    1000 empty_state
  = (Register400 "Validation failed"
                 ["Invalid IP address"; "Invalid port number"],
     empty_state).
Proof. vm_compute. reflexivity. Qed.

(** Several violations are reported together. *)
Example short_id_and_bad_port :
  validatePeerData (JsString "short") (JsString "192.168.1.100") (JsNumber 0)
  = Ok ["Invalid peer ID"; "Invalid port number"].
Proof. vm_compute. reflexivity. Qed.

Example sweep_aged_state :
  List.map fst (peers (cleanupInactivePeers sample_now aged_state))
  = ["peer_fresh_0001"; "peer_3min_0002"; "peer_4m59_0003"].
Proof. vm_compute. reflexivity. Qed.

End ModelChecks.

(* ===================================================================== *)
(** * Facts about the runtime operations                                 *)
(* ===================================================================== *)

Module JsFacts.
Import Js.

Section SortByKey.
Context {A : Type} (key : A -> Z).

(* Sorting with the comparator [(a, b) => key(b) - key(a)]. *)

Lemma sort_insert_perm x l : Permutation (x :: l) (sort_insert (fun a b => key b - key a) x l).
Proof.
  induction l as [|y l IH]; simpl; auto.
  destruct (key y - key x <=? 0); auto.
  rewrite perm_swap. now constructor.
Qed.

Lemma sort_perm l : Permutation l (sort (fun a b => key b - key a) l).
Proof.
  induction l as [|x l IH]; simpl; auto.
  rewrite <- sort_insert_perm. now constructor.
Qed.

Lemma sort_insert_sorted x l :
  StronglySorted (fun a b => key a >= key b) l ->
  StronglySorted (fun a b => key a >= key b) (sort_insert (fun a b => key b - key a) x l).
Proof.
  induction 1 as [|y l Hs IH Hall]; simpl.
  - repeat constructor.
  - destruct (Z.leb_spec (key y - key x) 0) as [Hle|Hgt].
    + constructor; [now constructor|].
      constructor; [lia|].
      eapply List.Forall_impl; [|exact Hall]. simpl. intros; lia.
    + constructor; auto.
      eapply Permutation_Forall; [apply sort_insert_perm|].
      constructor; [lia|exact Hall].
Qed.

Lemma sort_sorted l :
  StronglySorted (fun a b => key a >= key b) (sort (fun a b => key b - key a) l).
Proof.
  induction l as [|x l IH]; simpl; [constructor|].
  now apply sort_insert_sorted.
Qed.

(** An element is inserted in front of the elements with its own key, so
    elements with equal keys keep their order. *)
Lemma sort_insert_stable t x l :
  List.filter (fun a => key a =? t) (sort_insert (fun a b => key b - key a) x l) =
  List.filter (fun a => key a =? t) (x :: l).
Proof.
  induction l as [|y l IH]; simpl; auto.
  destruct (Z.leb_spec (key y - key x) 0) as [Hle|Hgt]; auto.
  simpl in *. rewrite IH.
  destruct (Z.eqb_spec (key x) t), (Z.eqb_spec (key y) t); auto. lia.
Qed.

Lemma sort_stable t l :
  List.filter (fun a => key a =? t) (sort (fun a b => key b - key a) l) = List.filter (fun a => key a =? t) l.
Proof.
  induction l as [|x l IH]; simpl; auto.
  rewrite sort_insert_stable. simpl. now rewrite IH.
Qed.

End SortByKey.

Lemma slice_map {A B : Type} (f : A -> B) l a b :
  List.map f (slice l a b) = slice (List.map f l) a b.
Proof.
  unfold slice. rewrite length_map. now rewrite <- firstn_map, <- skipn_map.
Qed.

Lemma slice_In {A : Type} (x : A) l a b : In x (slice l a b) -> In x l.
Proof.
  unfold slice. intros H.
  set (k := Z.to_nat (slice_index (Z.of_nat (List.length l)) a)) in *.
  set (n := Z.to_nat _) in H.
  rewrite <- (firstn_skipn k l). apply in_or_app. right.
  rewrite <- (firstn_skipn n (skipn k l)). apply in_or_app. now left.
Qed.

Lemma slice_length {A : Type} (l : list A) a b :
  0 <= a -> a <= b ->
  Z.of_nat (List.length (slice l a b)) =
  Z.max 0 (Z.min b (Z.of_nat (List.length l)) - a).
Proof.
  intros Ha Hab. unfold slice, slice_index.
  destruct (Z.ltb_spec a 0); [lia|]. destruct (Z.ltb_spec b 0); [lia|].
  rewrite length_firstn, length_skipn. lia.
Qed.

(** A value that converts to a number also converts to a string. *)
Lemma ToNumber_ToString v n :
  ToNumber v = Ok n -> exists s, ToString v = Ok s.
Proof.
  destruct v as [| |[]|z|s|items|fields]; cbn [ToNumber]; eauto;
    try (cbn; eauto; fail);
    destruct (ToString _) as [s|]; cbn [bind]; eauto; discriminate.
Qed.

End JsFacts.

(* ===================================================================== *)
(** * Facts about the registry                                           *)
(* ===================================================================== *)

Module RegistryFacts.
Import Js Registry RegistrySpec JsFacts.

(** ** The ordered map *)


Section MapFacts.
Context {V : Type}.
Implicit Types (m : JsMap V) (k : string) (v : V).

Lemma map_get_set_eq k v m : map_get k (map_set k v m) = Some v.
Proof.
  induction m as [|[k' v'] m IH]; simpl.
  - now rewrite String.eqb_refl.
  - destruct (String.eqb k' k) eqn:E; simpl; rewrite E; auto.
Qed.

Lemma map_get_set_ne k k' v m :
  k <> k' -> map_get k' (map_set k v m) = map_get k' m.
Proof.
  intros Hne. induction m as [|[k0 v0] m IH]; simpl.
  - destruct (String.eqb_spec k k'); congruence.
  - destruct (String.eqb_spec k0 k) as [->|Hk]; simpl.
    + destruct (String.eqb_spec k k'); congruence.
    + destruct (String.eqb_spec k0 k'); auto.
Qed.

Lemma map_get_delete_eq k m : map_get k (map_delete k m) = None.
Proof.
  induction m as [|[k' v'] m IH]; simpl; auto.
  destruct (String.eqb k' k) eqn:E; simpl; auto. now rewrite E.
Qed.

Lemma map_get_delete_ne k k' m :
  k <> k' -> map_get k' (map_delete k m) = map_get k' m.
Proof.
  intros Hne. induction m as [|[k0 v0] m IH]; simpl; auto.
  destruct (String.eqb_spec k0 k) as [->|Hk]; simpl.
  - destruct (String.eqb_spec k k'); congruence.
  - destruct (String.eqb_spec k0 k'); auto.
Qed.

Lemma map_get_In k v m : map_get k m = Some v -> In (k, v) m.
Proof.
  induction m as [|[k' v'] m IH]; simpl; [discriminate|].
  destruct (String.eqb_spec k' k) as [->|Hk]; intros H.
  - injection H as ->. now left.
  - right. auto.
Qed.

Lemma map_get_None_keys k m : map_get k m = None <-> ~ In k (List.map fst m).
Proof.
  induction m as [|[k' v'] m IH]; simpl.
  - tauto.
  - destruct (String.eqb_spec k' k) as [->|Hk].
    + split; [discriminate | tauto].
    + rewrite IH. tauto.
Qed.

Lemma map_wf_get_In k v m : map_wf m -> In (k, v) m -> map_get k m = Some v.
Proof.
  unfold map_wf. induction m as [|[k' v'] m IH]; simpl; [tauto|].
  intros Hnd [Heq|Hin].
  - injection Heq as -> ->. now rewrite String.eqb_refl.
  - inversion Hnd as [|? ? Hnot Hnd']; subst.
    destruct (String.eqb_spec k' k) as [->|Hk]; auto.
    exfalso. apply Hnot. apply in_map_iff. now exists (k, v).
Qed.

Lemma map_set_keys k v m :
  List.map fst (map_set k v m) =
  if map_has k m then List.map fst m else (List.map fst m ++ [k])%list.
Proof.
  unfold map_has. induction m as [|[k' v'] m IH]; simpl; auto.
  destruct (String.eqb_spec k' k) as [->|Hk]; simpl; auto.
  rewrite IH. destruct (map_get k m); auto.
Qed.

Lemma map_set_wf k v m : map_wf m -> map_wf (map_set k v m).
Proof.
  unfold map_wf. rewrite map_set_keys. unfold map_has.
  destruct (map_get k m) eqn:E; auto.
  intros Hnd. apply List.NoDup_app; auto.
  - repeat constructor. simpl. tauto.
  - intros x Hx [<-|[]]. apply map_get_None_keys in E. tauto.
Qed.

Lemma map_delete_filter k m :
  map_delete k m = List.filter (fun e => negb (String.eqb (fst e) k)) m.
Proof.
  induction m as [|[k' v'] m IH]; simpl; auto.
  destruct (String.eqb k' k); simpl; now rewrite IH.
Qed.

Lemma map_delete_wf k m : map_wf m -> map_wf (map_delete k m).
Proof.
  unfold map_wf. induction m as [|[k' v'] m IH]; simpl; auto.
  intros Hnd. inversion Hnd as [|? ? Hnot Hnd']; subst.
  destruct (String.eqb k' k); simpl; auto.
  constructor; auto. intros Hin. apply Hnot.
  rewrite map_delete_filter in Hin. apply in_map_iff in Hin.
  destruct Hin as [e [He Hin]]. apply filter_In in Hin.
  apply in_map_iff. exists e. tauto.
Qed.

Lemma map_set_size_new k v m :
  map_get k m = None -> map_size (map_set k v m) = map_size m + 1.
Proof.
  unfold map_size. intros H. induction m as [|[k' v'] m IH]; simpl in *; auto.
  destruct (String.eqb k' k); [discriminate|]. simpl.
  specialize (IH H). lia.
Qed.

End MapFacts.

Lemma map_get_values k (p : Peer) m :
  map_get k m = Some p -> In p (map_values m).
Proof.
  intros H. apply map_get_In in H. unfold map_values.
  apply in_map_iff. now exists (k, p).
Qed.

(** ** Validation *)

Lemma validatePeerData_ok_strings d_id d_ip d_port :
  validatePeerData d_id d_ip d_port = Ok [] ->
  (exists s, d_id = JsString s) /\ (exists s, d_ip = JsString s).
Proof.
  unfold validatePeerData, push.
  destruct (negb (ToBoolean d_id) || negb (typeof_string d_id)
            || length_lt d_id 10) eqn:E1;
    destruct (negb (ToBoolean d_ip) || negb (typeof_string d_ip)) eqn:E2;
    cbn [app]; intros H.
  1-3: exfalso; revert H; repeat case_result; discriminate.
  apply orb_false_iff in E1 as [E1 _]. apply orb_false_iff in E1 as [_ E1].
  apply orb_false_iff in E2 as [_ E2].
  destruct d_id; try discriminate. destruct d_ip; try discriminate. eauto.
Qed.

Lemma id_check d_id :
  negb (ToBoolean d_id) || negb (typeof_string d_id) || length_lt d_id 10
  = negb (id_valid d_id).
Proof.
  destruct d_id as [| |b|z|s|items|fields]; try reflexivity.
  - now destruct b.
  - cbn. now destruct (z =? 0).
  - cbn. destruct s; [reflexivity|]. cbn [String.eqb negb orb].
    rewrite Z.leb_antisym. now rewrite negb_involutive.
Qed.

Lemma port_check d_port b :
  or_else (negb (ToBoolean d_port))
    (let! nan := isNaN d_port in
     or_else nan
       (let! low := lt_literal d_port 1 in
        or_else low (gt_literal d_port 65535))) = Ok b ->
  b = negb (port_valid d_port).
Proof.
  unfold port_valid, isNaN, lt_literal, gt_literal.
  destruct (ToBoolean d_port) eqn:Htruthy; cbn [negb or_else].
  - destruct (ToNumber d_port) as [n|]; cbn [bind]; [|discriminate].
    destruct (num_isNaN n), (num_lt n 1), (num_gt n 65535);
      cbn; congruence.
  - intros [= <-].
    destruct d_port as [| |[]|z|s| |]; try discriminate; try reflexivity.
    + cbn in Htruthy. apply negb_false_iff, Z.eqb_eq in Htruthy. now subst.
    + cbn in Htruthy. apply negb_false_iff, String.eqb_eq in Htruthy.
      now subst.
Qed.

Ltac in_literals :=
  cbn [In app]; intuition (try discriminate; try congruence).

Lemma validatePeerData_reports d_id d_ip d_port errs :
  validatePeerData d_id d_ip d_port = Ok errs ->
  (In "Invalid peer ID" errs <-> id_valid d_id = false) /\
  (In "Invalid IP address" errs \/ In "Invalid IP address format" errs <->
   ip_valid d_ip = false) /\
  (In "Invalid port number" errs <-> port_valid d_port = false).
Proof.
  unfold validatePeerData, push. rewrite id_check.
  destruct (or_else _ _) as [pb|] eqn:Hport; cbn [bind]; [|discriminate].
  apply port_check in Hport. 
  assert (Hpb : pb = true <-> port_valid d_port = false)
    by (rewrite Hport; destruct (port_valid d_port); cbn; intuition congruence).
  clear Hport.
  destruct (id_valid d_id); cbn [negb];
  destruct d_ip as [| |[]|z|s|items|fields];
  cbn [ToBoolean typeof_string negb orb ip_valid];
  repeat match goal with
  | z : Z |- context [negb (?z =? 0)] => destruct (negb (z =? 0))
  | s : string |- context [String.eqb ?s ""] =>
      destruct s; cbn [String.eqb negb andb]
  end;
  unfold regex_test; cbn [ToString bind includes_colon];
  repeat match goal with
  | |- context [bind ?r _] => destruct r; cbn [bind]
  | |- context [if negb ?b then _ else _] => destruct b; cbn [negb orb]
  | |- context [if has_own ?f ?k then _ else _] =>
      destruct (has_own f k); cbn [bind]
  end;
  destruct pb; intros [= <-]; in_literals.
Qed.


(** ** Registration *)

Lemma validatePeerData_valid d_id d_ip d_port :
  id_valid d_id = true -> ip_valid d_ip = true -> port_valid d_port = true ->
  validatePeerData d_id d_ip d_port = Ok [].
Proof.
  intros Hid Hip Hport. unfold validatePeerData, push.
  rewrite id_check, Hid. cbn [negb].
  destruct d_ip as [| |[]|z|s|items|fields]; try discriminate.
  destruct s as [|c s]; [discriminate|].
  cbn [ToBoolean typeof_string String.eqb negb orb].
  assert (Hcheck :
    or_else (negb (ToBoolean d_port))
      (let! nan := isNaN d_port in
       or_else nan
         (let! low := lt_literal d_port 1 in
          or_else low (gt_literal d_port 65535))) = Ok false).
  { destruct (or_else _ _) as [pb|] eqn:Hc.
    - apply port_check in Hc. rewrite Hport in Hc. now subst.
    - exfalso. revert Hc. unfold port_valid in Hport.
      unfold isNaN, lt_literal, gt_literal.
      destruct (ToBoolean d_port); cbn [negb or_else]; [|discriminate].
      destruct (ToNumber d_port) as [n|]; [|discriminate]. cbn [bind].
      destruct (num_isNaN n), (num_lt n 1); cbn; discriminate. }
  rewrite Hcheck. cbn [bind]. unfold regex_test. cbn [ToString bind].
  cbn [ip_valid String.eqb negb andb] in Hip.
  destruct (regex_match ipRegex (String c s)); cbn [negb]; auto.
  cbn [includes_colon bind]. cbn [orb] in Hip. now rewrite Hip.
Qed.

(** A registration that passes validation stores its record with [set]
    and answers 200. *)
Lemma register_valid_stores req now st :
  id_valid (body_id req) = true -> ip_valid (body_ip req) = true ->
  port_valid (body_port req) = true ->
  exists id_s stored message peer network st',
    body_id req = JsString id_s /\
    post_register req now st = (Register200 message peer network, st') /\
    peers st' = map_set id_s stored (peers st).
Proof.
  intros Hid Hip Hport. unfold post_register, register_try.
  rewrite validatePeerData_valid by assumption. cbn [bind].
  destruct (body_id req) as [| | | |id_s| |]; try discriminate.
  destruct (body_ip req) as [| | | |ip_s| |]; try discriminate.
  unfold port_valid in Hport.
  destruct (ToNumber (body_port req)) as [n|] eqn:Hn; [|discriminate].
  destruct (ToNumber_ToString _ _ Hn) as [s Hs].
  unfold parseInt. rewrite Hs. cbn [bind].
  eexists id_s, _, _, _, _, _. split; [reflexivity|].
  split; reflexivity.
Qed.

Lemma register_succeeds_iff_valid req now st :
  (exists message peer network st',
     post_register req now st = (Register200 message peer network, st')) <->
  id_valid (body_id req) = true /\ ip_valid (body_ip req) = true /\
  port_valid (body_port req) = true.
Proof.
  split.
  - intros (m & p & n & st' & H). unfold post_register, register_try in H.
    destruct (validatePeerData _ _ _) as [errs|] eqn:Hv; cbn [bind] in H;
      [|discriminate].
    destruct errs; [|discriminate].
    destruct (validatePeerData_reports _ _ _ _ Hv) as (H1 & H2 & H3).
    cbn [In] in *.
    destruct (id_valid (body_id req)); [|tauto].
    destruct (ip_valid (body_ip req)); [|tauto].
    destruct (port_valid (body_port req)); tauto.
  - intros (Hid & Hip & Hport).
    destruct (register_valid_stores req now st Hid Hip Hport)
      as (id_s & stored & m & p & n & st' & _ & H & _).
    now exists m, p, n, st'.
Qed.

Lemma register_failure_keeps_registry req now st :
  (forall message peer network,
     fst (post_register req now st) <> Register200 message peer network) ->
  peers (snd (post_register req now st)) = peers st.
Proof.
  unfold post_register, register_try.
  destruct (validatePeerData _ _ _) as [errs|]; cbn [bind]; [|reflexivity].
  destruct errs; [|reflexivity].
  destruct (body_id req); try reflexivity.
  destruct (body_ip req); try reflexivity.
  destruct (parseInt (body_port req)); cbn [bind]; [|reflexivity].
  intros H. exfalso. eapply H. reflexivity.
Qed.

Lemma register_400_lists_violations req now st error_text details st' :
  post_register req now st = (Register400 error_text details, st') ->
  st' = st /\ details <> [] /\
  (In "Invalid peer ID" details <-> id_valid (body_id req) = false) /\
  (In "Invalid IP address" details \/ In "Invalid IP address format" details
   <-> ip_valid (body_ip req) = false) /\
  (In "Invalid port number" details <-> port_valid (body_port req) = false).
Proof.
  unfold post_register, register_try. intros H.
  destruct (validatePeerData _ _ _) as [errs|] eqn:Hv; cbn [bind] in H;
    [|discriminate].
  destruct errs as [|e errs].
  - exfalso. destruct (body_id req); try discriminate.
    destruct (body_ip req); try discriminate.
    destruct (parseInt (body_port req)); cbn [bind] in H; discriminate.
  - injection H as _ <- <-. split; [reflexivity|]. split; [discriminate|].
    now apply validatePeerData_reports.
Qed.

(** Registrations of distinct new ids, handled one after the other, all
    succeed and each adds one record. *)
Lemma register_all_size reqs now : forall st,
  Forall (fun r => request_valid r = true) reqs ->
  List.NoDup (List.map body_id reqs) ->
  Forall (fun r => forall s, body_id r = JsString s ->
                             map_get s (peers st) = None) reqs ->
  map_size (peers (register_all reqs now st)) =
  map_size (peers st) + Z.of_nat (List.length reqs).
Proof.
  unfold register_all.
  induction reqs as [|r reqs IH]; intros st Hvalid Hnd Hnew;
    cbn [fold_left List.length].
  - lia.
  - inversion Hvalid as [|? ? Hr Hvalid']; subst.
    inversion Hnd as [|? ? Hnotin Hnd']; subst.
    inversion Hnew as [|? ? Hrnew Hnew']; subst.
    unfold request_valid in Hr.
    apply andb_true_iff in Hr as [Hr Hport].
    apply andb_true_iff in Hr as [Hid Hip].
    destruct (register_valid_stores r now st Hid Hip Hport)
      as (id_s & stored & m & p & n & st' & Hbody & Hrun & Hpeers).
    rewrite Hrun. cbn [snd]. rewrite IH; auto.
    + rewrite Hpeers, map_set_size_new by auto. lia.
    + rewrite Hpeers. apply List.Forall_forall. intros r' Hin s Hs.
      rewrite map_get_set_ne.
      * rewrite List.Forall_forall in Hnew'. exact (Hnew' r' Hin s Hs).
      * intros ->. apply Hnotin. apply List.in_map_iff. exists r'.
        split; [congruence|exact Hin].
Qed.

(** ** The sweep *)

Lemma cleanup_loop_peers now k entries : forall st n,
  map_get k (peers (fst (cleanup_loop now entries st n))) =
  if stale_key now k entries then None else map_get k (peers st).
Proof.
  induction entries as [|[k0 p0] rest IH]; intros st n; simpl; auto.
  destruct (is_stale now p0) eqn:Hs; rewrite IH; cbn [peers logger set_peers].
  - destruct (String.eqb_spec k0 k) as [->|Hk]; simpl.
    + rewrite map_get_delete_eq. now destruct (stale_key now k rest).
    + now rewrite map_get_delete_ne.
  - now rewrite andb_false_r.
Qed.

Lemma stale_key_absent now k (m : JsMap Peer) :
  ~ In k (List.map fst m) -> stale_key now k m = false.
Proof.
  induction m as [|[k0 p0] m IH]; simpl; auto.
  intros H. destruct (String.eqb_spec k0 k) as [->|Hk]; [tauto|].
  simpl. apply IH. tauto.
Qed.

Lemma stale_key_wf now k (m : JsMap Peer) :
  map_wf m ->
  stale_key now k m =
  match map_get k m with Some p => is_stale now p | None => false end.
Proof.
  unfold map_wf. induction m as [|[k0 p0] m IH]; simpl; auto.
  intros Hnd. inversion Hnd as [|? ? Hnot Hnd']; subst.
  destruct (String.eqb_spec k0 k) as [->|Hk]; simpl; auto.
  rewrite stale_key_absent; auto. apply orb_false_r.
Qed.

Lemma cleanup_peers now st :
  peers (cleanupInactivePeers now st) =
  peers (fst (cleanup_loop now (peers st) st 0)).
Proof.
  unfold cleanupInactivePeers.
  destruct (cleanup_loop now (peers st) st 0) as [st' n].
  now destruct (n >? 0).
Qed.

Lemma cleanup_get now st k :
  map_wf (peers st) ->
  map_get k (peers (cleanupInactivePeers now st)) =
  match map_get k (peers st) with
  | Some p => if is_stale now p then None else Some p
  | None => None
  end.
Proof.
  intros Hwf. rewrite cleanup_peers, cleanup_loop_peers, stale_key_wf; auto.
  now destruct (map_get k (peers st)).
Qed.

Lemma is_active_spec now p :
  is_active now p = true <-> now - lastSeen p < 2 * 60 * 1000.
Proof. unfold is_active, activeThreshold. rewrite Z.ltb_lt. lia. Qed.

Lemma is_stale_spec now p :
  is_stale now p = true <-> now - lastSeen p > 5 * 60 * 1000.
Proof.
  unfold is_stale, inactiveThreshold. rewrite Z.gtb_gt. lia.
Qed.


(** Key uniqueness is kept by the sweep and by every handler that
    writes. *)
Lemma cleanup_loop_wf now entries : forall st n,
  map_wf (peers st) -> map_wf (peers (fst (cleanup_loop now entries st n))).
Proof.
  induction entries as [|[k0 p0] rest IH]; intros st n Hwf; simpl; auto.
  destruct (is_stale now p0); apply IH; auto.
  cbn [peers logger set_peers]. now apply map_delete_wf.
Qed.

Lemma cleanup_wf now st :
  map_wf (peers st) -> map_wf (peers (cleanupInactivePeers now st)).
Proof. intros Hwf. rewrite cleanup_peers. now apply cleanup_loop_wf. Qed.

Lemma post_register_wf req now st :
  map_wf (peers st) -> map_wf (peers (snd (post_register req now st))).
Proof.
  intros Hwf. unfold post_register, register_try.
  destruct (validatePeerData _ _ _) as [errs|]; cbn [bind]; auto.
  destruct errs; auto.
  destruct (body_id req); auto. destruct (body_ip req); auto.
  destruct (parseInt (body_port req)); cbn [bind]; auto.
  cbn [snd peers logger count_registration set_peers]. now apply map_set_wf.
Qed.

Lemma post_heartbeat_wf id now st :
  map_wf (peers st) -> map_wf (peers (snd (post_heartbeat id now st))).
Proof.
  intros Hwf. unfold post_heartbeat. destruct (map_get id (peers st)); auto.
  cbn [snd peers set_peers]. now apply map_set_wf.
Qed.

Lemma delete_peer_wf id st :
  map_wf (peers st) -> map_wf (peers (snd (delete_peer id st))).
Proof.
  intros Hwf. unfold delete_peer. destruct (map_has id (peers st)); auto.
  cbn [negb]. destruct (map_get id (peers st)); auto.
  cbn [snd peers logger set_peers]. now apply map_delete_wf.
Qed.

(** ** Listing *)

Lemma sort_peers_perm l : Permutation l (sort_peers l).
Proof. apply (sort_perm lastSeen). Qed.

Lemma peers_try_ok q now st data :
  peers_try q now st = Ok data ->
  exists lim off,
    query_limit q = Ok lim /\ query_offset q = Ok off /\
    let sorted := sort_peers (filter_peers q now (map_values (peers st))) in
    data =
    {| r_peers := List.map public_view (slice sorted off (off + lim));
       r_pagination :=
         {| total := Z.of_nat (List.length sorted);
            limit := lim; offset := off;
            hasMore := off + lim <? Z.of_nat (List.length sorted) |};
       r_filters := {| f_activeOnly := query_activeOnly q;
                       f_capability := q_capability q;
                       f_version := q_version q |} |}.
Proof.
  unfold peers_try. intros H.
  destruct (query_limit q) as [lim|]; cbn [bind] in H; [|discriminate].
  destruct (query_offset q) as [off|]; cbn [bind] in H; [|discriminate].
  injection H as <-. now exists lim, off.
Qed.

Lemma get_peers_200 q now st data st' :
  get_peers q now st = (Peers200 data, st') ->
  peers_try q now st = Ok data /\ st' = st.
Proof.
  unfold get_peers. destruct (peers_try q now st); intros H.
  - now injection H as -> ->.
  - discriminate.
Qed.

(** The listing answers 200 whenever [limit] and [offset] can be printed,
    as every string and every absent parameter can. *)
Lemma get_peers_printable q now st :
  (exists s, ToString (q_limit q) = Ok s) ->
  (exists s, ToString (q_offset q) = Ok s) ->
  exists data, get_peers q now st = (Peers200 data, st).
Proof.
  intros [s1 H1] [s2 H2].
  unfold get_peers, peers_try, query_limit, query_offset, parseInt.
  rewrite H1, H2. cbn [bind]. eexists. reflexivity.
Qed.

Lemma filter_peers_unfiltered q now l :
  query_activeOnly q = false ->
  ToBoolean (q_capability q) = false ->
  ToBoolean (q_version q) = false ->
  filter_peers q now l = l.
Proof. unfold filter_peers. now intros -> -> ->. Qed.

Lemma peers_page_unfiltered q now st lim off n b :
  query_limit q = Ok lim -> query_offset q = Ok off ->
  query_activeOnly q = false ->
  ToBoolean (q_capability q) = false ->
  ToBoolean (q_version q) = false ->
  0 <= off -> 0 <= lim ->
  Z.of_nat n = Z.max 0 (Z.min (off + lim) (map_size (peers st)) - off) ->
  b = (off + lim <? map_size (peers st)) ->
  exists data,
    get_peers q now st = (Peers200 data, st) /\
    List.length (r_peers data) = n /\
    hasMore (r_pagination data) = b.
Proof.
  intros Hlim Hoff H1 H2 H3 Ho Hl Hn ->.
  assert (Hlen : List.length
            (sort_peers (filter_peers q now (map_values (peers st))))
          = List.length (peers st)).
  { rewrite filter_peers_unfiltered by assumption.
    rewrite <- (Permutation_length (sort_peers_perm _)).
    unfold map_values. now rewrite length_map. }
  unfold get_peers, peers_try. rewrite Hlim, Hoff. cbn [bind].
  eexists. split; [reflexivity|].
  cbn [r_peers r_pagination hasMore]. rewrite Hlen. split; [|reflexivity].
  rewrite length_map. apply Nat2Z.inj. rewrite slice_length by lia.
  rewrite Hlen. unfold map_size in Hn. lia.
Qed.


(** ** Requester metadata *)

Lemma map_get_redact k m :
  map_get k (redact_map m) = option_map redact (map_get k m).
Proof.
  induction m as [|[k' p] m IH]; simpl; auto.
  now destruct (String.eqb k' k).
Qed.

Lemma map_set_redact k p m :
  redact_map (map_set k p m) = map_set k (redact p) (redact_map m).
Proof.
  induction m as [|[k' p'] m IH]; simpl; auto.
  destruct (String.eqb k' k); simpl; now rewrite ?IH.
Qed.

Lemma map_values_redact m :
  map_values (redact_map m) = List.map redact (map_values m).
Proof.
  unfold map_values, redact_map. rewrite !map_map. reflexivity.
Qed.

Lemma map_size_redact m : map_size (redact_map m) = map_size m.
Proof. unfold map_size, redact_map. now rewrite length_map. Qed.

Lemma filter_map_redact (f : Peer -> bool) l :
  (forall p, f (redact p) = f p) ->
  List.filter f (List.map redact l) = List.map redact (List.filter f l).
Proof.
  intros Hf. induction l as [|p l IH]; simpl; auto.
  rewrite Hf. destruct (f p); simpl; now rewrite IH.
Qed.

Lemma filter_peers_redact q now l :
  filter_peers q now (List.map redact l) =
  List.map redact (filter_peers q now l).
Proof.
  unfold filter_peers.
  destruct (query_activeOnly q), (ToBoolean (q_capability q)),
    (ToBoolean (q_version q));
    rewrite ?filter_map_redact; auto.
Qed.

Lemma sort_insert_redact p l :
  sort_insert by_lastSeen_desc (redact p) (List.map redact l) =
  List.map redact (sort_insert by_lastSeen_desc p l).
Proof.
  induction l as [|y l IH]; simpl; auto.
  change (by_lastSeen_desc (redact p) (redact y))
    with (by_lastSeen_desc p y).
  destruct (by_lastSeen_desc p y <=? 0); simpl; now rewrite ?IH.
Qed.

Lemma sort_peers_redact l :
  sort_peers (List.map redact l) = List.map redact (sort_peers l).
Proof.
  unfold sort_peers. induction l as [|p l IH]; simpl; auto.
  now rewrite IH, sort_insert_redact.
Qed.

Lemma public_view_redact l :
  List.map public_view (List.map redact l) = List.map public_view l.
Proof. rewrite map_map. reflexivity. Qed.

Lemma peers_try_redact q now st :
  peers_try q now st =
  peers_try q now (mkState (redact_map (peers st)) (serverStats st) (logs st)).
Proof.
  unfold peers_try. cbn [peers].
  destruct (query_limit q); cbn [bind]; auto.
  destruct (query_offset q); cbn [bind]; auto.
  rewrite map_values_redact, filter_peers_redact, sort_peers_redact.
  rewrite <- slice_map, public_view_redact, length_map. reflexivity.
Qed.

Lemma peers_try_depends_on_peers q now st st' :
  peers st = peers st' -> peers_try q now st = peers_try q now st'.
Proof. unfold peers_try. now intros ->. Qed.

Lemma active_count_redact now m :
  List.length (List.filter (is_active now) (map_values m)) =
  List.length (List.filter (is_active now) (map_values (redact_map m))).
Proof.
  rewrite map_values_redact, filter_map_redact by reflexivity.
  now rewrite length_map.
Qed.

Lemma same_public_get st1 st2 k :
  same_public st1 st2 ->
  option_map redact (map_get k (peers st1)) =
  option_map redact (map_get k (peers st2)).
Proof. unfold same_public. intros H. now rewrite <- !map_get_redact, H. Qed.


End RegistryFacts.

(* ===================================================================== *)
(** * Properties of the registry                                         *)
(* ===================================================================== *)

Module RegistryProofs.
Import Js Registry RegistrySpec JsFacts RegistryFacts.

(** C1.  Every successful [POST /register] upserts: when a record for the id
    exists, the stored record keeps the original [registeredAt] and its
    [connectionCount] grows by exactly 1; when none exists, a fresh record is
    stored with [connectionCount = 1] (and [registeredAt = now]).  In both
    cases [lastSeen] and [updatedAt] are the same current time, and no other
    record changes. *)
Theorem register_upsert req now st message peer network st' :
  post_register req now st = (Register200 message peer network, st') ->
  exists id_s stored,
    body_id req = JsString id_s /\
    map_get id_s (peers st') = Some stored /\
    lastSeen stored = now /\ updatedAt stored = now /\
    match map_get id_s (peers st) with
    | Some existing =>
        registeredAt stored = registeredAt existing /\
        connectionCount stored = connectionCount existing + 1
    | None =>
        registeredAt stored = now /\ connectionCount stored = 1
    end /\
    forall other, other <> id_s ->
      map_get other (peers st') = map_get other (peers st).
Proof.
  unfold post_register, register_try. intros H.
  destruct (validatePeerData _ _ _) as [errs|] eqn:Hv; cbn [bind] in H;
    [|discriminate].
  destruct errs; [|discriminate].
  destruct (validatePeerData_ok_strings _ _ _ Hv) as [[id_s Hid] [ip_s Hip]].
  rewrite Hid, Hip in H.
  destruct (parseInt (body_port req)) as [portNum|]; cbn [bind] in H;
    [|discriminate].
  injection H as _ _ _ <-. cbn [peers logger count_registration set_peers].
  eexists id_s, _. split; [exact Hid|]. split; [apply map_get_set_eq|].
  cbn [lastSeen updatedAt registeredAt connectionCount].
  repeat split.
  - destruct (map_get id_s (peers st)); split; auto.
    unfold or_zero. destruct (Z.eqb_spec (connectionCount p) 0); lia.
  - intros other Hne. apply map_get_set_ne. congruence.
Qed.

Lemma register_upsert_witness :
  exists message peer network st',
    post_register sample_request 2000 registered_once
    = (Register200 message peer network, st') /\
    exists stored,
      map_get "test_peer_123" (peers st') = Some stored /\
      registeredAt stored = 1000 /\ connectionCount stored = 2 /\
      lastSeen stored = 2000 /\ updatedAt stored = 2000.
Proof.
  eexists _, _, _, _. split; [vm_compute; reflexivity|].
  edestruct (register_upsert sample_request 2000 registered_once)
    as (id_s & stored & Hid & Hget & Hseen & Hupd & Hold & _);
    [vm_compute; reflexivity|].
  injection Hid as <-. exists stored.
  split; [exact Hget|]. vm_compute in Hold. destruct Hold as [Hreg Hcount].
  repeat split; assumption.
Defined.

(** C2.  For a stored record [p]: it passes the [active=true] filter iff
    [now - lastSeen < 2 min] (strict).  [GET /peers] with [active=true], no
    other filter and printable [limit] and [offset] answers 200; its [total]
    counts exactly the active records, every listed entry is the public view
    of a stored active record, and when the page covers the whole list
    ([offset = 0] and [total <= limit]) the record [p] is listed iff
    [now - lastSeen < 2 min].  The sweep removes [p] iff
    [now - lastSeen > 5 min] (strict), otherwise leaves it as it is, and
    adds nothing.  The two thresholds are different constants: a record seen
    3 minutes ago is left out of the active listing and kept by the sweep,
    one seen 5 min 1 s ago is removed, one seen 4 min 59 s ago is kept. *)
Theorem active_window_and_sweep_threshold now st k p :
  map_wf (peers st) ->
  map_get k (peers st) = Some p ->
  let swept := peers (cleanupInactivePeers now st) in
  (forall q,
     q_active q = JsString "true" ->
     ToBoolean (q_capability q) = false ->
     ToBoolean (q_version q) = false ->
     (In p (filter_peers q now (map_values (peers st))) <->
      now - lastSeen p < 2 * 60 * 1000)) /\
  (forall q data st',
     q_active q = JsString "true" ->
     ToBoolean (q_capability q) = false ->
     ToBoolean (q_version q) = false ->
     get_peers q now st = (Peers200 data, st') ->
     total (r_pagination data) =
       Z.of_nat (List.length
                   (List.filter (is_active now) (map_values (peers st)))) /\
     forall e, In e (r_peers data) ->
               now - pp_lastSeen e < 2 * 60 * 1000) /\
  (forall q,
     q_active q = JsString "true" ->
     ToBoolean (q_capability q) = false ->
     ToBoolean (q_version q) = false ->
     (exists s, ToString (q_limit q) = Ok s) ->
     (exists s, ToString (q_offset q) = Ok s) ->
     exists data,
       get_peers q now st = (Peers200 data, st) /\
       total (r_pagination data) =
         Z.of_nat (List.length
                     (List.filter (fun r => now - lastSeen r <? 2 * 60 * 1000)
                                  (List.map snd (peers st)))) /\
       (forall e, In e (r_peers data) ->
          exists k' p', map_get k' (peers st) = Some p' /\
                        e = public_view p' /\
                        now - lastSeen p' < 2 * 60 * 1000) /\
       (offset (r_pagination data) = 0 ->
        total (r_pagination data) <= limit (r_pagination data) ->
        (In (public_view p) (r_peers data) <->
         now - lastSeen p < 2 * 60 * 1000))) /\
  (map_get k swept = None <-> now - lastSeen p > 5 * 60 * 1000) /\
  (map_get k swept = Some p <-> now - lastSeen p <= 5 * 60 * 1000) /\
  (forall other, map_get other (peers st) = None ->
                 map_get other swept = None) /\
  activeThreshold = 120000 /\ inactiveThreshold = 300000 /\
  (now - lastSeen p = 3 * 60 * 1000 ->
   ~ In p (filter_peers active_query now (map_values (peers st))) /\
   map_get k swept = Some p) /\
  (now - lastSeen p = 5 * 60 * 1000 + 1000 -> map_get k swept = None) /\
  (now - lastSeen p = 4 * 60 * 1000 + 59 * 1000 -> map_get k swept = Some p).
Proof.
  intros Hwf Hget swept.
  assert (Hlist : forall q,
     q_active q = JsString "true" ->
     ToBoolean (q_capability q) = false ->
     ToBoolean (q_version q) = false ->
     (In p (filter_peers q now (map_values (peers st))) <->
      now - lastSeen p < 2 * 60 * 1000)).
  { intros q Ha Hc Hv. unfold filter_peers, query_activeOnly.
    rewrite Ha, Hc, Hv. cbn [strict_eq].
    change (String.eqb "true" "true") with true. cbv iota.
    rewrite filter_In, is_active_spec.
    pose proof (map_get_values _ _ _ Hget). tauto. }
  assert (Hswept : map_get k swept =
                   if is_stale now p then None else Some p).
  { subst swept. now rewrite cleanup_get, Hget. }
  assert (Hnone : map_get k swept = None <->
                  now - lastSeen p > 5 * 60 * 1000).
  { rewrite Hswept, <- is_stale_spec.
    destruct (is_stale now p); split; congruence. }
  assert (Hsome : map_get k swept = Some p <->
                  now - lastSeen p <= 5 * 60 * 1000).
  { rewrite Hswept.
    destruct (is_stale now p) eqn:Hs.
    - apply is_stale_spec in Hs. split; [discriminate|lia].
    - split; auto. intros _.
      destruct (Z.le_gt_cases (now - lastSeen p) (5 * 60 * 1000)); auto.
      assert (is_stale now p = true) by (apply is_stale_spec; lia).
      congruence. }
  assert (Hfilter : forall q,
     q_active q = JsString "true" ->
     ToBoolean (q_capability q) = false ->
     ToBoolean (q_version q) = false ->
     filter_peers q now (map_values (peers st)) =
     List.filter (is_active now) (map_values (peers st))).
  { intros q Ha Hc Hv. unfold filter_peers, query_activeOnly.
    rewrite Ha, Hc, Hv. reflexivity. }
  split; [exact Hlist|]. split.
  { intros q data st' Ha Hc Hv Hrun.
    apply get_peers_200 in Hrun as [Hrun _].
    apply peers_try_ok in Hrun as (lim & off & _ & _ & ->).
    cbn [r_pagination r_peers total].
    rewrite (Hfilter q Ha Hc Hv). split.
    - f_equal. symmetry. apply Permutation_length, sort_peers_perm.
    - intros e He. apply List.in_map_iff in He as (p' & <- & Hin).
      apply slice_In in Hin.
      apply (Permutation_in _ (Permutation_sym (sort_peers_perm _))) in Hin.
      apply filter_In in Hin as [_ Hactive].
      now apply is_active_spec in Hactive. }
  split.
  { intros q Ha Hc Hv Hlimit Hoffset.
    destruct (get_peers_printable q now st Hlimit Hoffset) as [data Hrun].
    exists data. split; [exact Hrun|].
    apply get_peers_200 in Hrun as [Hrun _].
    apply peers_try_ok in Hrun as (lim & off & _ & _ & ->).
    cbn [r_pagination r_peers total limit offset].
    rewrite (Hfilter q Ha Hc Hv).
    set (active := List.filter (is_active now) (map_values (peers st))).
    assert (Hlen : List.length (sort_peers active) = List.length active)
      by (symmetry; apply Permutation_length, sort_peers_perm).
    assert (Hin : forall r, In r (sort_peers active) <-> In r active).
    { intros r. split; apply Permutation_in;
        [apply Permutation_sym|]; apply sort_peers_perm. }
    split; [now rewrite Hlen|]. split.
    - intros e He. apply List.in_map_iff in He as (p' & <- & Hp').
      apply slice_In, Hin in Hp'. apply filter_In in Hp' as [Hstored Hact].
      apply List.in_map_iff in Hstored as ([k' p''] & Heq & Hstored).
      cbn [snd] in Heq. subst p''.
      exists k', p'. split; [now apply map_wf_get_In|].
      split; [reflexivity|now apply is_active_spec].
    - intros -> Hcover. rewrite Hlen in Hcover.
      assert (Hall : slice (sort_peers active) 0 (0 + lim) = sort_peers active).
      { unfold slice, slice_index. cbn [Z.ltb Z.compare].
        rewrite Hlen.
        destruct (Z.ltb_spec (0 + lim) 0); [lia|].
        replace (Z.min 0 (Z.of_nat (List.length active))) with 0 by lia.
        replace (Z.min (0 + lim) (Z.of_nat (List.length active)))
          with (Z.of_nat (List.length active)) by lia.
        cbn [Z.to_nat skipn]. rewrite Z.sub_0_r, Z.max_l by lia.
        rewrite Nat2Z.id, <- Hlen. apply firstn_all. }
      rewrite Hall. split.
      + intros He. apply List.in_map_iff in He as (p' & Hview & Hp').
        apply Hin, filter_In in Hp' as [_ Hact].
        apply is_active_spec in Hact.
        assert (Hseen : lastSeen p' = lastSeen p)
          by (change (pp_lastSeen (public_view p')
                      = pp_lastSeen (public_view p)); now rewrite Hview).
        lia.
      + intros Hact. apply List.in_map. apply Hin, filter_In.
        split; [apply (map_get_values k); exact Hget|].
        now apply is_active_spec. }
  split; [exact Hnone|]. split; [exact Hsome|].
  split.
  { intros other Ho. subst swept. now rewrite cleanup_get, Ho. }
  split; [reflexivity|]. split; [reflexivity|].
  split; [|split].
  - intros H3. split; [rewrite (Hlist active_query) by reflexivity|
                       apply Hsome]; lia.
  - intros H5. apply Hnone. lia.
  - intros H4. apply Hsome. lia.
Qed.

Lemma active_window_and_sweep_threshold_witness :
  map_wf (peers aged_state) /\
  map_get "peer_3min_0002" (peers aged_state)
  = Some (sample_peer "peer_3min_0002" "curl" 820000) /\
  (exists data,
     get_peers active_query sample_now aged_state
     = (Peers200 data, aged_state) /\
     r_peers data =
       [{| pp_id := "peer_fresh_0001"; pp_ip := "192.168.1.100";
           pp_port := Some 8080; pp_name := JsString "Test Node";
           pp_version := JsString "1.0.0";
           pp_capabilities := [JsString "websocket"; JsString "webrtc"];
           pp_lastSeen := 990000; pp_registeredAt := 1000;
           pp_connectionCount := 1 |}] /\
     total (r_pagination data) = 1 /\
     ~ In (public_view (sample_peer "peer_3min_0002" "curl" 820000))
          (r_peers data)) /\
  ~ In (sample_peer "peer_3min_0002" "curl" 820000)
       (filter_peers active_query sample_now (map_values (peers aged_state)))
  /\
  map_get "peer_3min_0002" (peers (cleanupInactivePeers sample_now aged_state))
  = Some (sample_peer "peer_3min_0002" "curl" 820000).
Proof.
  assert (Hwf : map_wf (peers aged_state)) by literal_wf.
  split; [exact Hwf|]. split; [reflexivity|].
  destruct (active_window_and_sweep_threshold sample_now aged_state
              "peer_3min_0002" _ Hwf eq_refl)
    as (_ & _ & Hhandler & _ & _ & _ & _ & _ & H3 & _).
  split; [|apply H3; reflexivity].
  destruct (Hhandler active_query eq_refl eq_refl eq_refl
              (ex_intro _ "undefined" eq_refl)
              (ex_intro _ "undefined" eq_refl))
    as (data & Hrun & Htotal & _ & Hlisted).
  exists data. split; [exact Hrun|].
  assert (Hdata : Peers200 data
                  = fst (get_peers active_query sample_now aged_state))
    by now rewrite Hrun.
  vm_compute in Hdata. injection Hdata as ->.
  split; [reflexivity|]. split; [reflexivity|].
  intros Hin. apply Hlisted in Hin; [|reflexivity|vm_compute; discriminate].
  vm_compute in Hin. discriminate.
Defined.


(** What every successful [GET /peers] does: it returns the filtered records
    sorted by [lastSeen], newest first, records with equal [lastSeen] in the
    insertion order of the map, cut to [slice(offset, offset + limit)];
    [limit] is 50 when absent and never above 100, [offset] is 0 when
    absent, [total] is the number of filtered records before the cut, and
    [hasMore] is [offset + limit < total].  With 120 peers,
    [limit=50&offset=100] returns 20 records and [hasMore = false];
    [limit=50&offset=0] returns 50 records and [hasMore = true].  The number
    [limit] is at most 100, but it bounds the page only when it is
    positive. *)
Theorem list_sorted_and_paginated :
  (forall q now st data st',
     get_peers q now st = (Peers200 data, st') ->
     let filtered := filter_peers q now (map_values (peers st)) in
     let page := r_pagination data in
     (exists sorted,
        Permutation filtered sorted /\
        StronglySorted (fun a b => lastSeen a >= lastSeen b) sorted /\
        (forall t,
           List.filter (fun p => lastSeen p =? t) sorted =
           List.filter (fun p => lastSeen p =? t) filtered) /\
        r_peers data =
        List.map public_view
          (slice sorted (offset page) (offset page + limit page))) /\
     total page = Z.of_nat (List.length filtered) /\
     hasMore page = (offset page + limit page <? total page) /\
     limit page <= 100 /\
     (q_limit q = JsUndefined -> limit page = 50) /\
     (q_offset q = JsUndefined -> offset page = 0) /\
     (forall n, parseInt (q_limit q) = Ok (Some n) -> n <> 0 ->
                limit page = Z.min n 100) /\
     (forall n, parseInt (q_offset q) = Ok (Some n) -> offset page = n)) /\
  (forall now st,
     List.length (peers st) = 120%nat ->
     (exists data,
        get_peers (page_query "50" "100") now st = (Peers200 data, st) /\
        List.length (r_peers data) = 20%nat /\
        hasMore (r_pagination data) = false) /\
     (exists data,
        get_peers (page_query "50" "0") now st = (Peers200 data, st) /\
        List.length (r_peers data) = 50%nat /\
        hasMore (r_pagination data) = true)).
Proof.
  split.
  - intros q now st data st' H filtered page.
    apply get_peers_200 in H as [H _].
    apply peers_try_ok in H as (lim & off & Hlim & Hoff & Hdata).
    subst page. rewrite Hdata. cbn [r_pagination r_peers total limit offset hasMore].
    fold filtered. split; [|split; [|split; [|split; [|split; [|split; [|split]]]]]].
    + exists (sort_peers filtered). repeat split.
      * apply sort_peers_perm.
      * apply (sort_sorted lastSeen).
      * intros t. apply (sort_stable lastSeen).
    + f_equal. symmetry. apply Permutation_length, sort_peers_perm.
    + reflexivity.
    + unfold query_limit in Hlim.
      destruct (parseInt (q_limit q)); cbn [bind] in Hlim; [|discriminate].
      injection Hlim as <-. apply Z.le_min_r.
    + intros Hq. unfold query_limit in Hlim. rewrite Hq in Hlim.
      vm_compute in Hlim. now injection Hlim as <-.
    + intros Hq. unfold query_offset in Hoff. rewrite Hq in Hoff.
      vm_compute in Hoff. now injection Hoff as <-.
    + intros n Hn Hnz. unfold query_limit in Hlim. rewrite Hn in Hlim.
      cbn [bind] in Hlim. injection Hlim as <-. unfold or_default.
      now destruct (Z.eqb_spec n 0).
    + intros n Hn. unfold query_offset in Hoff. rewrite Hn in Hoff.
      cbn [bind] in Hoff. injection Hoff as <-. unfold or_default.
      destruct (Z.eqb_spec n 0); congruence.
  - intros now st Hlen.
    split.
    + apply (peers_page_unfiltered _ now st 50 100 20%nat false);
        try reflexivity; try lia; unfold map_size; rewrite Hlen; reflexivity.
    + apply (peers_page_unfiltered _ now st 50 0 50%nat true);
        try reflexivity; try lia; unfold map_size; rewrite Hlen; reflexivity.
Qed.

Lemma list_sorted_and_paginated_witness :
  List.length (peers (crowd 120)) = 120%nat /\
  (exists data,
     get_peers (page_query "50" "100") 0 (crowd 120)
     = (Peers200 data, crowd 120) /\
     List.length (r_peers data) = 20%nat /\
     hasMore (r_pagination data) = false) /\
  exists data,
    get_peers active_query sample_now aged_state = (Peers200 data, aged_state)
    /\ total (r_pagination data) = 1 /\ limit (r_pagination data) = 50
    /\ offset (r_pagination data) = 0.
Proof.
  split; [reflexivity|]. split.
  - apply (proj2 list_sorted_and_paginated 0 (crowd 120) eq_refl).
  - eexists. split; [reflexivity|].
    destruct (proj1 list_sorted_and_paginated active_query sample_now
                aged_state _ _ eq_refl)
      as (_ & Htotal & _ & _ & Hlimit & Hoffset & _).
    split; [exact Htotal|]. split; [now apply Hlimit|now apply Hoffset].
Defined.

(** C3.  The cap of 100 records does not hold for a negative [limit].
    [parseInt("-5")] is truthy, so it is not replaced by the default 50, and
    [Math.min(-5, 100)] keeps it; the page is then [slice(0, -5)], all but
    the last five records.  On a registry of 120 peers
    [GET /peers?limit=-5] answers 200 with [limit = -5], [total = 120] and
    115 records. *)
Theorem list_negative_limit_exceeds_cap :
  exists data,
    get_peers negative_limit_query 6000 (crowd 120)
      = (Peers200 data, crowd 120) /\
    limit (r_pagination data) = - 5 /\
    offset (r_pagination data) = 0 /\
    total (r_pagination data) = 120 /\
    hasMore (r_pagination data) = true /\
    List.length (r_peers data) = 115%nat /\
    100 < Z.of_nat (List.length (r_peers data)).
Proof.
  eexists. split; [vm_compute; reflexivity|].
  cbn [r_pagination limit offset total hasMore r_peers].
  repeat split.
Qed.

(** C4.  The body [{id: "short", ip: 42, port: 8080}] violates the id
    constraint and the ip constraint, and a validation failure listing both
    is what the handler is meant to answer.  It does not: the format check of
    [validatePeerData] calls [includes] on the number and throws, so the
    handler's [catch] answers 500 "Internal server error" with no list of
    violations (the registry is not touched). *)
Theorem register_numeric_ip_internal_error now st :
  id_valid (body_id numeric_ip_request) = false /\
  ip_valid (body_ip numeric_ip_request) = false /\
  validatePeerData (body_id numeric_ip_request) (body_ip numeric_ip_request)
                   (body_port numeric_ip_request)
  = Throw "TypeError: data.ip.includes is not a function" /\
  post_register numeric_ip_request now st =
  (Register500 "Internal server error",
   logger error "Registration error:" (count_error st)).
Proof. repeat split. Qed.



(** C8.  For an id with no record, [GET /peers/:id], the heartbeat and
    [DELETE /peers/:id] each answer 404 "Peer not found" and leave the state
    as it is.  For an id with a record, the heartbeat sets that record's
    [lastSeen] to the current time, returns it, and touches no other
    record. *)
Theorem unknown_id_not_found_and_heartbeat :
  (forall id now st,
     map_get id (peers st) = None ->
     get_peer id st = (Peer404 "Peer not found", st) /\
     post_heartbeat id now st = (Heartbeat404 "Peer not found", st) /\
     delete_peer id st = (Delete404 "Peer not found", st)) /\
  (forall id now st p,
     map_get id (peers st) = Some p ->
     exists st',
       post_heartbeat id now st =
         (Heartbeat200 "Heartbeat received" now, st') /\
       map_get id (peers st') = Some (set_lastSeen p now) /\
       lastSeen (set_lastSeen p now) = now /\
       (forall other, other <> id ->
          map_get other (peers st') = map_get other (peers st))).
Proof.
  split.
  - intros k now st H. unfold get_peer, post_heartbeat, delete_peer, map_has.
    now rewrite H.
  - intros k now st p H. unfold post_heartbeat. rewrite H.
    eexists. split; [reflexivity|]. cbn [peers set_peers].
    split; [apply map_get_set_eq|]. split; [reflexivity|].
    intros other Hne. apply map_get_set_ne. congruence.
Qed.

Lemma unknown_id_not_found_and_heartbeat_witness :
  map_get "peer_unknown_99" (peers aged_state) = None /\
  (get_peer "peer_unknown_99" aged_state
   = (Peer404 "Peer not found", aged_state) /\
   post_heartbeat "peer_unknown_99" sample_now aged_state
   = (Heartbeat404 "Peer not found", aged_state) /\
   delete_peer "peer_unknown_99" aged_state
   = (Delete404 "Peer not found", aged_state)) /\
  map_get "peer_3min_0002" (peers aged_state)
  = Some (sample_peer "peer_3min_0002" "curl" 820000) /\
  exists st',
    post_heartbeat "peer_3min_0002" sample_now aged_state
    = (Heartbeat200 "Heartbeat received" sample_now, st') /\
    map_get "peer_3min_0002" (peers st')
    = Some (set_lastSeen (sample_peer "peer_3min_0002" "curl" 820000)
                         sample_now).
Proof.
  split; [reflexivity|]. split.
  - apply (proj1 unknown_id_not_found_and_heartbeat "peer_unknown_99"
             sample_now aged_state eq_refl).
  - split; [reflexivity|].
    destruct (proj2 unknown_id_not_found_and_heartbeat "peer_3min_0002"
                sample_now aged_state _ eq_refl)
      as (st' & Hrun & Hget & _).
    exists st'. split; assumption.
Defined.


(** C10.  The stored [userAgent] and [ipAddress] never reach a response: the
    response types of [POST /register], [GET /peers] and [GET /peers/:id] have
    no such fields, and on two states whose records differ at most in these
    two fields the three routes answer identically (registration also leaves
    the two states so related). *)
Theorem responses_hide_request_metadata st1 st2 :
  same_public st1 st2 ->
  (forall req now,
     fst (post_register req now st1) = fst (post_register req now st2) /\
     same_public (snd (post_register req now st1))
                 (snd (post_register req now st2))) /\
  (forall q now, fst (get_peers q now st1) = fst (get_peers q now st2)) /\
  (forall id, fst (get_peer id st1) = fst (get_peer id st2)).
Proof.
  intros Hsame. split; [|split].
  - intros req now. unfold post_register, register_try.
    destruct (validatePeerData _ _ _) as [errs|]; cbn [bind]; [|now split].
    destruct errs; [|now split].
    destruct (body_id req); try now split.
    destruct (body_ip req); try now split.
    destruct (parseInt (body_port req)); cbn [bind]; [|now split].
    pose proof (same_public_get st1 st2 s Hsame) as Hget.
    unfold same_public in *.
    cbn [fst snd peers logger count_registration set_peers].
    destruct (map_get s (peers st1)) as [e1|], (map_get s (peers st2)) as [e2|];
      try discriminate; cbn [option_map] in Hget.
    + injection Hget as H1 H2 H3 H4 H5 H6 H7 H8 H9 H10.
      rewrite H8, H10.
      split; [|now rewrite !map_set_redact, Hsame].
      f_equal. f_equal.
      * now rewrite <- (map_size_redact (map_set _ _ (peers st1))),
          <- (map_size_redact (map_set _ _ (peers st2))),
          !map_set_redact, Hsame.
      * f_equal.
        rewrite (active_count_redact now (map_set _ _ (peers st1))),
          (active_count_redact now (map_set _ _ (peers st2))).
        now rewrite !map_set_redact, Hsame.
    + split; [|now rewrite !map_set_redact, Hsame].
      f_equal. f_equal.
      * now rewrite <- (map_size_redact (map_set _ _ (peers st1))),
          <- (map_size_redact (map_set _ _ (peers st2))),
          !map_set_redact, Hsame.
      * f_equal.
        rewrite (active_count_redact now (map_set _ _ (peers st1))),
          (active_count_redact now (map_set _ _ (peers st2))).
        now rewrite !map_set_redact, Hsame.
  - intros q now. unfold get_peers.
    rewrite (peers_try_redact q now st1), (peers_try_redact q now st2).
    unfold same_public in Hsame. rewrite Hsame.
    rewrite (peers_try_depends_on_peers q now _
               (mkState (redact_map (peers st2)) (serverStats st2) (logs st2)))
      by reflexivity.
    now destruct (peers_try _ _ _).
  - intros k. unfold get_peer.
    pose proof (same_public_get st1 st2 k Hsame) as Hget.
    destruct (map_get k (peers st1)) as [e1|], (map_get k (peers st2)) as [e2|];
      try discriminate; cbn [option_map fst] in *; auto.
    injection Hget as H1 H2 H3 H4 H5 H6 H7 H8 H9 H10.
    unfold public_view. congruence.
Qed.

Lemma responses_hide_request_metadata_witness :
  same_public aged_state aged_state_other_agent /\
  fst (post_register sample_request 2000 aged_state)
  = fst (post_register sample_request 2000 aged_state_other_agent) /\
  fst (get_peers active_query sample_now aged_state)
  = fst (get_peers active_query sample_now aged_state_other_agent) /\
  fst (get_peer "peer_3min_0002" aged_state)
  = fst (get_peer "peer_3min_0002" aged_state_other_agent).
Proof.
  assert (Hsame : same_public aged_state aged_state_other_agent)
    by reflexivity.
  split; [exact Hsame|].
  destruct (responses_hide_request_metadata _ _ Hsame)
    as (Hreg & Hlist & Hget).
  split; [apply Hreg|]. split; [apply Hlist|apply Hget].
Defined.


End RegistryProofs.

(* ===================================================================== *)
(** * Facts about the signaling relay                                    *)
(* ===================================================================== *)

Module SignalingFacts.
Import Js Signaling SignalingSpec.
Local Open Scope nat_scope.

(** ** Logging and sending *)

Lemma log_clients lvl msg st :
  websocketClients (log lvl msg st) = websocketClients st.
Proof. reflexivity. Qed.

Lemma log_connections lvl msg st :
  connections (log lvl msg st) = connections st.
Proof. reflexivity. Qed.

Lemma log_peers lvl msg st :
  Registry.peers (registry (log lvl msg st)) = Registry.peers (registry st).
Proof. reflexivity. Qed.

Lemma log_logs lvl msg st :
  logs_of (log lvl msg st) = (logs_of st ++ [(lvl, msg)])%list.
Proof. reflexivity. Qed.

Lemma ws_send_frame ws frame st :
  let st' := fst (ws_send ws frame st) in
  websocketClients st' = websocketClients st /\
  registry st' = registry st /\
  next_ws st' = next_ws st /\ next_ref st' = next_ref st /\
  exited st' = exited st.
Proof.
  unfold ws_send. destruct (connections st !! ws) as [c|]; simpl; auto.
  destruct (is_open (readyState c)); simpl; auto.
Qed.

Lemma ws_send_open ws frame st :
  socket_open st ws = true ->
  exists st',
    ws_send ws frame st = (st', Ok tt) /\
    outbox st' ws = (outbox st ws ++ [frame])%list /\
    socket_open st' ws = true /\
    (forall other, other <> ws ->
       connections st' !! other = connections st !! other) /\
    websocketClients st' = websocketClients st /\
    registry st' = registry st.
Proof.
  unfold socket_open, ws_send, outbox.
  destruct (connections st !! ws) as [c|] eqn:Hc; [|discriminate].
  intros Hopen. rewrite Hopen. eexists. split; [reflexivity|].
  cbn [connections set_connections]. rewrite lookup_insert_eq.
  cbn [sent readyState]. repeat split; auto.
  intros other Hne. now rewrite lookup_insert_ne.
Qed.

(** ** Relay and the message callback *)

Lemma relay_outcome type payload label data st :
  let st' := caught (relay type payload label data st) in
  let frame := JsObject [("type", JsString type);
                         ("from", field data "from");
                         (payload, field data payload)] in
  let failed :=
    st' = log (fst (delivery_failure (field data "to")))
              (snd (delivery_failure (field data "to"))) st in
  match target_of st (field data "to") with
  | Some target =>
      if socket_open st target then
        exists st1 lvl msg,
          ws_send target frame st = (st1, Ok tt) /\ st' = log lvl msg st1
      else failed
  | None => failed
  end.
Proof.
  cbv zeta. unfold relay, target_of.
  assert (Hdrop :
      caught
        match ToString (field data "to") with
        | Ok to_s =>
            (log Registry.warn
               ("Target peer not found or not connected: " +:+ to_s) st,
             Ok tt)
        | Throw e => (st, Throw e)
        end = log (fst (delivery_failure (field data "to")))
                  (snd (delivery_failure (field data "to"))) st).
  { unfold delivery_failure. now destruct (ToString (field data "to")). }
  destruct (match lookup_key (field data "to") with
            | Some k => websocketClients st !! k
            | None => None
            end) as [target|]; [|exact Hdrop].
  destruct (socket_open st target) eqn:Hopen; [|exact Hdrop].
  destruct (ws_send_open target
              (JsObject [("type", JsString type);
                         ("from", field data "from");
                         (payload, field data payload)]) st Hopen)
    as (st1 & Hsend & _).
  rewrite Hsend. exists st1.
  destruct (ToString (field data "from")), (ToString (field data "to"));
    unfold caught; cbn [fst snd]; eexists _, _; split; reflexivity.
Qed.

Lemma on_message_relay kind data sender st :
  get_prop data "type" = Ok (JsString (relay_type kind)) ->
  on_message sender (Some data) st =
  caught (relay (relay_type kind) (relay_payload kind) (relay_label kind)
                data st).
Proof.
  intros Htype. unfold on_message. rewrite Htype.
  destruct kind; cbn [relay_type relay_payload relay_label strict_eq];
    repeat match goal with
    | |- context [if String.eqb ?a ?b then _ else _] =>
        let v := eval vm_compute in (String.eqb a b) in
        change (String.eqb a b) with v; cbv iota
    end;
    unfold handlePeerOffer, handlePeerAnswer, handleIceCandidate, caught;
    match goal with
    | |- context [relay ?a ?b ?c ?d ?e] =>
        destruct (relay a b c d e) as [s []]; reflexivity
    end.
Qed.

Lemma on_message_caught ws data st :
  on_message ws (Some data) st =
  caught
    match get_prop data "type" with
    | Throw e => (st, Throw e)
    | Ok type =>
        if strict_eq type (JsString "register") then
          handle_register ws data st
        else if strict_eq type (JsString "peer_offer") then
          handlePeerOffer data st
        else if strict_eq type (JsString "peer_answer") then
          handlePeerAnswer data st
        else if strict_eq type (JsString "ice_candidate") then
          handleIceCandidate data st
        else if strict_eq type (JsString "ping") then
          ws_send ws (JsObject [("type", JsString "pong")]) st
        else
          (log Registry.warn "Unknown WebSocket message type" st, Ok tt)
    end.
Proof.
  unfold on_message, caught.
  match goal with
  | |- (let '(_, _) := ?r in _) = _ => now destruct r as [s []]
  end.
Qed.

Lemma caught_clients r :
  websocketClients (caught r) = websocketClients (fst r).
Proof. unfold caught. now destruct (snd r). Qed.

Lemma caught_peers r :
  Registry.peers (registry (caught r)) = Registry.peers (registry (fst r)).
Proof. unfold caught. now destruct (snd r). Qed.

Lemma relay_clients type payload label data st :
  websocketClients (fst (relay type payload label data st)) =
  websocketClients st /\
  Registry.peers (registry (fst (relay type payload label data st))) =
  Registry.peers (registry st).
Proof.
  rewrite <- caught_clients, <- caught_peers.
  pose proof (relay_outcome type payload label data st) as H. cbv zeta in H.
  destruct (target_of st (field data "to")) as [target|];
    [|now rewrite H].
  destruct (socket_open st target) eqn:Hopen; [|now rewrite H].
  destruct H as (st1 & lvl & msg & Hsend & ->).
  pose proof (ws_send_frame target
    (JsObject [("type", JsString type); ("from", field data "from");
               (payload, field data payload)]) st) as Hf.
  cbv zeta in Hf. rewrite Hsend in Hf. cbn [fst] in Hf.
  destruct Hf as (Hc & Hr & _). now rewrite log_clients, log_peers, Hc, Hr.
Qed.

Lemma handle_register_clients ws data st :
  let st' := fst (handle_register ws data st) in
  websocketClients st' =
  <[key_of (next_ref st) (field data "peerId") := ws]> (websocketClients st)
  /\ Registry.peers (registry st') = Registry.peers (registry st).
Proof.
  cbv zeta. unfold handle_register.
  destruct (ToString (field data "peerId")); [|now split].
  match goal with
  | |- context [ws_send ?a ?b ?c] =>
      pose proof (ws_send_frame a b c) as Hf
  end.
  cbv zeta in Hf. destruct Hf as (Hc & Hr & _). rewrite Hc, Hr. now split.
Qed.

Lemma on_message_peers ws parsed st :
  Registry.peers (registry (on_message ws parsed st)) =
  Registry.peers (registry st).
Proof.
  destruct parsed as [data|]; [|reflexivity].
  rewrite on_message_caught, caught_peers.
  destruct (get_prop data "type") as [type|]; [|reflexivity].
  repeat match goal with
  | |- context [if ?b then _ else _] => destruct b
  end;
  try apply relay_clients; try apply handle_register_clients;
  try reflexivity.
  match goal with
  | |- context [ws_send ?a ?b ?c] =>
      pose proof (ws_send_frame a b c) as Hf
  end.
  cbv zeta in Hf. destruct Hf as (_ & Hr & _). now rewrite Hr.
Qed.

Lemma on_message_clients ws parsed st :
  websocketClients (on_message ws parsed st) = websocketClients st \/
  (is_register ws (EMessage ws parsed) = true /\
   exists k,
     websocketClients (on_message ws parsed st) =
     <[k := ws]> (websocketClients st)).
Proof.
  destruct parsed as [data|]; [|now left].
  rewrite on_message_caught, caught_clients. cbn [is_register].
  rewrite Nat.eqb_refl. cbn [andb].
  destruct (get_prop data "type") as [type|]; [|now left].
  destruct (strict_eq type (JsString "register")).
  { right. split; auto. eexists. apply handle_register_clients. }
  left.
  repeat match goal with
  | |- context [if ?b then _ else _] => destruct b
  end;
  try apply relay_clients; try reflexivity.
  match goal with
  | |- context [ws_send ?a ?b ?c] =>
      pose proof (ws_send_frame a b c) as Hf
  end.
  cbv zeta in Hf. now destruct Hf as (Hc & _).
Qed.

(** No socket event writes to the peer registry. *)
Lemma step_peers st ev :
  Registry.peers (registry (step st ev)) = Registry.peers (registry st).
Proof.
  unfold step. destruct (exited st); auto.
  destruct ev as [|w parsed|w|w|w]; auto.
  - destruct (socket_open st w); auto. apply on_message_peers.
  - destruct (socket_open st w); auto. unfold start_closing.
    now destruct (connections st !! w).
  - destruct (socket_closed st w); auto. unfold on_close.
    destruct (connections st !! w) as [c|]; auto.
    destruct (ToBoolean (peerId c)); auto.
    now destruct (ToString (peerId c)).
  - now destruct (socket_closed st w).
Qed.

Lemma run_peers evs : forall st,
  Registry.peers (registry (run evs st)) = Registry.peers (registry st).
Proof.
  unfold run. induction evs as [|ev evs IH]; intros st; cbn [fold_left]; auto.
  now rewrite IH, step_peers.
Qed.

(** ** Sockets bound in the directory *)

Lemma bound_insert (m : gmap JsKey nat) k w ws :
  size (filter (fun kv : JsKey * nat => kv.2 = ws) (<[k := w]> m)) <=
  size (filter (fun kv : JsKey * nat => kv.2 = ws) m) +
  (if Nat.eqb w ws then 1 else 0).
Proof.
  destruct (Nat.eqb_spec w ws) as [->|Hne].
  - rewrite map_filter_insert_True by reflexivity.
    rewrite map_size_insert.
    destruct (filter _ m !! k); unfold id; lia.
  - rewrite map_filter_insert_False by (cbn; congruence).
    rewrite map_filter_delete.
    pose proof (map_subseteq_size _ _
      (delete_subseteq (filter (fun kv : JsKey * nat => kv.2 = ws) m) k)).
    lia.
Qed.

Lemma bound_delete (m : gmap JsKey nat) k ws :
  size (filter (fun kv : JsKey * nat => kv.2 = ws) (delete k m)) <=
  size (filter (fun kv : JsKey * nat => kv.2 = ws) m).
Proof.
  rewrite map_filter_delete. apply map_subseteq_size, delete_subseteq.
Qed.

Lemma on_close_clients ws st :
  websocketClients (on_close ws st) = websocketClients st \/
  exists k, websocketClients (on_close ws st) = delete k (websocketClients st).
Proof.
  unfold on_close. destruct (connections st !! ws) as [c|]; [|now left].
  destruct (ToBoolean (peerId c)); [|now left].
  right. exists (peerKey c). now destruct (ToString (peerId c)).
Qed.

Lemma step_bound st ev ws :
  size (bound_ids (step st ev) ws) <=
  size (bound_ids st ws) + (if is_register ws ev then 1 else 0).
Proof.
  unfold bound_ids, step. destruct (exited st); [lia|].
  destruct ev as [|w parsed|w|w|w].
  - cbn. lia.
  - destruct (socket_open st w); [|lia].
    destruct (on_message_clients w parsed st) as [->|[Hreg [k ->]]]; [lia|].
    pose proof (bound_insert (websocketClients st) k w ws) as Hb.
    destruct (Nat.eqb_spec w ws) as [->|Hne]; [now rewrite Hreg|lia].
  - destruct (socket_open st w); [|lia].
    unfold start_closing. destruct (connections st !! w); cbn; lia.
  - destruct (socket_closed st w); [lia|].
    destruct (on_close_clients w st) as [->|[k ->]]; [cbn; lia|].
    pose proof (bound_delete (websocketClients st) k ws). cbn. lia.
  - destruct (socket_closed st w); cbn; lia.
Qed.

Lemma run_bound evs : forall st ws,
  size (bound_ids (run evs st) ws) <=
  size (bound_ids st ws) + registrations ws evs.
Proof.
  unfold run, registrations.
  induction evs as [|ev evs IH]; intros st ws; cbn [fold_left List.filter].
  - cbn. lia.
  - specialize (IH (step st ev) ws). pose proof (step_bound st ev ws).
    destruct (is_register ws ev); cbn [List.length]; lia.
Qed.

Lemma size_le_one_unique (m : gmap JsKey nat) k1 k2 v1 v2 :
  size m <= 1 -> m !! k1 = Some v1 -> m !! k2 = Some v2 -> k1 = k2.
Proof.
  intros Hsize H1 H2. destruct (decide (k1 = k2)) as [|Hne]; auto.
  exfalso.
  assert (Hsub : ({[k1 := v1; k2 := v2]} : gmap JsKey nat) ⊆ m).
  { apply map_subseteq_spec. intros k v Hk.
    apply lookup_insert_Some in Hk as [[<- <-]|[_ Hk]]; auto.
    apply lookup_singleton_Some in Hk as [<- <-]. auto. }
  apply map_subseteq_size in Hsub.
  rewrite map_size_insert_None in Hsub by now rewrite lookup_singleton_ne.
  rewrite map_size_singleton in Hsub. lia.
Qed.

End SignalingFacts.

(* ===================================================================== *)
(** * Properties of the signaling relay                                  *)
(* ===================================================================== *)

Module SignalingProofs.
Import Js Signaling SignalingSpec SignalingFacts.
Local Open Scope nat_scope.

(** C5.  For a [peer_offer], [peer_answer] or [ice_candidate] frame: when
    [websocketClients] maps [to] to an open socket, exactly the frame
    [{type, from, payload}] is sent on that socket, with [from] and the
    payload as received, and no other socket changes; when [to] is unbound or
    its socket is not open, nothing is sent on any socket, the sender
    included, and the only effect is one logged delivery failure.  Neither
    case changes the directory or the registry, and nothing is queued. *)
Theorem relay_forwards_or_drops kind data sender st :
  get_prop data "type" = Ok (JsString (relay_type kind)) ->
  let st' := on_message sender (Some data) st in
  websocketClients st' = websocketClients st /\
  Registry.peers (registry st') = Registry.peers (registry st) /\
  match target_of st (field data "to") with
  | Some target =>
      if socket_open st target then
        outbox st' target = (outbox st target ++ [forwarded kind data])%list /\
        (forall other, other <> target ->
           connections st' !! other = connections st !! other)
      else dropped st st' (field data "to")
  | None => dropped st st' (field data "to")
  end.
Proof.
  intros Htype st'.
  subst st'. rewrite (on_message_relay kind data sender st Htype).
  pose proof (relay_outcome (relay_type kind) (relay_payload kind)
                (relay_label kind) data st) as H.
  cbv zeta in H.
  assert (Hdrop : forall s' to,
    s' = log (fst (delivery_failure to)) (snd (delivery_failure to)) st ->
    websocketClients s' = websocketClients st /\
    Registry.peers (registry s') = Registry.peers (registry st) /\
    dropped st s' to).
  { intros s' to ->. repeat split. rewrite log_logs.
    now destruct (delivery_failure to). }
  destruct (target_of st (field data "to")) as [target|];
    [|now apply Hdrop in H].
  destruct (socket_open st target) eqn:Hopen; [|now apply Hdrop in H].
  destruct H as (st1 & lvl & msg & Hsend & ->).
  destruct (ws_send_open target (forwarded kind data) st Hopen)
    as (st1' & Hsend' & Hout & _ & Hothers & Hclients & Hreg).
  unfold forwarded in Hsend'. rewrite Hsend in Hsend'.
  injection Hsend' as <-.
  rewrite log_clients, log_peers, Hclients, Hreg. repeat split; auto.
Qed.


Lemma relay_forwards_or_drops_witness :
  get_prop offer_A_to_B "type" = Ok (JsString (relay_type Offer)) /\
  outbox (on_message 0 (Some offer_A_to_B) A_and_B) 1
  = (outbox A_and_B 1 ++ [forwarded Offer offer_A_to_B])%list /\
  get_prop offer_A_to_nobody "type" = Ok (JsString (relay_type Offer)) /\
  dropped A_and_B (on_message 0 (Some offer_A_to_nobody) A_and_B)
          (JsString "Z").
Proof.
  split; [reflexivity|]. split; [|split; [reflexivity|]].
  - pose proof (relay_forwards_or_drops Offer offer_A_to_B 0 A_and_B eq_refl)
      as H.
    cbv zeta in H. destruct H as (_ & _ & H).
    assert (Htarget : target_of A_and_B (field offer_A_to_B "to") = Some 1)
      by (vm_compute; reflexivity).
    assert (Hopen : socket_open A_and_B 1 = true)
      by (vm_compute; reflexivity).
    rewrite Htarget, Hopen in H. exact (proj1 H).
  - pose proof (relay_forwards_or_drops Offer offer_A_to_nobody 0 A_and_B
                  eq_refl) as H.
    cbv zeta in H. destruct H as (_ & _ & H).
    assert (Htarget : target_of A_and_B (field offer_A_to_nobody "to") = None)
      by (vm_compute; reflexivity).
    rewrite Htarget in H. exact H.
Defined.

(** What every trace of connections, frames and closes does preserve: the
    number of ids bound to a socket never exceeds the number of [register]
    frames the socket has sent; in particular a socket that has sent at most
    one [register] frame is bound to at most one peer id. *)
Theorem channel_bound_by_registrations reg evs ws :
  let st := run evs (initial reg) in
  size (bound_ids st ws) <= registrations ws evs /\
  (registrations ws evs <= 1 ->
   forall k1 k2,
     websocketClients st !! k1 = Some ws ->
     websocketClients st !! k2 = Some ws -> k1 = k2).
Proof.
  cbv zeta. pose proof (run_bound evs (initial reg) ws) as Hb.
  assert (H0 : size (bound_ids (initial reg) ws) = 0) by reflexivity.
  split; [lia|].
  intros Hone k1 k2 H1 H2.
  apply (size_le_one_unique (bound_ids (run evs (initial reg)) ws) k1 k2 ws ws);
    [lia| |]; unfold bound_ids; now apply map_lookup_filter_Some.
Qed.


Lemma channel_bound_by_registrations_witness :
  registrations 1 one_registration_each <= 1 /\
  websocketClients (run one_registration_each (initial RegistrySpec.empty_state))
    !! KString "A" = Some 1 /\
  forall k,
    websocketClients
      (run one_registration_each (initial RegistrySpec.empty_state)) !! k
    = Some 1 ->
    k = KString "A".
Proof.
  assert (Hone : registrations 1 one_registration_each <= 1)
    by (vm_compute; lia).
  assert (HA : websocketClients
                 (run one_registration_each
                      (initial RegistrySpec.empty_state))
               !! KString "A" = Some 1) by (vm_compute; reflexivity).
  split; [exact Hone|]. split; [exact HA|].
  intros k Hk.
  exact (proj2 (channel_bound_by_registrations RegistrySpec.empty_state
                  one_registration_each 1) Hone k (KString "A") Hk HA).
Defined.

(** C6.  One socket sends [register] with the peer id "A" and then with
    "B".  The register case overwrites the socket's [peerId] variable and
    adds the new entry, but never removes the entry of the id announced
    before: the directory binds both "A" and "B" to the socket, so "at most
    one id per socket" does not hold.  When the socket closes, only "B" is
    removed; "A" stays bound to the closed socket. *)
Theorem channel_bound_to_two_ids :
  let st := run two_registrations (initial RegistrySpec.empty_state) in
  socket_open st 0 = true /\
  websocketClients st !! KString "A" = Some 0 /\
  websocketClients st !! KString "B" = Some 0 /\
  ~ one_id_per_channel st /\
  socket_closed (step st (EClose 0)) 0 = true /\
  websocketClients (step st (EClose 0)) !! KString "A" = Some 0 /\
  websocketClients (step st (EClose 0)) !! KString "B" = None.
Proof.
  cbv zeta. split; [reflexivity|]. split; [reflexivity|].
  split; [reflexivity|]. split; [|repeat split].
  intros H.
  specialize (H (KString "A") (KString "B") 0).
  assert (KString "A" = KString "B") by (apply H; reflexivity).
  discriminate.
Qed.

(** C7.  A [register] frame never changes the peer registry.  On an open
    socket (with a peer id that can be printed) the relay replies at once, on
    the same socket and on no other, with the frame
    [{type: "peer_list", peers: [...]}] whose [peers] array has one entry per
    stored record, in map order, each entry being the object with exactly
    the fields [id], [name], [capabilities] and [lastSeen] of its record. *)
Theorem register_replies_with_snapshot ws data st :
  get_prop data "type" = Ok (JsString "register") ->
  let st' := on_message ws (Some data) st in
  Registry.peers (registry st') = Registry.peers (registry st) /\
  (socket_open st ws = true ->
   (exists s, ToString (field data "peerId") = Ok s) ->
   outbox st' ws = (outbox st ws ++ [peer_list st])%list) /\
  peer_list st =
    JsObject [("type", JsString "peer_list");
              ("peers",
               JsArray (List.map peer_summary
                          (Registry.map_values
                             (Registry.peers (registry st)))))] /\
  (forall p,
     peer_summary p =
     JsObject [("id", JsString (Registry.id p));
               ("name", Registry.name p);
               ("capabilities", JsArray (Registry.capabilities p));
               ("lastSeen", JsNumber (Registry.lastSeen p))]) /\
  (socket_open st ws = true ->
   (exists s, ToString (field data "peerId") = Ok s) ->
   outbox st' ws =
     (outbox st ws ++
      [JsObject
         [("type", JsString "peer_list");
          ("peers",
           JsArray
             (List.map
                (fun entry : string * Registry.Peer =>
                   JsObject
                     [("id", JsString (Registry.id (snd entry)));
                      ("name", Registry.name (snd entry));
                      ("capabilities",
                       JsArray (Registry.capabilities (snd entry)));
                      ("lastSeen", JsNumber (Registry.lastSeen (snd entry)))])
                (Registry.peers (registry st))))]])%list /\
   forall other, other <> ws -> outbox st' other = outbox st other).
Proof.
  intros Htype st'. split; [apply on_message_peers|].
  assert (Hreply : socket_open st ws = true ->
            (exists s, ToString (field data "peerId") = Ok s) ->
            outbox st' ws = (outbox st ws ++ [peer_list st])%list /\
            forall other, other <> ws -> outbox st' other = outbox st other).
  { intros Hopen [s Hs]. subst st'.
    rewrite on_message_caught, Htype. cbn [strict_eq].
    change (String.eqb "register" "register") with true. cbv iota.
    unfold handle_register. rewrite Hs.
    unfold socket_open in Hopen.
    destruct (connections st !! ws) as [c|] eqn:Hc; [|discriminate].
    match goal with
    | |- context [ws_send ws ?f ?s0] =>
        destruct (ws_send_open ws f s0)
          as (st1 & Hsend & Hout & _ & Hothers & _)
    end.
    { unfold socket_open. cbn [connections log set_clients].
      now rewrite lookup_insert_eq. }
    rewrite Hsend. unfold caught. cbn [fst snd]. split.
    - rewrite Hout. unfold outbox. cbn [connections log set_clients].
      now rewrite lookup_insert_eq, Hc.
    - intros other Hne. unfold outbox. rewrite (Hothers other Hne).
      cbn [connections log set_clients].
      now rewrite lookup_insert_ne by auto. }
  split; [intros Hopen Hid; exact (proj1 (Hreply Hopen Hid))|].
  split; [reflexivity|]. split; [reflexivity|].
  intros Hopen Hid. destruct (Hreply Hopen Hid) as [Hout Hothers].
  split; [|exact Hothers].
  rewrite Hout. unfold peer_list, Registry.map_values.
  rewrite List.map_map. reflexivity.
Qed.


Lemma register_replies_with_snapshot_witness :
  get_prop (register_frame "C") "type" = Ok (JsString "register") /\
  socket_open A_and_B 0 = true /\
  (exists s, ToString (field (register_frame "C") "peerId") = Ok s) /\
  Registry.peers (registry (on_message 0 (Some (register_frame "C")) A_and_B))
  = Registry.peers (registry A_and_B) /\
  outbox (on_message 0 (Some (register_frame "C")) A_and_B) 0
  = (outbox A_and_B 0 ++
     [JsObject
        [("type", JsString "peer_list");
         ("peers",
          JsArray
            [JsObject [("id", JsString "peer_fresh_0001");
                       ("name", JsString "Test Node");
                       ("capabilities",
                        JsArray [JsString "websocket"; JsString "webrtc"]);
                       ("lastSeen", JsNumber 990000)];
             JsObject [("id", JsString "peer_3min_0002");
                       ("name", JsString "Test Node");
                       ("capabilities",
                        JsArray [JsString "websocket"; JsString "webrtc"]);
                       ("lastSeen", JsNumber 820000)];
             JsObject [("id", JsString "peer_4m59_0003");
                       ("name", JsString "Test Node");
                       ("capabilities",
                        JsArray [JsString "websocket"; JsString "webrtc"]);
                       ("lastSeen", JsNumber 701000)];
             JsObject [("id", JsString "peer_5m01_0004");
                       ("name", JsString "Test Node");
                       ("capabilities",
                        JsArray [JsString "websocket"; JsString "webrtc"]);
                       ("lastSeen", JsNumber 699000)]])]])%list /\
  outbox (on_message 0 (Some (register_frame "C")) A_and_B) 1
  = outbox A_and_B 1.
Proof.
  assert (Hopen : socket_open A_and_B 0 = true) by (vm_compute; reflexivity).
  assert (Hid : exists s, ToString (field (register_frame "C") "peerId") = Ok s)
    by (exists "C"; reflexivity).
  split; [reflexivity|]. split; [exact Hopen|]. split; [exact Hid|].
  destruct (register_replies_with_snapshot 0 (register_frame "C") A_and_B
              eq_refl) as (Hpeers & _ & _ & _ & Hreply).
  destruct (Hreply Hopen Hid) as [Hout Hothers].
  split; [exact Hpeers|]. split; [|apply Hothers; discriminate].
  rewrite Hout. reflexivity.
Defined.

End SignalingProofs.

(* ===================================================================== *)
(** * Decimal numerals and [parseInt]                                    *)
(* ===================================================================== *)

Module DecimalFacts.
Import Js.

Lemma take_digits_uint_acc d : forall (acc : positive) cnt,
  take_digits 10 (Z.pos acc) cnt
    (list_ascii_of_string (NilEmpty.string_of_uint d))
  = (Z.pos (Pos.of_uint_acc d acc), (cnt + Decimal.nb_digits d)%nat, []).
Proof.
  induction d; intros acc cnt; cbn [NilEmpty.string_of_uint
    list_ascii_of_string take_digits Pos.of_uint_acc Decimal.nb_digits];
    [now rewrite Nat.add_0_r|..];
    match goal with
    | |- context [digit_value 10 ?c] =>
        let v := eval vm_compute in (digit_value 10 c) in
        change (digit_value 10 c) with v; cbv iota
    end;
    match goal with
    | |- take_digits 10 ?a _ _ = (Z.pos (Pos.of_uint_acc _ ?b), _, _) =>
        replace a with (Z.pos b) by lia
    end; rewrite IHd; f_equal; f_equal; lia.
Qed.

Lemma take_digits_uint d : forall cnt,
  take_digits 10 0 cnt
    (list_ascii_of_string (NilEmpty.string_of_uint d))
  = (Z.of_N (Pos.of_uint d), (cnt + Decimal.nb_digits d)%nat, []).
Proof.
  induction d; intros cnt; cbn [NilEmpty.string_of_uint
    list_ascii_of_string take_digits Pos.of_uint Decimal.nb_digits];
    [now rewrite Nat.add_0_r|..];
    match goal with
    | |- context [digit_value 10 ?c] =>
        let v := eval vm_compute in (digit_value 10 c) in
        change (digit_value 10 c) with v; cbv iota
    end.
  - cbn [Z.mul Z.add]. rewrite IHd. f_equal. f_equal. lia.
  - change (0 * 10 + 1) with (Z.pos 1). rewrite take_digits_uint_acc.
    f_equal. f_equal. lia.
  - change (0 * 10 + 2) with (Z.pos 2). rewrite take_digits_uint_acc.
    f_equal. f_equal. lia.
  - change (0 * 10 + 3) with (Z.pos 3). rewrite take_digits_uint_acc.
    f_equal. f_equal. lia.
  - change (0 * 10 + 4) with (Z.pos 4). rewrite take_digits_uint_acc.
    f_equal. f_equal. lia.
  - change (0 * 10 + 5) with (Z.pos 5). rewrite take_digits_uint_acc.
    f_equal. f_equal. lia.
  - change (0 * 10 + 6) with (Z.pos 6). rewrite take_digits_uint_acc.
    f_equal. f_equal. lia.
  - change (0 * 10 + 7) with (Z.pos 7). rewrite take_digits_uint_acc.
    f_equal. f_equal. lia.
  - change (0 * 10 + 8) with (Z.pos 8). rewrite take_digits_uint_acc.
    f_equal. f_equal. lia.
  - change (0 * 10 + 9) with (Z.pos 9). rewrite take_digits_uint_acc.
    f_equal. f_equal. lia.
Qed.

Lemma uint_head_shape d :
  d <> Decimal.Nil ->
  let s := list_ascii_of_string (NilEmpty.string_of_uint d) in
  drop_spaces s = s /\
  match s with
  | c :: rest =>
      (if Ascii.eqb c "-"%char then (-1, rest)
       else if Ascii.eqb c "+"%char then (1, rest) else (1, s)) = (1, s)
  | [] => False
  end /\
  starts_with_prefix "x" "X" s = false.
Proof.
  intros Hd. destruct d as [|d|d|d|d|d|d|d|d|d|d]; [congruence|..];
    (split; [reflexivity|split; [reflexivity|]]);
    destruct d; reflexivity.
Qed.

Lemma parseInt_chars_uint d :
  d <> Decimal.Nil ->
  parseInt_chars (list_ascii_of_string (NilEmpty.string_of_uint d))
  = Some (Z.of_N (Pos.of_uint d)).
Proof.
  intros Hd. destruct (uint_head_shape d Hd) as (H1 & H2 & H3).
  cbv zeta in *. unfold parseInt_chars. rewrite H1.
  destruct (list_ascii_of_string (NilEmpty.string_of_uint d)) as [|c rest]
    eqn:Hs; [contradiction|].
  rewrite H2, H3, <- Hs, take_digits_uint.
  destruct d; try congruence; cbn [Decimal.nb_digits Nat.add];
    f_equal; lia.
Qed.

Lemma to_uint_nonnil p : Pos.to_uint p <> Decimal.Nil.
Proof.
  intros H. pose proof (DecimalPos.Unsigned.of_to p) as Hp.
  rewrite H in Hp. discriminate.
Qed.

(** Printing an integer in decimal and reading it back with [parseInt]. *)
Lemma string_of_uint_nonnil d :
  d <> Decimal.Nil -> NilZero.string_of_uint d = NilEmpty.string_of_uint d.
Proof. unfold NilZero.string_of_uint. destruct d; congruence. Qed.

Lemma parseInt_decimal z :
  parseInt_chars (list_ascii_of_string (NilZero.string_of_int (Z.to_int z)))
  = Some z.
Proof.
  destruct z as [|p|p]; [reflexivity|..]; cbn [Z.to_int NilZero.string_of_int];
    pose proof (to_uint_nonnil p) as Hn;
    rewrite (string_of_uint_nonnil _ Hn).
  - now rewrite parseInt_chars_uint, DecimalPos.Unsigned.of_to.
  - pose proof (parseInt_chars_uint (Pos.to_uint p) Hn) as Hparse.
    rewrite DecimalPos.Unsigned.of_to in Hparse.
    destruct (uint_head_shape (Pos.to_uint p) Hn) as (H1 & H2 & H3).
    cbv zeta in *.
    unfold parseInt_chars in *. cbn [list_ascii_of_string drop_spaces].
    change (is_space "-") with false. cbv iota.
    change (Ascii.eqb "-" "-") with true. cbv iota.
    destruct (list_ascii_of_string (NilEmpty.string_of_uint (Pos.to_uint p)))
      as [|c rest] eqn:Hl; [contradiction|].
    rewrite H1, H2 in Hparse. rewrite H3 in *.
    destruct (take_digits 10 0 0 (c :: rest)) as [[v cnt] tl].
    destruct cnt; [discriminate|]. injection Hparse as Hv. f_equal. lia.
Qed.

Lemma parseInt_number z : parseInt (JsNumber z) = Ok (Some z).
Proof. unfold parseInt. cbn [ToString bind]. now rewrite parseInt_decimal. Qed.

End DecimalFacts.

(* ===================================================================== *)
(** * Further facts about the registry                                   *)
(* ===================================================================== *)

Module SweepFacts.
Import Js Registry RegistrySpec RegistryMore JsFacts RegistryFacts.

Lemma map_delete_absent {V : Type} k (m : JsMap V) :
  ~ In k (List.map fst m) -> map_delete k m = m.
Proof.
  induction m as [|[k' v] m IH]; simpl; auto.
  intros H. destruct (String.eqb_spec k' k) as [->|Hne]; [tauto|].
  f_equal. apply IH. tauto.
Qed.

Lemma map_delete_app {V : Type} k (a b : JsMap V) :
  map_delete k (a ++ b)%list = (map_delete k a ++ map_delete k b)%list.
Proof.
  induction a as [|[k' v] a IH]; simpl; auto.
  destruct (String.eqb k' k); simpl; now rewrite IH.
Qed.

Lemma filter_keys_subset {V : Type} (f : string * V -> bool) (m : JsMap V) k :
  In k (List.map fst (List.filter f m)) -> In k (List.map fst m).
Proof.
  intros H. apply List.in_map_iff in H as (e & <- & He).
  apply filter_In in He as [He _]. apply List.in_map_iff. now exists e.
Qed.

(** The loop of the sweep, from any point of the iteration: the entries
    already visited have been filtered, the others follow untouched. *)
Lemma cleanup_loop_spec now rest : forall visited st n,
  map_wf (visited ++ rest)%list ->
  peers st = (List.filter (keeps now) visited ++ rest)%list ->
  let result := cleanup_loop now rest st n in
  peers (fst result) = List.filter (keeps now) (visited ++ rest)%list /\
  serverStats (fst result) = serverStats st /\
  logs (fst result) =
    (logs st
     ++ List.map removal_line
          (List.filter (fun e => negb (keeps now e)) rest))%list /\
  snd result =
    n + Z.of_nat (List.length
                    (List.filter (fun e => negb (keeps now e)) rest)).
Proof.
  induction rest as [|[k p] rest IH]; intros visited st n Hwf Hpeers.
  - cbn. rewrite !app_nil_r in *. repeat split; auto. lia.
  - cbn [cleanup_loop].
    assert (Hsplit : (visited ++ (k, p) :: rest)%list
                     = ((visited ++ [(k, p)]) ++ rest)%list)
      by now rewrite <- app_assoc.
    assert (Hk : ~ In k (List.map fst (List.filter (keeps now) visited)) /\
                 ~ In k (List.map fst rest)).
    { unfold map_wf in Hwf. rewrite map_app in Hwf. cbn in Hwf.
      apply NoDup_remove_2 in Hwf. split; intros Hin; apply Hwf;
        apply in_or_app; [left|right]; auto.
      now apply filter_keys_subset in Hin. }
    assert (Hkeep : keeps now (k, p) = negb (is_stale now p)) by reflexivity.
    destruct (is_stale now p) eqn:Hstale; cbn [negb] in Hkeep;
      cbn [List.filter]; rewrite Hkeep;
      cbn [negb List.filter List.map List.length].
    + specialize (IH (visited ++ [(k, p)])%list
                     (logger info ("Removed inactive peer: " +:+ k)
                        (set_peers st (map_delete k (peers st))))
                     (n + 1)).
      cbv zeta in IH. rewrite <- Hsplit in IH.
      destruct IH as (H1 & H2 & H3 & H4); auto.
      { cbn [peers logger set_peers]. rewrite Hpeers, map_delete_app.
        cbn [map_delete]. rewrite String.eqb_refl.
        rewrite !map_delete_absent by tauto.
        rewrite List.filter_app. cbn [List.filter]. rewrite Hkeep.
        now rewrite app_nil_r. }
      cbv zeta. rewrite H1, H2, H3, H4. cbn [logger logs serverStats].
      repeat split; auto.
      * rewrite <- app_assoc. reflexivity.
      * lia.
    + specialize (IH (visited ++ [(k, p)])%list st n).
      cbv zeta in IH. rewrite <- Hsplit in IH.
      destruct IH as (H1 & H2 & H3 & H4); auto.
      rewrite Hpeers, List.filter_app. cbn [List.filter]. rewrite Hkeep.
      now rewrite <- app_assoc.
Qed.

Lemma cleanup_spec now st :
  map_wf (peers st) ->
  let stale := List.filter (fun e => negb (keeps now e)) (peers st) in
  cleanupInactivePeers now st =
  mkState (List.filter (keeps now) (peers st)) (serverStats st)
          (logs st ++ List.map removal_line stale
           ++ match stale with
              | [] => []
              | _ :: _ => [summary_line (List.length stale)]
              end)%list.
Proof.
  intros Hwf stale.
  pose proof (cleanup_loop_spec now (peers st) [] st 0) as H.
  cbv zeta in H. cbn [app List.filter] in H.
  destruct H as (H1 & H2 & H3 & H4); auto.
  unfold cleanupInactivePeers.
  destruct (cleanup_loop now (peers st) st 0) as [st' n].
  cbn [fst snd] in *. fold stale in H3, H4. subst n.
  destruct st' as [m' s' l']. cbn [peers serverStats logs] in *. subst.
  destruct stale as [|e stale'].
  - cbn. now rewrite !app_nil_r.
  - cbn [List.length]. 
    destruct (Z.gtb_spec (0 + Z.of_nat (S (List.length stale'))) 0); [|lia].
    unfold logger, summary_line. cbn [peers serverStats logs].
    rewrite Z.add_0_l, <- app_assoc. reflexivity.
Qed.

End SweepFacts.

Module RegisterFacts.
Import Js Registry RegistrySpec RegistryMore JsFacts RegistryFacts SweepFacts.

(** Everything a 200 answer of [POST /register] says about the request, the
    record it stored and the state it left. *)
Lemma register_200_inv req now st message rp net st' :
  post_register req now st = (Register200 message rp net, st') ->
  exists id_s ip_s portNum stored,
    body_id req = JsString id_s /\ body_ip req = JsString ip_s /\
    parseInt (body_port req) = Ok portNum /\
    validatePeerData (body_id req) (body_ip req) (body_port req) = Ok [] /\
    st' = logger info ((if map_has id_s (peers st) then "Updated"
                        else "Registered") +:+ " peer: " +:+ id_s)
            (count_registration
               (set_peers st (map_set id_s stored (peers st)))) /\
    message = "Peer " +:+ (if map_has id_s (peers st) then "updated"
                           else "registered") +:+ " successfully" /\
    rp = {| rp_id := id_s; rp_name := name stored;
            rp_version := version stored;
            rp_capabilities := capabilities stored;
            rp_registeredAt := registeredAt stored;
            rp_updatedAt := now |} /\
    net = {| totalPeers := map_size (map_set id_s stored (peers st));
             activePeers :=
               Z.of_nat (List.length
                 (List.filter (is_active now)
                    (map_values (map_set id_s stored (peers st))))) |} /\
    id stored = id_s /\ ip stored = ip_s /\ port stored = portNum /\
    lastSeen stored = now /\ updatedAt stored = now /\
    registeredAt stored =
      match map_get id_s (peers st) with
      | Some e => registeredAt e
      | None => now
      end /\
    connectionCount stored =
      match map_get id_s (peers st) with
      | Some e => or_zero (connectionCount e) + 1
      | None => 1
      end.
Proof.
  unfold post_register, register_try, map_has. intros H.
  destruct (validatePeerData _ _ _) as [errs|] eqn:Hv; cbn [bind] in H;
    [|discriminate].
  destruct errs; [|discriminate].
  destruct (body_id req) as [| | | |id_s| |]; try discriminate.
  destruct (body_ip req) as [| | | |ip_s| |]; try discriminate.
  destruct (parseInt (body_port req)) as [portNum|]; cbn [bind] in H;
    [|discriminate].
  injection H as <- <- <- <-.
  eexists id_s, ip_s, portNum, _.
  repeat (split; [reflexivity|]). reflexivity.
Qed.

End RegisterFacts.

Module InvariantFacts.
Import Js Registry RegistrySpec RegistryMore JsFacts RegistryFacts.
Import SweepFacts RegisterFacts DecimalFacts.

Lemma Forall_map_set {V : Type} (P : string * V -> Prop) k v (m : JsMap V) :
  Forall P m -> P (k, v) -> Forall P (map_set k v m).
Proof.
  intros Hm Hkv. induction m as [|[k' v'] m IH]; simpl.
  - now constructor.
  - inversion Hm; subst.
    destruct (String.eqb_spec k' k) as [->|Hne]; constructor; auto.
Qed.

Lemma Forall_map_delete {V : Type} (P : string * V -> Prop) k (m : JsMap V) :
  Forall P m -> Forall P (map_delete k m).
Proof.
  intros Hm. induction m as [|[k' v'] m IH]; simpl; auto.
  inversion Hm; subst. destruct (String.eqb k' k); auto.
Qed.

Lemma Forall_filter_list {A : Type} (P : A -> Prop) f (l : list A) :
  Forall P l -> Forall P (List.filter f l).
Proof.
  intros H. apply List.Forall_forall. intros x Hx.
  apply filter_In in Hx as [Hx _].
  rewrite List.Forall_forall in H. auto.
Qed.

Lemma Forall_map_get {V : Type} (P : string * V -> Prop) k v (m : JsMap V) :
  Forall P m -> map_get k m = Some v -> P (k, v).
Proof.
  intros H Hget. apply map_get_In in Hget.
  rewrite List.Forall_forall in H. auto.
Qed.

Lemma map_set_size_present {V : Type} k (v : V) m :
  map_has k m = true -> map_size (map_set k v m) = map_size m.
Proof.
  unfold map_has, map_size. intros H. f_equal.
  induction m as [|[k' v'] m IH]; simpl in *; [discriminate|].
  destruct (String.eqb k' k); simpl; auto.
Qed.

Lemma map_set_size {V : Type} k (v : V) m :
  map_size (map_set k v m) =
  map_size m + (if map_has k m then 0 else 1).
Proof.
  destruct (map_has k m) eqn:H.
  - rewrite map_set_size_present by auto. lia.
  - apply map_set_size_new. unfold map_has in H.
    now destruct (map_get k m).
Qed.

Lemma map_delete_size_present {V : Type} k (v : V) m :
  map_wf m -> map_get k m = Some v ->
  map_size (map_delete k m) = map_size m - 1.
Proof.
  unfold map_wf, map_size. induction m as [|[k' v'] m IH]; simpl;
    [discriminate|].
  intros Hnd Hget. inversion Hnd as [|? ? Hnot Hnd']; subst.
  destruct (String.eqb_spec k' k) as [->|Hne].
  - rewrite map_delete_absent by assumption. lia.
  - simpl. specialize (IH Hnd' Hget).
    apply map_get_In in Hget.
    destruct m; [contradiction|]. simpl in *. lia.
Qed.

Lemma map_delete_keys {V : Type} k (m : JsMap V) :
  List.map fst (map_delete k m) =
  List.filter (fun k' => negb (String.eqb k' k)) (List.map fst m).
Proof.
  induction m as [|[k' v'] m IH]; simpl; auto.
  destruct (String.eqb k' k); simpl; now rewrite IH.
Qed.

Lemma map_set_keys_present {V : Type} k (v : V) m :
  map_has k m = true -> List.map fst (map_set k v m) = List.map fst m.
Proof. intros H. now rewrite map_set_keys, H. Qed.

Lemma map_get_has {V : Type} k (v : V) m :
  map_get k m = Some v -> map_has k m = true.
Proof. unfold map_has. now intros ->. Qed.

Lemma Qle_bool_inject a b :
  Qle_bool (inject_Z a) (inject_Z b) = (a <=? b).
Proof. unfold Qle_bool, inject_Z. cbn. now rewrite !Z.mul_1_r. Qed.

(** A JSON number is a valid port exactly in the range 1..65535. *)
Lemma port_valid_number n :
  port_valid (JsNumber n) = (1 <=? n) && (n <=? 65535).
Proof.
  unfold port_valid. cbn [ToNumber num_isNaN num_lt num_gt negb andb].
  unfold Qlt_bool. rewrite !Qle_bool_inject, !negb_involutive. reflexivity.
Qed.

Lemma validate_ok_valid d_id d_ip d_port :
  validatePeerData d_id d_ip d_port = Ok [] ->
  id_valid d_id = true /\ ip_valid d_ip = true /\ port_valid d_port = true.
Proof.
  intros Hv. destruct (validatePeerData_reports _ _ _ _ Hv) as (H1 & H2 & H3).
  cbn [In] in *.
  destruct (id_valid d_id); [|tauto].
  destruct (ip_valid d_ip); [|tauto].
  destruct (port_valid d_port); tauto.
Qed.

End InvariantFacts.

Module LifecycleFacts.
Import Js Registry RegistrySpec RegistryMore JsFacts RegistryFacts.
Import SweepFacts RegisterFacts InvariantFacts DecimalFacts.

(** One more registration of a valid request whose id is stored. *)
Lemma register_again req now st id_s e :
  request_valid req = true ->
  body_id req = JsString id_s ->
  map_get id_s (peers st) = Some e ->
  1 <= connectionCount e ->
  exists stored,
    map_get id_s (peers (snd (post_register req now st))) = Some stored /\
    connectionCount stored = connectionCount e + 1 /\
    registeredAt stored = registeredAt e /\
    lastSeen stored = now /\
    map_size (peers (snd (post_register req now st))) = map_size (peers st).
Proof.
  intros Hvalid Hid Hget Hc. unfold request_valid in Hvalid.
  apply andb_true_iff in Hvalid as [Hvalid Hport].
  apply andb_true_iff in Hvalid as [Hidv Hip].
  destruct (register_valid_stores req now st Hidv Hip Hport)
    as (id' & stored0 & m & rp & net & st' & Hid' & Hrun & _).
  rewrite Hrun. cbn [snd].
  apply register_200_inv in Hrun
    as (id'' & ip_s & pn & stored & Hid'' & _ & _ & _ & -> & _ & _ & _ & _
        & _ & _ & Hseen & _ & Hreg & Hcount).
  assert (id'' = id_s) by congruence. subst id''.
  rewrite Hget in Hreg, Hcount.
  exists stored. cbn [peers logger count_registration set_peers].
  rewrite map_get_set_eq. split; [reflexivity|].
  split; [|split; [exact Hreg|split; [exact Hseen|]]].
  - rewrite Hcount. unfold or_zero.
    destruct (Z.eqb_spec (connectionCount e) 0); lia.
  - apply map_set_size_present. now apply (map_get_has _ e).
Qed.

Lemma last_cons {A : Type} (ts : list A) : forall t d,
  List.last (t :: ts) d = List.last ts t.
Proof.
  induction ts as [|u ts IH]; intros t d; [reflexivity|].
  change (List.last (t :: u :: ts) d) with (List.last (u :: ts) d).
  now rewrite !IH.
Qed.

Lemma register_again_times req id_s ts : forall st e,
  request_valid req = true ->
  body_id req = JsString id_s ->
  map_get id_s (peers st) = Some e ->
  1 <= connectionCount e ->
  exists stored,
    map_get id_s (peers (register_at_times req ts st)) = Some stored /\
    connectionCount stored = connectionCount e + Z.of_nat (List.length ts) /\
    registeredAt stored = registeredAt e /\
    lastSeen stored = List.last ts (lastSeen e) /\
    map_size (peers (register_at_times req ts st)) = map_size (peers st).
Proof.
  unfold register_at_times.
  induction ts as [|t ts IH]; intros st e Hvalid Hid Hget Hc.
  - exists e. cbn. repeat split; auto. lia.
  - cbn [fold_left].
    destruct (register_again req t st id_s e Hvalid Hid Hget Hc)
      as (s1 & Hget1 & Hc1 & Hr1 & Hs1 & Hsize1).
    destruct (IH _ s1 Hvalid Hid Hget1 ltac:(lia))
      as (s2 & Hget2 & Hc2 & Hr2 & Hs2 & Hsize2).
    exists s2. split; [exact Hget2|].
    split; [cbn [List.length]; lia|]. split; [congruence|].
    split; [|congruence].
    rewrite Hs2, Hs1. now rewrite last_cons.
Qed.

Lemma keeps_later now1 now2 e :
  now1 <= now2 -> keeps now2 e = true -> keeps now1 e = true.
Proof.
  unfold keeps, is_stale. intros Hle H.
  apply negb_true_iff in H. apply negb_true_iff.
  destruct (Z.gtb_spec (now2 - lastSeen (snd e)) inactiveThreshold);
    [discriminate|].
  destruct (Z.gtb_spec (now1 - lastSeen (snd e)) inactiveThreshold); auto.
  lia.
Qed.

Lemma filter_filter_implied {A : Type} (f g : A -> bool) l :
  (forall x, f x = true -> g x = true) ->
  List.filter f (List.filter g l) = List.filter f l.
Proof.
  intros H. induction l as [|x l IH]; simpl; auto.
  destruct (g x) eqn:Hg; simpl.
  - now rewrite IH.
  - destruct (f x) eqn:Hf; auto. apply H in Hf. congruence.
Qed.

(** A record that is active at [now] is not stale at any sweep time up to
    three minutes later. *)
Lemma active_not_stale now t p :
  t <= now + 180000 -> is_active now p = true -> is_stale t p = false.
Proof.
  unfold is_active, is_stale, activeThreshold, inactiveThreshold.
  intros Ht Ha. apply Z.ltb_lt in Ha.
  destruct (Z.gtb_spec (t - lastSeen p) (5 * 60 * 1000)); auto. lia.
Qed.

Lemma filter_active_after_sweep now t (m : JsMap Peer) :
  t <= now + 180000 ->
  List.filter (is_active now) (map_values (List.filter (keeps t) m)) =
  List.filter (is_active now) (map_values m).
Proof.
  intros Ht. unfold map_values.
  induction m as [|[k p] m IH]; simpl; auto.
  unfold keeps at 1. cbn [snd].
  destruct (is_stale t p) eqn:Hs; cbn [negb]; simpl; rewrite IH.
  - destruct (is_active now p) eqn:Ha; auto.
    rewrite (active_not_stale now t p Ht Ha) in Hs. discriminate.
  - reflexivity.
Qed.

Lemma filter_peers_active_prefix q now l :
  query_activeOnly q = true ->
  filter_peers q now l = filter_peers q now (List.filter (is_active now) l).
Proof.
  intros Ha. unfold filter_peers. rewrite Ha.
  rewrite (filter_filter_implied (is_active now) (is_active now)); auto.
Qed.

Lemma filter_and {A : Type} (f g : A -> bool) l :
  List.filter g (List.filter f l) = List.filter (fun x => f x && g x) l.
Proof.
  induction l as [|x l IH]; simpl; auto.
  destruct (f x); simpl; [destruct (g x)|]; now rewrite IH.
Qed.

Lemma filter_optional {A : Type} (b : bool) (f : A -> bool) l :
  (if b then List.filter f l else l) = List.filter (fun x => negb b || f x) l.
Proof.
  destruct b; cbn [negb orb]; [reflexivity|].
  induction l as [|x l IH]; simpl; congruence.
Qed.

(** The three optional filters are one filter by their conjunction. *)
Lemma filter_peers_matches q now l :
  filter_peers q now l = List.filter (matches_query q now) l.
Proof.
  unfold filter_peers, matches_query.
  rewrite (filter_optional (query_activeOnly q) (is_active now) l).
  rewrite (filter_optional (ToBoolean (q_capability q))).
  rewrite (filter_optional (ToBoolean (q_version q))).
  rewrite !filter_and. apply List.filter_ext. intros p.
  now rewrite andb_assoc.
Qed.

Lemma slice_nonneg {A : Type} (l : list A) a b :
  0 <= a -> a <= b ->
  slice l a b = firstn (Z.to_nat (b - a)) (skipn (Z.to_nat a) l).
Proof.
  intros Ha Hab. unfold slice, slice_index.
  destruct (Z.ltb_spec a 0); [lia|]. destruct (Z.ltb_spec b 0); [lia|].
  set (len := Z.of_nat (List.length l)).
  destruct (Z.le_gt_cases len a) as [Hbig|Hsmall].
  - rewrite !skipn_all2 by lia. now rewrite !firstn_nil.
  - replace (Z.min a len) with a by lia.
    destruct (Z.le_gt_cases b len).
    + now replace (Z.max (Z.min b len - a) 0) with (b - a) by lia.
    + replace (Z.max (Z.min b len - a) 0) with (len - a) by lia.
      rewrite !firstn_all2; auto; rewrite length_skipn; lia.
Qed.

Lemma slice_concat {A : Type} (l : list A) a b c :
  0 <= a -> a <= b -> b <= c ->
  (slice l a b ++ slice l b c)%list = slice l a c.
Proof.
  intros Ha Hab Hbc. rewrite !slice_nonneg by lia.
  replace (Z.to_nat b) with (Z.to_nat (b - a) + Z.to_nat a)%nat by lia.
  rewrite <- skipn_skipn.
  replace (Z.to_nat (c - a))
    with (Z.to_nat (b - a) + Z.to_nat (c - b))%nat by lia.
  set (r := skipn (Z.to_nat a) l).
  rewrite <- (firstn_skipn (Z.to_nat (b - a)) r) at 3.
  rewrite firstn_app, firstn_firstn.
  replace (Nat.min (Z.to_nat (b - a) + Z.to_nat (c - b)) (Z.to_nat (b - a)))
    with (Z.to_nat (b - a)) by lia.
  f_equal.
  destruct (Nat.le_gt_cases (Z.to_nat (b - a)) (List.length r)).
  - rewrite length_firstn.
    replace (Z.to_nat (b - a) + Z.to_nat (c - b)
             - Nat.min (Z.to_nat (b - a)) (List.length r))%nat
      with (Z.to_nat (c - b)) by lia.
    reflexivity.
  - rewrite !skipn_all2 by lia. now rewrite !firstn_nil.
Qed.

End LifecycleFacts.

Module ListingFacts.
Import Js Registry RegistrySpec RegistryMore JsFacts RegistryFacts.
Import SweepFacts RegisterFacts InvariantFacts DecimalFacts.
Import LifecycleFacts.

Lemma parseInt_decimal_string z : parseInt (JsString (decimal z)) = Ok (Some z).
Proof.
  unfold parseInt, decimal. cbn [ToString bind]. now rewrite parseInt_decimal.
Qed.

Lemma with_window_limit q lim off :
  query_limit (with_window q lim off)
  = Ok (Z.min (if lim =? 0 then 50 else lim) 100).
Proof.
  unfold query_limit, with_window. cbn [q_limit].
  now rewrite parseInt_decimal_string.
Qed.

Lemma with_window_offset q lim off :
  query_offset (with_window q lim off) = Ok off.
Proof.
  unfold query_offset, with_window. cbn [q_offset].
  rewrite parseInt_decimal_string. cbn [bind or_default].
  destruct (Z.eqb_spec off 0); congruence.
Qed.

(** The first registration of a valid request whose id is not stored. *)
Lemma register_new req now st id_s :
  request_valid req = true ->
  body_id req = JsString id_s ->
  map_get id_s (peers st) = None ->
  exists rp net stored,
    post_register req now st =
      (Register200 "Peer registered successfully" rp net,
       snd (post_register req now st)) /\
    map_get id_s (peers (snd (post_register req now st))) = Some stored /\
    connectionCount stored = 1 /\
    registeredAt stored = now /\
    lastSeen stored = now /\
    map_size (peers (snd (post_register req now st)))
      = map_size (peers st) + 1.
Proof.
  intros Hvalid Hid Hget. unfold request_valid in Hvalid.
  apply andb_true_iff in Hvalid as [Hvalid Hport].
  apply andb_true_iff in Hvalid as [Hidv Hip].
  destruct (register_valid_stores req now st Hidv Hip Hport)
    as (id' & stored0 & m & rp & net & st' & Hid' & Hrun & _).
  rewrite Hrun. cbn [snd].
  apply register_200_inv in Hrun
    as (id'' & ip_s & pn & stored & Hid'' & _ & _ & _ & -> & -> & _ & _ & _
        & _ & _ & Hseen & _ & Hreg & Hcount).
  assert (id'' = id_s) by congruence. subst id''.
  rewrite Hget in Hreg, Hcount.
  exists rp, net, stored. cbn [peers logger count_registration set_peers].
  rewrite map_get_set_eq. unfold map_has. rewrite Hget.
  repeat split; auto.
  rewrite map_set_size. unfold map_has. now rewrite Hget.
Qed.

Lemma sorted_head_max (A : Type) (key : A -> Z) h t :
  StronglySorted (fun a b => key a >= key b) (h :: t) ->
  forall x, In x (h :: t) -> key x <= key h.
Proof.
  intros Hs x [<-|Hin]; [lia|].
  inversion Hs as [|? ? _ Hall]; subst.
  rewrite List.Forall_forall in Hall. specialize (Hall x Hin). lia.
Qed.

Lemma in_values_get {V : Type} (v : V) (m : JsMap V) :
  In v (map_values m) -> exists k, In (k, v) m.
Proof.
  unfold map_values. intros H. apply List.in_map_iff in H as ([k v'] & <- & H).
  now exists k.
Qed.

Lemma map_wf_In_get {V : Type} k (v : V) (m : JsMap V) :
  map_wf m -> In (k, v) m -> map_get k m = Some v.
Proof.
  unfold map_wf. induction m as [|[k' v'] m IH]; cbn; [tauto|].
  intros Hnd [Heq|Hin].
  - injection Heq as -> ->. now rewrite String.eqb_refl.
  - inversion Hnd as [|? ? Hnot Hnd']; subst.
    destruct (String.eqb_spec k' k) as [->|Hne]; [|auto].
    exfalso. apply Hnot. apply List.in_map_iff. now exists (k, v).
Qed.

Lemma with_window_filter q lim off now l :
  filter_peers (with_window q lim off) now l = filter_peers q now l.
Proof. reflexivity. Qed.

(** [GET /peers] with a decimal window never fails, and its answer is read
    off the listing. *)
Lemma get_peers_window q lim off now st :
  get_peers (with_window q lim off) now st =
  (Peers200
     {| r_peers :=
          List.map public_view
            (slice (listing q now st) off
                   (off + Z.min (if lim =? 0 then 50 else lim) 100));
        r_pagination :=
          {| total := Z.of_nat (List.length (listing q now st));
             limit := Z.min (if lim =? 0 then 50 else lim) 100;
             offset := off;
             hasMore := off + Z.min (if lim =? 0 then 50 else lim) 100
                        <? Z.of_nat (List.length (listing q now st)) |};
        r_filters := {| f_activeOnly := query_activeOnly q;
                        f_capability := q_capability q;
                        f_version := q_version q |} |}, st).
Proof.
  unfold get_peers, peers_try.
  rewrite with_window_limit, with_window_offset. cbn [bind].
  reflexivity.
Qed.

Lemma listing_length q now st :
  List.length (listing q now st)
  = List.length (List.filter (matches_query q now) (map_values (peers st))).
Proof.
  unfold listing. rewrite <- filter_peers_matches.
  symmetry. apply Permutation_length, sort_peers_perm.
Qed.

Lemma listing_In q now st p :
  In p (listing q now st) <->
  In p (map_values (peers st)) /\ matches_query q now p = true.
Proof.
  unfold listing. rewrite filter_peers_matches, <- filter_In.
  split; intros H.
  - eapply Permutation_in; [symmetry; apply sort_peers_perm|exact H].
  - eapply Permutation_in; [apply sort_peers_perm|exact H].
Qed.

(** What a 200 answer of [GET /peers] lists. *)
Lemma get_peers_lists_matching q now st data st' :
  get_peers q now st = (Peers200 data, st') ->
  st' = st /\
  total (r_pagination data) =
    Z.of_nat (List.length
      (List.filter (matches_query q now) (map_values (peers st)))) /\
  forall view, In view (r_peers data) ->
    exists p, view = public_view p /\ In p (map_values (peers st)) /\
              matches_query q now p = true.
Proof.
  intros H. apply get_peers_200 in H as [H ->]. split; [reflexivity|].
  apply peers_try_ok in H as (lim & off & _ & _ & ->).
  cbn [r_peers r_pagination total]. split.
  - f_equal. apply (listing_length q now st).
  - intros view Hin. apply List.in_map_iff in Hin as (p & <- & Hin).
    apply slice_In in Hin. apply (listing_In q now st) in Hin.
    now exists p.
Qed.

(** ** The data-model invariant, handler by handler *)

Lemma registry_ok_register req now st :
  registry_ok st -> registry_ok (snd (post_register req now st)).
Proof.
  intros [Hwf Hall]. split; [now apply post_register_wf|].
  destruct (post_register req now st) as [[m rp net|e d|e] st'] eqn:H;
    cbn [snd].
  - apply register_200_inv in H
      as (id_s & ip_s & pn & stored & _ & _ & _ & _ & -> & _ & _ & _
          & Hid & _ & _ & _ & _ & _ & Hcount).
    cbn [peers logger count_registration set_peers].
    apply Forall_map_set; auto. split; [exact Hid|]. cbn [snd].
    rewrite Hcount. destruct (map_get id_s (peers st)) as [e|] eqn:Hget;
      [|lia].
    apply (Forall_map_get _ _ _ _ Hall) in Hget as [_ Hc]. cbn in Hc.
    unfold or_zero. destruct (Z.eqb_spec (connectionCount e) 0); lia.
  - apply register_400_lists_violations in H as [-> _]. exact Hall.
  - pose proof (register_failure_keeps_registry req now st) as Hkeep.
    rewrite H in Hkeep. cbn [fst snd] in Hkeep.
    rewrite Hkeep by discriminate. exact Hall.
Qed.

Lemma registry_ok_heartbeat k now st :
  registry_ok st -> registry_ok (snd (post_heartbeat k now st)).
Proof.
  intros [Hwf Hall]. split; [now apply post_heartbeat_wf|].
  unfold post_heartbeat. destruct (map_get k (peers st)) as [p|] eqn:Hget;
    [|exact Hall].
  cbn [snd peers set_peers]. apply Forall_map_set; auto.
  apply (Forall_map_get _ _ _ _ Hall) in Hget. exact Hget.
Qed.

Lemma registry_ok_delete k st :
  registry_ok st -> registry_ok (snd (delete_peer k st)).
Proof.
  intros [Hwf Hall]. split; [now apply delete_peer_wf|].
  unfold delete_peer. destruct (map_has k (peers st)); [|exact Hall].
  cbn [negb]. destruct (map_get k (peers st)); [|exact Hall].
  cbn [snd peers logger set_peers]. now apply Forall_map_delete.
Qed.

Lemma registry_ok_sweep now st :
  registry_ok st -> registry_ok (cleanupInactivePeers now st).
Proof.
  intros [Hwf Hall]. split; [now apply cleanup_wf|].
  rewrite cleanup_spec by assumption. cbn [peers].
  now apply Forall_filter_list.
Qed.

End ListingFacts.

(* ===================================================================== *)
(** * Facts about the application as a whole                             *)
(* ===================================================================== *)

Module ServerFacts.
Import Js Registry RegistrySpec RegistryMore JsFacts RegistryFacts.
Import SweepFacts RegisterFacts InvariantFacts DecimalFacts.
Import LifecycleFacts ListingFacts Server.

Lemma log_request_peers m p st : peers (log_request m p st) = peers st.
Proof. reflexivity. Qed.

Lemma registry_ok_peers st st' :
  peers st' = peers st -> registry_ok st -> registry_ok st'.
Proof. unfold registry_ok. now intros ->. Qed.

Lemma get_peers_peers q now st : peers (snd (get_peers q now st)) = peers st.
Proof.
  unfold get_peers. now destruct (peers_try q now st).
Qed.

Lemma get_peer_state k st : snd (get_peer k st) = st.
Proof. unfold get_peer. now destruct (map_get k (peers st)). Qed.

Lemma dispatch_ok r now st :
  registry_ok st -> registry_ok (snd (dispatch r now st)).
Proof.
  intros Hok. destruct r as [req|q|k| |k|k| | |]; cbn [dispatch].
  - pose proof (registry_ok_register req now st Hok).
    now destruct (post_register req now st).
  - pose proof (get_peers_peers q now st).
    destruct (get_peers q now st). cbn [snd] in *.
    now apply (registry_ok_peers st).
  - pose proof (get_peer_state k st).
    destruct (get_peer k st). cbn [snd] in *. now subst.
  - exact Hok.
  - pose proof (registry_ok_delete k st Hok).
    now destruct (delete_peer k st).
  - pose proof (registry_ok_heartbeat k now st Hok).
    now destruct (post_heartbeat k now st).
  - exact Hok.
  - exact Hok.
  - exact Hok.
Qed.

Lemma serve_ok rq now st :
  registry_ok st -> registry_ok (snd (serve rq now st)).
Proof.
  intros Hok. destruct rq as [m p r|m p|]; cbn [serve].
  - apply dispatch_ok. now apply (registry_ok_peers st).
  - exact Hok.
  - exact Hok.
Qed.

Lemma react_ok st ev :
  registry_ok (Signaling.registry st) ->
  registry_ok (Signaling.registry (fst (react st ev))).
Proof.
  intros Hok. unfold react. destruct (Signaling.exited st); [exact Hok|].
  destruct ev as [now rq|now|ev].
  - pose proof (serve_ok rq now _ Hok).
    now destruct (serve rq now (Signaling.registry st)).
  - cbn. now apply registry_ok_sweep.
  - cbn [fst]. apply (registry_ok_peers (Signaling.registry st)); [|exact Hok].
    apply (SignalingFacts.step_peers st ev).
Qed.

Lemma react_all_ok evs : forall st,
  registry_ok (Signaling.registry st) ->
  registry_ok (Signaling.registry (fst (react_all evs st))).
Proof.
  induction evs as [|ev evs IH]; intros st Hok; [exact Hok|].
  cbn [react_all]. pose proof (react_ok st ev Hok) as H1.
  destruct (react st ev) as [st1 a]. cbn [fst] in H1.
  specialize (IH st1 H1). now destruct (react_all evs st1).
Qed.

End ServerFacts.

(* ===================================================================== *)
(** * Further facts about the signaling channel                          *)
(* ===================================================================== *)

Module SocketFacts.
Import Js Signaling SignalingSpec SignalingMore SignalingFacts.

(** ** What a socket callback leaves alone in the registry *)

Lemma same_store_refl st : same_store st st.
Proof. repeat split. exists []. now rewrite app_nil_r. Qed.

Lemma same_store_trans st1 st2 st3 :
  same_store st1 st2 -> same_store st2 st3 -> same_store st1 st3.
Proof.
  intros (Hp1 & Hs1 & m1 & Hl1) (Hp2 & Hs2 & m2 & Hl2).
  split; [congruence|]. split; [congruence|].
  exists (m1 ++ m2)%list. now rewrite Hl2, Hl1, app_assoc.
Qed.

Lemma same_store_log lvl msg st : same_store st (log lvl msg st).
Proof. repeat split. now exists [(lvl, msg)]. Qed.

Lemma same_store_registry st st' :
  registry st' = registry st -> same_store st st'.
Proof.
  intros H. unfold same_store, logs_of. rewrite H. repeat split.
  exists []. now rewrite app_nil_r.
Qed.

Lemma same_store_send ws frame st : same_store st (fst (ws_send ws frame st)).
Proof.
  apply same_store_registry.
  pose proof (ws_send_frame ws frame st) as H. cbv zeta in H. tauto.
Qed.

Lemma same_store_caught st r :
  same_store st (fst r) -> same_store st (caught r).
Proof.
  intros H. unfold caught. destruct (snd r); [exact H|].
  eapply same_store_trans; [exact H|apply same_store_log].
Qed.

Lemma same_store_relay type payload label data st :
  same_store st (fst (relay type payload label data st)).
Proof.
  unfold relay.
  assert (Hdrop : same_store st (fst
            match ToString (field data "to") with
            | Ok to_s =>
                (log Registry.warn
                   ("Target peer not found or not connected: " +:+ to_s) st,
                 Ok tt)
            | Throw e => (st, Throw e)
            end)).
  { destruct (ToString (field data "to")); cbn [fst];
      [apply same_store_log|apply same_store_refl]. }
  destruct (match lookup_key (field data "to") with
            | Some k => websocketClients st !! k
            | None => None
            end) as [target|]; [|exact Hdrop].
  destruct (socket_open st target); [|exact Hdrop].
  match goal with
  | |- context [ws_send ?a ?b ?c] =>
      pose proof (same_store_send a b c) as Hs;
      destruct (ws_send a b c) as [st1 [[]|e]]
  end; cbn [fst] in *; [|exact Hs].
  destruct (ToString (field data "from")), (ToString (field data "to"));
    cbn [fst]; try exact Hs.
  eapply same_store_trans; [exact Hs|apply same_store_log].
Qed.

Lemma same_store_register ws data st :
  same_store st (fst (handle_register ws data st)).
Proof.
  unfold handle_register.
  destruct (ToString (field data "peerId")) as [id_s|e]; cbn [fst];
    [|now apply same_store_registry].
  match goal with
  | |- context [ws_send ?a ?b ?c] =>
      eapply same_store_trans; [|apply (same_store_send a b c)]
  end.
  eapply same_store_trans; [|apply same_store_log].
  now apply same_store_registry.
Qed.

Lemma same_store_message ws parsed st :
  same_store st (on_message ws parsed st).
Proof.
  destruct parsed as [data|]; [|apply same_store_log].
  rewrite on_message_caught. apply same_store_caught.
  destruct (get_prop data "type") as [type|]; [|apply same_store_refl].
  repeat match goal with
  | |- context [if ?b then _ else _] => destruct b
  end.
  - apply same_store_register.
  - apply same_store_relay.
  - apply same_store_relay.
  - apply same_store_relay.
  - apply same_store_send.
  - apply same_store_log.
Qed.

Lemma same_store_close ws st : same_store st (on_close ws st).
Proof.
  unfold on_close. destruct (connections st !! ws) as [c|];
    [|apply same_store_refl].
  destruct (ToBoolean (peerId c)); [|now apply same_store_registry].
  destruct (ToString (peerId c)); repeat split; eexists; reflexivity.
Qed.

Lemma same_store_step st ev : same_store st (step st ev).
Proof.
  unfold step. destruct (exited st); [apply same_store_refl|].
  destruct ev as [|w parsed|w|w|w].
  - repeat split. eexists. reflexivity.
  - destruct (socket_open st w);
      [apply same_store_message|apply same_store_refl].
  - destruct (socket_open st w); [|apply same_store_refl].
    unfold start_closing. destruct (connections st !! w);
      now apply same_store_registry.
  - destruct (socket_closed st w);
      [apply same_store_refl|apply same_store_close].
  - destruct (socket_closed st w);
      [apply same_store_refl|apply same_store_log].
Qed.

Lemma same_store_run evs : forall st, same_store st (run evs st).
Proof.
  unfold run. induction evs as [|ev evs IH]; intros st; cbn [fold_left];
    [apply same_store_refl|].
  eapply same_store_trans; [apply same_store_step|apply IH].
Qed.

(** ** Nothing runs after the process has exited *)

Lemma run_exited evs : forall st, exited st = true -> run evs st = st.
Proof.
  unfold run. induction evs as [|ev evs IH]; intros st He; cbn [fold_left];
    [reflexivity|].
  unfold step at 2. rewrite He. now apply IH.
Qed.

(** ** One frame on an open socket *)

Lemma open_lookup st ws :
  socket_open st ws = true ->
  exists c, connections st !! ws = Some c /\ readyState c = OPEN.
Proof.
  unfold socket_open. destruct (connections st !! ws) as [c|];
    [|discriminate].
  intros H. exists c. split; [reflexivity|].
  now destruct (readyState c).
Qed.

(** A [register] frame whose [peerId] can be printed: the socket's closure
    variable and the directory are written, one line is logged, the peer
    list goes out. *)
Lemma register_step ws data st c id_s :
  exited st = false ->
  connections st !! ws = Some c -> readyState c = OPEN ->
  get_prop data "type" = Ok (JsString "register") ->
  ToString (field data "peerId") = Ok id_s ->
  let key := key_of (next_ref st) (field data "peerId") in
  let st' := step st (EMessage ws (Some data)) in
  websocketClients st' = <[key := ws]> (websocketClients st) /\
  connections st' =
    <[ws := mkConnection OPEN (field data "peerId") key
                         (sent c ++ [peer_list st])]> (connections st) /\
  exited st' = false /\
  logs_of st' =
    (logs_of st ++ [(Registry.info, "WebSocket peer registered: " +:+ id_s)])
      %list.
Proof.
  intros Hex Hc Hopen Htype Hid. cbv zeta.
  unfold step. rewrite Hex. unfold socket_open. rewrite Hc, Hopen.
  cbn [is_open]. rewrite on_message_caught, Htype.
  cbn [strict_eq]. rewrite String.eqb_refl.
  unfold handle_register. rewrite Hid, Hc, Hopen.
  unfold ws_send. cbn [connections set_clients log].
  rewrite lookup_insert_eq. cbn [readyState is_open].
  unfold caught. cbn [fst snd websocketClients connections set_connections
                      exited logs_of registry sent peerId peerKey].
  rewrite insert_insert_eq. repeat split. exact Hex.
Qed.

(** A [register] frame whose [peerId] cannot be printed: the closure
    variable and the directory are written all the same, then the template
    literal throws and the [catch] logs. *)
Lemma register_unprintable_step ws data st c e :
  exited st = false ->
  connections st !! ws = Some c -> readyState c = OPEN ->
  get_prop data "type" = Ok (JsString "register") ->
  ToString (field data "peerId") = Throw e ->
  let key := key_of (next_ref st) (field data "peerId") in
  let st' := step st (EMessage ws (Some data)) in
  websocketClients st' = <[key := ws]> (websocketClients st) /\
  connections st' =
    <[ws := mkConnection OPEN (field data "peerId") key (sent c)]>
      (connections st) /\
  exited st' = false /\
  logs_of st' =
    (logs_of st ++ [(Registry.error, "WebSocket message error")])%list.
Proof.
  intros Hex Hc Hopen Htype Hid. cbv zeta.
  unfold step. rewrite Hex. unfold socket_open. rewrite Hc, Hopen.
  cbn [is_open]. rewrite on_message_caught, Htype.
  cbn [strict_eq]. rewrite String.eqb_refl.
  unfold handle_register. rewrite Hid, Hc, Hopen.
  unfold caught. cbn. repeat split. exact Hex.
Qed.

(** The close callback on a socket that is not closed yet. *)
Lemma close_step ws st c :
  exited st = false ->
  connections st !! ws = Some c -> readyState c <> CLOSED ->
  step st (EClose ws) = on_close ws st.
Proof.
  intros Hex Hc Hopen. unfold step. rewrite Hex.
  unfold socket_closed. rewrite Hc.
  destruct (readyState c); congruence.
Qed.

End SocketFacts.

Module RelayFacts.
Import Js Signaling SignalingSpec SignalingMore SignalingFacts.
Import SocketFacts.

Lemma peer_list_same st st' :
  Registry.peers (registry st') = Registry.peers (registry st) ->
  peer_list st' = peer_list st.
Proof. unfold peer_list. now intros ->. Qed.

Lemma throws_truthy v e : ToString v = Throw e -> ToBoolean v = true.
Proof. destruct v as [| |[]| | | |]; try discriminate; reflexivity. Qed.

Lemma falsy_printable v :
  ToBoolean v = false ->
  (exists s, ToString v = Ok s) /\ forall n m, key_of n v = key_of m v.
Proof.
  destruct v as [| |[]| | | |]; try discriminate; intros _;
    (split; [eexists; reflexivity|reflexivity]).
Qed.

Lemma register_as_type v :
  get_prop (register_as v) "type" = Ok (JsString "register").
Proof. reflexivity. Qed.

Lemma register_as_peerId v : field (register_as v) "peerId" = v.
Proof. reflexivity. Qed.

Lemma relay_frame_type k from to payload :
  get_prop (relay_frame k from to payload) "type"
  = Ok (JsString (relay_type k)).
Proof. reflexivity. Qed.

Lemma relay_frame_to k from to payload :
  field (relay_frame k from to payload) "to" = to.
Proof. reflexivity. Qed.

(** A relay frame on an open socket, by the state of the target. *)
Lemma relay_step k data sender st :
  exited st = false -> socket_open st sender = true ->
  get_prop data "type" = Ok (JsString (relay_type k)) ->
  match target_of st (field data "to") with
  | Some target =>
      if socket_open st target then
        outbox (step st (EMessage sender (Some data))) target
        = (outbox st target ++ [forwarded k data])%list /\
        forall other, other <> target ->
          connections (step st (EMessage sender (Some data))) !! other
          = connections st !! other
      else dropped st (step st (EMessage sender (Some data)))
                   (field data "to")
  | None => dropped st (step st (EMessage sender (Some data)))
                    (field data "to")
  end.
Proof.
  intros Hex Hopen Htype. unfold step. rewrite Hex, Hopen.
  rewrite (on_message_relay k data sender st Htype).
  pose proof (relay_outcome (relay_type k) (relay_payload k) (relay_label k)
                data st) as H. cbv zeta in H.
  destruct (target_of st (field data "to")) as [target|];
    [destruct (socket_open st target) eqn:Ht|].
  - destruct H as (st1 & lvl & msg & Hsend & ->).
    destruct (ws_send_open target (forwarded k data) st Ht)
      as (st1' & Hsend' & Hout & _ & Hothers & _).
    unfold forwarded in Hsend'. rewrite Hsend in Hsend'.
    injection Hsend' as <-. split; [exact Hout|exact Hothers].
  - rewrite H. unfold dropped.
    destruct (delivery_failure (field data "to")). now repeat split.
  - rewrite H. unfold dropped.
    destruct (delivery_failure (field data "to")). now repeat split.
Qed.

Lemma react_all_sockets evs : forall st,
  Server.react_all (List.map Server.Socket evs) st = (run evs st, []).
Proof.
  unfold run. induction evs as [|ev evs IH]; intros st; [reflexivity|].
  cbn [List.map Server.react_all fold_left]. unfold Server.react.
  destruct (exited st) eqn:Hex.
  - assert (Hstay : step st ev = st) by (unfold step; now rewrite Hex).
    now rewrite IH, Hstay.
  - now rewrite IH.
Qed.

Lemma react_all_exited evs : forall st,
  exited st = true -> Server.react_all evs st = (st, []).
Proof.
  induction evs as [|ev evs IH]; intros st Hex; [reflexivity|].
  cbn [Server.react_all]. unfold Server.react. rewrite Hex.
  now rewrite (IH st Hex).
Qed.

Lemma react_all_app evs1 : forall evs2 st,
  Server.react_all (evs1 ++ evs2) st =
  let '(st1, a1) := Server.react_all evs1 st in
  let '(st2, a2) := Server.react_all evs2 st1 in
  (st2, (a1 ++ a2)%list).
Proof.
  induction evs1 as [|ev evs1 IH]; intros evs2 st.
  - cbn [app Server.react_all]. now destruct (Server.react_all evs2 st).
  - cbn [app Server.react_all]. destruct (Server.react st ev) as [s1 a].
    rewrite IH. destruct (Server.react_all evs1 s1) as [s2 b].
    destruct (Server.react_all evs2 s2) as [s3 c]. now rewrite app_assoc.
Qed.

(** Two sockets announce the same printable id, one after the other. *)
Lemma register_twice w1 w2 v id_s st c1 c2 :
  exited st = false -> w1 <> w2 ->
  connections st !! w1 = Some c1 -> readyState c1 = OPEN ->
  connections st !! w2 = Some c2 -> readyState c2 = OPEN ->
  is_reference v = false -> ToString v = Ok id_s ->
  let st2 := run [EMessage w1 (Some (register_as v));
                  EMessage w2 (Some (register_as v))] st in
  websocketClients st2 = <[key_of 0 v := w2]> (websocketClients st) /\
  connections st2 =
    <[w2 := mkConnection OPEN v (key_of 0 v) (sent c2 ++ [peer_list st])]>
      (<[w1 := mkConnection OPEN v (key_of 0 v) (sent c1 ++ [peer_list st])]>
         (connections st)) /\
  exited st2 = false.
Proof.
  intros Hex Hne Hc1 Ho1 Hc2 Ho2 Hprim Hid. cbv zeta.
  assert (Hkey : forall n, key_of n v = key_of 0 v)
    by (intros n; destruct v; try reflexivity; discriminate).
  unfold run. cbn [fold_left].
  destruct (register_step w1 (register_as v) st c1 id_s Hex Hc1 Ho1
              (register_as_type v) Hid) as (Hcl1 & Hco1 & Hex1 & Hlog1).
  rewrite register_as_peerId, Hkey in Hcl1, Hco1.
  set (st1 := step st (EMessage w1 (Some (register_as v)))) in *.
  assert (Hc2' : connections st1 !! w2 = Some c2)
    by (rewrite Hco1, lookup_insert_ne; auto).
  destruct (register_step w2 (register_as v) st1 c2 id_s Hex1 Hc2' Ho2
              (register_as_type v) Hid) as (Hcl2 & Hco2 & Hex2 & _).
  rewrite register_as_peerId, Hkey in Hcl2, Hco2.
  rewrite Hcl2, Hcl1, Hco2, Hco1. rewrite insert_insert_eq.
  assert (Hpl : peer_list st1 = peer_list st)
    by (apply peer_list_same; apply (step_peers st)).
  rewrite Hpl. repeat split. exact Hex2.
Qed.

End RelayFacts.

Module SocketTheorems.
Import Js Signaling SignalingSpec SignalingMore SignalingFacts.
Import SocketFacts RelayFacts.

(** X20.  A [ping] frame on an open socket is answered with [{type: "pong"}]
    on that socket and has no other effect: no other socket, no directory
    entry, no counter and no log line changes. *)
Theorem ping_answered_on_same_socket ws data st :
  exited st = false -> socket_open st ws = true ->
  get_prop data "type" = Ok (JsString "ping") ->
  outbox (step st (EMessage ws (Some data))) ws
    = (outbox st ws ++ [pong])%list /\
  (forall other, other <> ws ->
     connections (step st (EMessage ws (Some data))) !! other
     = connections st !! other) /\
  websocketClients (step st (EMessage ws (Some data))) = websocketClients st /\
  registry (step st (EMessage ws (Some data))) = registry st.
Proof.
  intros Hex Hopen Htype. unfold step. rewrite Hex, Hopen.
  rewrite on_message_caught, Htype. cbn [strict_eq].
  change (String.eqb "ping" "register") with false.
  change (String.eqb "ping" "peer_offer") with false.
  change (String.eqb "ping" "peer_answer") with false.
  change (String.eqb "ping" "ice_candidate") with false.
  change (String.eqb "ping" "ping") with true. cbv iota.
  destruct (ws_send_open ws pong st Hopen)
    as (st1 & Hsend & Hout & _ & Hothers & Hclients & Hreg).
  unfold pong in Hsend. rewrite Hsend. unfold caught. cbn [fst snd].
  repeat split; assumption.
Qed.

Lemma ping_answered_on_same_socket_witness :
  outbox (step A_and_B
            (EMessage 0 (Some (JsObject [("type", JsString "ping")])))) 0%nat
  = (outbox A_and_B 0%nat ++ [pong])%list /\
  outbox (step A_and_B
            (EMessage 0 (Some (JsObject [("type", JsString "ping")])))) 1%nat
  = outbox A_and_B 1%nat.
Proof.
  destruct (ping_answered_on_same_socket 0%nat
              (JsObject [("type", JsString "ping")]) A_and_B)
    as (Hout & Hothers & _); [reflexivity|reflexivity|reflexivity|].
  split; [exact Hout|]. unfold outbox. now rewrite (Hothers 1%nat).
Defined.

(** X21.  A frame that no case handles only leaves a log line.  When
    [JSON.parse] throws, when the parsed value is [null], or when [type] is
    none of the five known strings, the server sends nothing, binds nothing
    and keeps the socket open; it logs "WebSocket message error" in the
    first two cases and "Unknown WebSocket message type" in the third. *)
Theorem unusable_frame_only_logs ws parsed st :
  exited st = false -> socket_open st ws = true ->
  unusable parsed = true ->
  step st (EMessage ws parsed)
  = log (fst (unusable_line parsed)) (snd (unusable_line parsed)) st.
Proof.
  intros Hex Hopen Hun. unfold step. rewrite Hex, Hopen.
  destruct parsed as [data|]; [|reflexivity].
  rewrite on_message_caught. unfold unusable, unusable_line in *.
  destruct (get_prop data "type") as [t|e]; [|reflexivity].
  apply negb_true_iff in Hun. unfold known_type in Hun.
  repeat (apply orb_false_iff in Hun as [Hun ?]).
  repeat match goal with
  | H : strict_eq t _ = false |- _ => rewrite H; clear H
  end.
  reflexivity.
Qed.

Lemma unusable_frame_only_logs_witness :
  step A_and_B (EMessage 0 None)
  = log Registry.error "WebSocket message error" A_and_B /\
  step A_and_B (EMessage 0 (Some JsNull))
  = log Registry.error "WebSocket message error" A_and_B /\
  step A_and_B (EMessage 0 (Some (JsObject [("type", JsString "hello")])))
  = log Registry.warn "Unknown WebSocket message type" A_and_B.
Proof.
  split; [|split].
  - apply (unusable_frame_only_logs 0%nat None A_and_B); reflexivity.
  - apply (unusable_frame_only_logs 0%nat (Some JsNull) A_and_B);
      reflexivity.
  - apply (unusable_frame_only_logs 0%nat
             (Some (JsObject [("type", JsString "hello")])) A_and_B);
      reflexivity.
Defined.

(** X22.  The last registration wins, silently.  When a second open socket
    announces an id that another socket holds, the directory points to the
    second socket; the first socket is told nothing (it has only received
    its own peer list) and stays open; a relay addressed to the id goes to
    the second socket alone. *)
Theorem reregistration_takes_over w1 w2 sender s k from payload st :
  exited st = false -> w1 <> w2 ->
  socket_open st w1 = true -> socket_open st w2 = true ->
  socket_open st sender = true ->
  let st2 := run [EMessage w1 (Some (register_as (JsString s)));
                  EMessage w2 (Some (register_as (JsString s)))] st in
  let data := relay_frame k from (JsString s) payload in
  let st3 := step st2 (EMessage sender (Some data)) in
  websocketClients st2 !! KString s = Some w2 /\
  outbox st2 w1 = (outbox st w1 ++ [peer_list st])%list /\
  socket_open st2 w1 = true /\
  outbox st3 w2 = (outbox st2 w2 ++ [forwarded k data])%list /\
  outbox st3 w1 = outbox st2 w1.
Proof.
  intros Hex Hne Ho1 Ho2 Hos. cbv zeta.
  destruct (open_lookup st w1 Ho1) as (c1 & Hc1 & Hr1).
  destruct (open_lookup st w2 Ho2) as (c2 & Hc2 & Hr2).
  destruct (register_twice w1 w2 (JsString s) s st c1 c2 Hex Hne Hc1 Hr1
              Hc2 Hr2 eq_refl eq_refl) as (Hcl & Hco & Hex2).
  cbn [key_of] in Hcl, Hco.
  set (st2 := run _ st) in *.
  assert (Hopen2 : forall w, socket_open st w = true ->
                             socket_open st2 w = true).
  { intros w Hw. unfold socket_open in *. rewrite Hco.
    destruct (decide (w = w2)) as [->|Hw2];
      [now rewrite lookup_insert_eq|rewrite lookup_insert_ne by auto].
    destruct (decide (w = w1)) as [->|Hw1];
      [now rewrite lookup_insert_eq|now rewrite lookup_insert_ne by auto]. }
  assert (Hbound : websocketClients st2 !! KString s = Some w2)
    by (rewrite Hcl; apply lookup_insert_eq).
  assert (Hout1 : outbox st2 w1 = (outbox st w1 ++ [peer_list st])%list).
  { unfold outbox. rewrite Hco, lookup_insert_ne by auto.
    now rewrite lookup_insert_eq, Hc1. }
  split; [exact Hbound|]. split; [exact Hout1|].
  split; [now apply Hopen2|].
  pose proof (relay_step k (relay_frame k from (JsString s) payload) sender
                st2 Hex2 (Hopen2 _ Hos) (relay_frame_type _ _ _ _)) as Hrelay.
  rewrite relay_frame_to in Hrelay. unfold target_of in Hrelay.
  cbn [lookup_key key_of] in Hrelay. rewrite Hbound in Hrelay.
  rewrite (Hopen2 _ Ho2) in Hrelay. destruct Hrelay as [Hout Hothers].
  split; [exact Hout|]. unfold outbox. now rewrite (Hothers w1).
Qed.

Lemma reregistration_takes_over_witness :
  let st2 := run [EMessage 0 (Some (register_as (JsString "B")));
                  EMessage 1 (Some (register_as (JsString "B")))] A_and_B in
  websocketClients st2 !! KString "B" = Some 1%nat /\
  outbox (step st2 (EMessage 0 (Some (relay_frame Offer (JsString "A")
                                         (JsString "B") (JsString "sdp")))))
         0%nat
  = outbox st2 0%nat.
Proof.
  cbv zeta.
  destruct (reregistration_takes_over 0%nat 1%nat 0%nat "B" Offer
              (JsString "A") (JsString "sdp") A_and_B)
    as (Hbound & _ & _ & _ & Hquiet);
    [reflexivity|discriminate|reflexivity|reflexivity|reflexivity|].
  split; [exact Hbound|exact Hquiet].
Defined.

(** X23.  The close of a replaced socket unbinds its successor.  The close
    callback deletes the directory entry of the id it announced without
    looking at which socket the entry holds: after a second socket took the
    id over, the close of the first one removes the entry, and relays to
    the id are dropped although the second socket is open. *)
Theorem stale_close_unbinds_newer_socket w1 w2 sender s k from payload st :
  exited st = false -> w1 <> w2 -> sender <> w1 -> s <> "" ->
  socket_open st w1 = true -> socket_open st w2 = true ->
  socket_open st sender = true ->
  let st3 := run [EMessage w1 (Some (register_as (JsString s)));
                  EMessage w2 (Some (register_as (JsString s)));
                  EClose w1] st in
  let data := relay_frame k from (JsString s) payload in
  socket_open st3 w2 = true /\
  websocketClients st3 !! KString s = None /\
  dropped st3 (step st3 (EMessage sender (Some data))) (JsString s).
Proof.
  intros Hex Hne Hsender Hs Ho1 Ho2 Hos. cbv zeta.
  destruct (open_lookup st w1 Ho1) as (c1 & Hc1 & Hr1).
  destruct (open_lookup st w2 Ho2) as (c2 & Hc2 & Hr2).
  destruct (register_twice w1 w2 (JsString s) s st c1 c2 Hex Hne Hc1 Hr1
              Hc2 Hr2 eq_refl eq_refl) as (Hcl & Hco & Hex2).
  cbn [key_of] in Hcl, Hco.
  change (run [EMessage w1 (Some (register_as (JsString s)));
               EMessage w2 (Some (register_as (JsString s))); EClose w1] st)
    with (step (run [EMessage w1 (Some (register_as (JsString s)));
                     EMessage w2 (Some (register_as (JsString s)))] st)
               (EClose w1)).
  set (st2 := run _ st) in *.
  assert (Hc1' : connections st2 !! w1 =
            Some (mkConnection OPEN (JsString s) (KString s)
                               (sent c1 ++ [peer_list st]))).
  { rewrite Hco, lookup_insert_ne by auto. apply lookup_insert_eq. }
  rewrite (close_step w1 st2 _ Hex2 Hc1') by discriminate.
  unfold on_close. rewrite Hc1'. cbn [peerId peerKey ToBoolean ToString].
  destruct (String.eqb_spec s "") as [|_]; [contradiction|]. cbn [negb].
  set (st3 := log _ _ _).
  assert (Hco3 : connections st3 =
            <[w1 := mkConnection CLOSED (JsString s) (KString s)
                      (sent c1 ++ [peer_list st])]> (connections st2))
    by reflexivity.
  assert (Hcl3 : websocketClients st3 = delete (KString s)
                   (websocketClients st2)) by reflexivity.
  assert (Hopen3 : forall w, w <> w1 -> socket_open st2 w = true ->
                             socket_open st3 w = true).
  { intros w Hw Hopen. unfold socket_open in *.
    now rewrite Hco3, lookup_insert_ne by auto. }
  assert (Hopen2 : forall w, w <> w1 -> socket_open st w = true ->
                             socket_open st2 w = true).
  { intros w Hw Hopen. unfold socket_open in *. rewrite Hco.
    destruct (decide (w = w2)) as [->|Hw2];
      [now rewrite lookup_insert_eq|].
    now rewrite !lookup_insert_ne by auto. }
  assert (Hgone : websocketClients st3 !! KString s = None)
    by (rewrite Hcl3; apply lookup_delete_eq).
  split; [apply Hopen3, Hopen2; auto|]. split; [exact Hgone|].
  pose proof (relay_step k (relay_frame k from (JsString s) payload) sender
                st3 Hex2 (Hopen3 _ Hsender (Hopen2 _ Hsender Hos))
                (relay_frame_type _ _ _ _)) as Hrelay.
  rewrite relay_frame_to in Hrelay. unfold target_of in Hrelay.
  cbn [lookup_key key_of] in Hrelay. now rewrite Hgone in Hrelay.
Qed.

Lemma stale_close_unbinds_newer_socket_witness :
  let st3 := run [EMessage 0 (Some (register_as (JsString "B")));
                  EMessage 1 (Some (register_as (JsString "B")));
                  EClose 0] A_and_B in
  socket_open st3 1%nat = true /\
  websocketClients st3 !! KString "B" = None.
Proof.
  cbv zeta.
  destruct (stale_close_unbinds_newer_socket 0%nat 1%nat 1%nat "B" Offer
              (JsString "A") (JsString "sdp") A_and_B)
    as (Hopen & Hgone & _);
    [reflexivity|discriminate|discriminate|discriminate|reflexivity
    |reflexivity|reflexivity|].
  split; [exact Hopen|exact Hgone].
Defined.

(** X24.  A falsy id is never unbound.  A socket that registers with an
    empty string, [0], [false], [null] or no [peerId] at all is entered in
    the directory, but its close callback skips the [delete] because the
    id is falsy: the entry stays, pointing to a closed socket. *)
Theorem falsy_peer_id_stays_bound ws v st :
  exited st = false -> socket_open st ws = true ->
  ToBoolean v = false ->
  let st2 := run [EMessage ws (Some (register_as v)); EClose ws] st in
  websocketClients st2 !! key_of 0 v = Some ws /\
  socket_closed st2 ws = true /\
  exited st2 = false.
Proof.
  intros Hex Hopen Hfalsy. cbv zeta.
  destruct (open_lookup st ws Hopen) as (c & Hc & Hr).
  destruct (falsy_printable v Hfalsy) as [[id_s Hid] Hkey].
  unfold run. cbn [fold_left].
  destruct (register_step ws (register_as v) st c id_s Hex Hc Hr
              (register_as_type v) Hid) as (Hcl & Hco & Hex1 & _).
  rewrite register_as_peerId, (Hkey _ 0%nat) in Hcl, Hco.
  set (st1 := step st (EMessage ws (Some (register_as v)))) in *.
  assert (Hc1 : connections st1 !! ws =
            Some (mkConnection OPEN v (key_of 0 v)
                               (sent c ++ [peer_list st])))
    by (rewrite Hco; apply lookup_insert_eq).
  rewrite (close_step ws st1 _ Hex1 Hc1) by discriminate.
  unfold on_close. rewrite Hc1. cbn [peerId]. rewrite Hfalsy.
  cbn [websocketClients set_connections exited]. rewrite Hcl.
  split; [apply lookup_insert_eq|]. split; [|exact Hex1].
  unfold socket_closed. cbn [connections set_connections].
  now rewrite lookup_insert_eq.
Qed.

Lemma falsy_peer_id_stays_bound_witness :
  let st2 := run [EMessage 0 (Some (register_as (JsString "")));
                  EClose 0] A_and_B in
  websocketClients st2 !! KString "" = Some 0%nat /\
  socket_closed st2 0%nat = true.
Proof.
  cbv zeta.
  destruct (falsy_peer_id_stays_bound 0%nat (JsString "") A_and_B)
    as (Hbound & Hclosed & _); [reflexivity|reflexivity|reflexivity|].
  split; [exact Hbound|exact Hclosed].
Defined.

(** X25.  Socket events never write the registry.  Whatever frames arrive
    and whatever sockets open or close, the [peers] map and the three
    counters stay as they were, and the log only grows. *)
Theorem socket_events_leave_registry evs st :
  Registry.peers (registry (run evs st)) = Registry.peers (registry st) /\
  Registry.serverStats (registry (run evs st))
    = Registry.serverStats (registry st) /\
  exists more, logs_of (run evs st) = (logs_of st ++ more)%list.
Proof. apply same_store_run. Qed.

(** X26.  An id that cannot be printed stops the server.  A [register]
    frame whose [peerId] is an object with an own [toString] property is
    stored before the log line throws; the [catch] hides that.  When the
    socket closes, the same conversion throws outside any [try], the
    [uncaughtException] handler exits the process, and no later request,
    timer or frame is handled. *)
Theorem unprintable_peer_id_stops_server ws data e st evs :
  exited st = false -> socket_open st ws = true ->
  get_prop data "type" = Ok (JsString "register") ->
  ToString (field data "peerId") = Throw e ->
  let st2 := run [EMessage ws (Some data); EClose ws] st in
  exited st2 = true /\
  outbox st2 ws = outbox st ws /\
  Server.react_all (Server.Socket (EMessage ws (Some data))
              :: Server.Socket (EClose ws) :: evs) st = (st2, []).
Proof.
  intros Hex Hopen Htype Hid. cbv zeta.
  destruct (open_lookup st ws Hopen) as (c & Hc & Hr).
  assert (Hrun : exited (run [EMessage ws (Some data); EClose ws] st) = true
                 /\ outbox (run [EMessage ws (Some data); EClose ws] st) ws
                    = outbox st ws).
  { unfold run. cbn [fold_left].
    destruct (register_unprintable_step ws data st c e Hex Hc Hr Htype Hid)
      as (Hcl & Hco & Hex1 & _).
    set (st1 := step st (EMessage ws (Some data))) in *.
    assert (Hc1 : connections st1 !! ws =
              Some (mkConnection OPEN (field data "peerId")
                      (key_of (next_ref st) (field data "peerId")) (sent c)))
      by (rewrite Hco; apply lookup_insert_eq).
    rewrite (close_step ws st1 _ Hex1 Hc1) by discriminate.
    unfold on_close. rewrite Hc1. cbn [peerId].
    rewrite (throws_truthy _ _ Hid), Hid. split; [reflexivity|].
    unfold outbox. cbn [connections set_connections set_clients log].
    now rewrite lookup_insert_eq, Hc. }
  destruct Hrun as [Hexit Hout]. split; [exact Hexit|]. split; [exact Hout|].
  change (Server.Socket (EMessage ws (Some data))
          :: Server.Socket (EClose ws) :: evs)
    with (List.map Server.Socket [EMessage ws (Some data); EClose ws]
          ++ evs)%list.
  rewrite react_all_app, react_all_sockets.
  now rewrite (react_all_exited evs _ Hexit).
Qed.

Lemma unprintable_peer_id_stops_server_witness :
  let st2 := run [EMessage 0 (Some (register_as unprintable_id)); EClose 0]
                 A_and_B in
  exited st2 = true /\
  Server.react_all [Server.Socket (EMessage 0 (Some (register_as unprintable_id)));
              Server.Socket (EClose 0);
              Server.Http 2000000 (Server.Routed "GET" "/health"
                                                 Server.GetHealth)]
             A_and_B = (st2, []).
Proof.
  cbv zeta.
  destruct (unprintable_peer_id_stops_server 0%nat
              (register_as unprintable_id)
              "TypeError: Cannot convert object to primitive value" A_and_B
              [Server.Http 2000000 (Server.Routed "GET" "/health"
                                                  Server.GetHealth)])
    as (Hexit & _ & Hrun); [reflexivity|reflexivity|reflexivity|reflexivity|].
  split; [exact Hexit|exact Hrun].
Defined.

End SocketTheorems.

(* ===================================================================== *)
(** * Counters, writes and the server as a whole                         *)
(* ===================================================================== *)

Module CounterFacts.
Import Js Registry RegistrySpec RegistryMore JsFacts RegistryFacts.
Import SweepFacts RegisterFacts InvariantFacts DecimalFacts.
Import LifecycleFacts ListingFacts Server ServerFacts.

(** ** Counters, handler by handler *)

Lemma post_register_counted req now st :
  counted (ARegister (fst (post_register req now st))) st
          (snd (post_register req now st)).
Proof.
  unfold counted.
  destruct (post_register req now st) as [[m rp net|e d|e] st'] eqn:H;
    cbn [fst snd]; simpl (bump _).
  - apply register_200_inv in H
      as (id_s & ip_s & pn & stored & _ & _ & _ & _ & -> & _).
    cbn. lia.
  - apply register_400_lists_violations in H as [-> _]. lia.
  - unfold post_register, register_try in H.
    destruct (validatePeerData _ _ _) as [errs|]; cbn [bind] in H.
    + destruct errs; [|discriminate].
      destruct (body_id req); try (injection H as _ <-; cbn; lia).
      destruct (body_ip req); try (injection H as _ <-; cbn; lia).
      destruct (parseInt (body_port req)); cbn [bind] in H;
        [discriminate|injection H as _ <-; cbn; lia].
    + injection H as _ <-. cbn. lia.
Qed.

Lemma dispatch_counted r now st :
  counted (fst (dispatch r now st)) st (snd (dispatch r now st)).
Proof.
  destruct r as [req|q|k| |k|k| | |]; cbn [dispatch].
  - pose proof (post_register_counted req now st).
    now destruct (post_register req now st).
  - unfold get_peers. destruct (peers_try q now st); unfold counted; cbn; lia.
  - unfold get_peer. destruct (map_get k (peers st)); unfold counted; cbn; lia.
  - unfold counted; cbn; lia.
  - unfold delete_peer. destruct (map_has k (peers st)); cbn [negb];
      [destruct (map_get k (peers st))|]; unfold counted; cbn; lia.
  - unfold post_heartbeat. destruct (map_get k (peers st));
      unfold counted; cbn; lia.
  - unfold counted; cbn; lia.
  - unfold counted; cbn; lia.
  - unfold counted; cbn; lia.
Qed.

(** The three counters after one request. *)
Lemma serve_counters rq now st :
  let a := fst (serve rq now st) in
  let st' := snd (serve rq now st) in
  totalRequests (serverStats st')
    = totalRequests (serverStats st) + bump (logged rq) /\
  errors (serverStats st')
    = errors (serverStats st) + bump (is_server_error a) /\
  totalRegistrations (serverStats st')
    = totalRegistrations (serverStats st) + bump (is_registration a).
Proof.
  cbv zeta. destruct rq as [m p r|m p|]; cbn [serve logged].
  - destruct (dispatch_counted r now (log_request m p st)) as (H1 & H2 & H3).
    rewrite H1, H2, H3. cbn. lia.
  - cbn. lia.
  - cbn. lia.
Qed.

Lemma cleanup_loop_stats now entries : forall st n,
  serverStats (fst (cleanup_loop now entries st n)) = serverStats st.
Proof.
  induction entries as [|[k p] rest IH]; intros st n; cbn [cleanup_loop];
    [reflexivity|].
  destruct (is_stale now p); now rewrite IH.
Qed.

Lemma cleanup_stats now st :
  serverStats (cleanupInactivePeers now st) = serverStats st.
Proof.
  unfold cleanupInactivePeers.
  pose proof (cleanup_loop_stats now (peers st) st 0) as H.
  destruct (cleanup_loop now (peers st) st 0) as [st1 n]. cbn [fst] in H.
  now destruct (n >? 0).
Qed.

Lemma count_app f a b : count f (a ++ b) = count f a + count f b.
Proof. unfold count. rewrite List.filter_app, length_app. lia. Qed.

Lemma count_nil f : count f [] = 0.
Proof. reflexivity. Qed.

Lemma count_one f a : count f [a] = bump (f a).
Proof. unfold count. cbn. now destruct (f a). Qed.

Lemma served_nil f : served f [] = 0.
Proof. reflexivity. Qed.

Lemma served_app f a b : served f (a ++ b) = served f a + served f b.
Proof. unfold served. rewrite List.filter_app, length_app. lia. Qed.

Lemma served_one f rq : served f [rq] = bump (f rq).
Proof. unfold served. cbn. now destruct (f rq). Qed.

(** The counters after any sequence of callbacks, and one answer per handled
    request. *)
Lemma react_all_counters evs : forall st,
  let st' := Signaling.registry (fst (react_all evs st)) in
  let answers := snd (react_all evs st) in
  totalRequests (serverStats st')
    = totalRequests (serverStats (Signaling.registry st))
      + served logged (handled evs st) /\
  errors (serverStats st')
    = errors (serverStats (Signaling.registry st))
      + count is_server_error answers /\
  totalRegistrations (serverStats st')
    = totalRegistrations (serverStats (Signaling.registry st))
      + count is_registration answers /\
  List.length answers = List.length (handled evs st).
Proof.
  induction evs as [|ev evs IH]; intros st; cbv zeta;
    [cbn [react_all handled fst snd]; rewrite !count_nil, served_nil;
     repeat split; lia|].
  cbn [react_all handled]. specialize (IH (fst (react st ev))).
  cbv zeta in IH. rewrite served_app, length_app.
  assert (Hstep :
    totalRequests (serverStats (Signaling.registry (fst (react st ev))))
      = totalRequests (serverStats (Signaling.registry st))
        + served logged
            (if Signaling.exited st then []
             else match ev with Http _ rq => [rq] | _ => [] end) /\
    errors (serverStats (Signaling.registry (fst (react st ev))))
      = errors (serverStats (Signaling.registry st))
        + count is_server_error (snd (react st ev)) /\
    totalRegistrations
        (serverStats (Signaling.registry (fst (react st ev))))
      = totalRegistrations (serverStats (Signaling.registry st))
        + count is_registration (snd (react st ev)) /\
    List.length (snd (react st ev))
      = List.length (if Signaling.exited st then []
                     else match ev with Http _ rq => [rq] | _ => [] end)).
  { unfold react. destruct (Signaling.exited st);
      [cbn [fst snd]; rewrite !count_nil, served_nil; repeat split; lia|].
    destruct ev as [now rq|now|ev].
    - pose proof (serve_counters rq now (Signaling.registry st)) as H.
      cbv zeta in H.
      destruct (serve rq now (Signaling.registry st)) as [a reg].
      cbn [fst snd with_registry Signaling.registry] in *.
      rewrite !count_one, served_one. repeat split; tauto.
    - cbn [fst snd with_registry Signaling.registry].
      rewrite cleanup_stats, !count_nil, served_nil. repeat split; lia.
    - cbn [fst snd].
      destruct (SocketFacts.same_store_step st ev) as (_ & -> & _).
      rewrite !count_nil, served_nil. repeat split; lia. }
  destruct (react st ev) as [st1 a]. cbn [fst snd] in *.
  destruct (react_all evs st1) as [st2 b]. cbn [fst snd] in *.
  rewrite !count_app, length_app. repeat split; lia.
Qed.

(** ** Which answers go with a write *)

Lemma dispatch_writes r now st :
  is_write (fst (dispatch r now st)) = false ->
  peers (snd (dispatch r now st)) = peers st.
Proof.
  destruct r as [req|q|k| |k|k| | |]; cbn [dispatch]; try reflexivity.
  - pose proof (register_failure_keeps_registry req now st) as H.
    destruct (post_register req now st) as [[m rp net|e d|e] st'];
      cbn [fst snd is_write] in *; [discriminate|..]; intros _;
      apply H; discriminate.
  - intros _. pose proof (get_peers_peers q now st).
    now destruct (get_peers q now st).
  - intros _. pose proof (get_peer_state k st).
    destruct (get_peer k st). cbn [snd] in *. now subst.
  - unfold delete_peer. destruct (map_has k (peers st)); cbn [negb];
      [destruct (map_get k (peers st))|]; cbn; congruence.
  - unfold post_heartbeat. destruct (map_get k (peers st)); cbn; congruence.
Qed.

Lemma not_200_not_write a : status_code a <> 200 -> is_write a = false.
Proof.
  destruct a as [[]|[]|[]| |[]|[]| | | |]; cbn; congruence.
Qed.

(** ** [GET /status] against [GET /peers] *)

Lemma active_count_le now (m : JsMap Peer) :
  Z.of_nat (List.length (List.filter (is_active now) (map_values m)))
  <= map_size m.
Proof.
  unfold map_size. apply inj_le.
  etransitivity; [apply filter_length_le|].
  unfold map_values. now rewrite length_map.
Qed.

Lemma filter_true {A : Type} (l : list A) :
  List.filter (fun _ => true) l = l.
Proof. induction l; cbn; congruence. Qed.

End CounterFacts.

Module ServerTheorems.
Import Js Registry RegistrySpec RegistryMore JsFacts RegistryFacts.
Import SweepFacts RegisterFacts InvariantFacts DecimalFacts.
Import LifecycleFacts ListingFacts Server ServerFacts CounterFacts.

(** X27.  The data-model invariant holds in every state the server can
    reach.  Starting from the empty registry, any interleaving of HTTP
    requests (through the logging middleware or the error handler), timer
    sweeps and socket events leaves one entry per id, every record stored
    under its own id and every [connectionCount >= 1]; and the same from
    any state that satisfies the invariant. *)
Theorem reachable_states_keep_invariant evs :
  (forall t, registry_ok (Signaling.registry (fst (react_all evs (boot t))))) /\
  forall st,
    registry_ok (Signaling.registry st) ->
    registry_ok (Signaling.registry (fst (react_all evs st))).
Proof.
  split.
  - intros t. apply react_all_ok. split; constructor.
  - intros st. apply react_all_ok.
Qed.

Lemma reachable_states_keep_invariant_witness :
  registry_ok
    (Signaling.registry
       (fst (react_all [Http sample_now
                       (Routed "POST" "/register"
                               (PostRegister sample_request));
                  Tick sample_now;
                  Http sample_now
                       (Routed "DELETE" "/peers/peer_3min_0002"
                               (DeletePeer "peer_3min_0002"))]
                 (Signaling.initial aged_state)))).
Proof.
  apply reachable_states_keep_invariant.
  split; [literal_wf|]. repeat constructor; cbn; lia.
Defined.

(** X28.  The counters account for the requests.  Over any interleaving of
    requests, sweeps and socket events, every handled request gets one
    answer; [totalRequests] grows by the number of handled requests that
    passed the logging middleware, whether a route answered them or the
    router failed on them afterwards and the error handler answered (a
    request stopped by an earlier middleware is not counted); [errors] grows
    by the number of 500 answers, and [totalRegistrations] by the number of
    200 answers of [POST /register]; 400 and 404 answers, sweeps and socket
    events touch no counter. *)
Theorem counters_account_for_answers evs st :
  List.length (snd (react_all evs st)) = List.length (handled evs st) /\
  totalRequests (serverStats (Signaling.registry (fst (react_all evs st))))
    = totalRequests (serverStats (Signaling.registry st))
      + served logged (handled evs st) /\
  errors (serverStats (Signaling.registry (fst (react_all evs st))))
    = errors (serverStats (Signaling.registry st))
      + count is_server_error (snd (react_all evs st)) /\
  totalRegistrations (serverStats (Signaling.registry (fst (react_all evs st))))
    = totalRegistrations (serverStats (Signaling.registry st))
      + count is_registration (snd (react_all evs st)).
Proof.
  destruct (react_all_counters evs st) as (H1 & H2 & H3 & H4).
  repeat split; assumption.
Qed.

(** A request with a malformed percent-escape is counted by the logging
    middleware and answered by the error handler: [totalRequests] and
    [errors] both grow by one. *)
Example undecodable_path_counted_and_failed :
  let st := fst (react_all [Http sample_now
                              (Unroutable "GET" "/peers/%E0%A4%A")]
                           (boot 0)) in
  snd (react_all [Http sample_now (Unroutable "GET" "/peers/%E0%A4%A")]
                 (boot 0)) = [AUnhandled] /\
  totalRequests (serverStats (Signaling.registry st)) = 1 /\
  errors (serverStats (Signaling.registry st)) = 1.
Proof. repeat split. Qed.

(** X29.  [GET /status] agrees with [GET /peers].  Its [totalPeers] is the
    sum of [activePeers] and [inactivePeers], [activePeers] lies between 0
    and [totalPeers] and equals the [total] of [GET /peers?active=true] at
    the same instant, [totalPeers] equals the [total] of an unfiltered
    [GET /peers], and the handler changes nothing. *)
Theorem status_agrees_with_listing now st :
  let net := st_network (fst (get_status now st)) in
  snd (get_status now st) = st /\
  ns_totalPeers net = ns_activePeers net + ns_inactivePeers net /\
  0 <= ns_activePeers net <= ns_totalPeers net /\
  (exists d, get_peers active_query now st = (Peers200 d, st) /\
             total (r_pagination d) = ns_activePeers net) /\
  (exists d, get_peers no_filter now st = (Peers200 d, st) /\
             total (r_pagination d) = ns_totalPeers net).
Proof.
  cbv zeta. cbn [get_status fst snd st_network ns_totalPeers ns_activePeers
                 ns_inactivePeers].
  split; [reflexivity|]. split; [lia|].
  split; [split; [lia|apply active_count_le]|].
  split.
  - destruct (get_peers active_query now st) as [[d|e] st'] eqn:H;
      [|unfold get_peers, peers_try in H; cbn in H; discriminate].
    destruct (get_peers_lists_matching _ _ _ _ _ H) as (-> & Htotal & _).
    exists d. split; [reflexivity|]. rewrite Htotal. do 2 f_equal.
    apply List.filter_ext. intros p. unfold matches_query. cbn.
    now rewrite !andb_true_r.
  - destruct (get_peers no_filter now st) as [[d|e] st'] eqn:H;
      [|unfold get_peers, peers_try in H; cbn in H; discriminate].
    destruct (get_peers_lists_matching _ _ _ _ _ H) as (-> & Htotal & _).
    exists d. split; [reflexivity|]. rewrite Htotal.
    unfold map_size, map_values. rewrite <- (length_map snd (peers st)).
    do 2 f_equal. rewrite <- (filter_true (List.map snd (peers st))) at 2.
    apply List.filter_ext. intros p. reflexivity.
Qed.

(** X30.  The registry changes only with a successful write.  A request
    whose answer is not the 200 of [POST /register], [DELETE /peers/:id] or
    the heartbeat leaves the [peers] map as it was: every [GET], every 400,
    404 and 500 answer, the unknown-route answer and the error handler. *)
Theorem registry_changes_only_on_writes rq now st :
  (is_write (fst (serve rq now st)) = false ->
   peers (snd (serve rq now st)) = peers st) /\
  (status_code (fst (serve rq now st)) <> 200 ->
   peers (snd (serve rq now st)) = peers st).
Proof.
  assert (H : is_write (fst (serve rq now st)) = false ->
              peers (snd (serve rq now st)) = peers st).
  { destruct rq as [m p r|m p|]; cbn [serve]; [|reflexivity|reflexivity].
    intros Hw. now rewrite dispatch_writes. }
  split; [exact H|]. intros Hcode. apply H. now apply not_200_not_write.
Qed.

Lemma registry_changes_only_on_writes_witness :
  peers (snd (serve (Routed "POST" "/register"
                            (PostRegister numeric_ip_request))
                    sample_now aged_state))
  = peers aged_state /\
  peers (snd (serve (Routed "GET" "/status" GetStatus) sample_now aged_state))
  = peers aged_state.
Proof.
  split.
  - apply (proj2 (registry_changes_only_on_writes
                    (Routed "POST" "/register"
                            (PostRegister numeric_ip_request))
                    sample_now aged_state)).
    vm_compute. discriminate.
  - apply (proj1 (registry_changes_only_on_writes
                    (Routed "GET" "/status" GetStatus)
                    sample_now aged_state)).
    reflexivity.
Defined.

End ServerTheorems.

(* ===================================================================== *)
(** * Registration, lookup and removal                                   *)
(* ===================================================================== *)

Module RegistrationTheorems.
Import Js Registry RegistrySpec RegistryMore JsFacts RegistryFacts.
Import SweepFacts RegisterFacts InvariantFacts DecimalFacts.
Import LifecycleFacts ListingFacts.

(** X1.  [POST /register] answers 200 exactly when the id is a string of at
    least 10 characters, the ip is a non-empty string that is a dotted quad
    or contains a colon, and the port converts to a number in 1..65535, the
    conversion of a string rounding to binary64 as [Number] does. *)
Theorem registration_accepted_iff_valid req now st :
  (exists message peer network st',
     post_register req now st = (Register200 message peer network, st')) <->
  id_valid (body_id req) = true /\ ip_valid (body_ip req) = true /\
  port_valid (body_port req) = true.
Proof. apply register_succeeds_iff_valid. Qed.

(** X2.  A 400 answer of [POST /register] leaves the whole state as it was
    and its [details] name every violated constraint and no other: the id
    message iff the id is invalid, one of the two ip messages iff the ip is
    invalid, the port message iff the port is invalid. *)
Theorem validation_failure_names_every_violation
  req now st error_text details st' :
  post_register req now st = (Register400 error_text details, st') ->
  st' = st /\ error_text = "Validation failed" /\ details <> [] /\
  (In "Invalid peer ID" details <-> id_valid (body_id req) = false) /\
  (In "Invalid IP address" details \/ In "Invalid IP address format" details
   <-> ip_valid (body_ip req) = false) /\
  (In "Invalid port number" details <-> port_valid (body_port req) = false).
Proof.
  intros H.
  destruct (register_400_lists_violations _ _ _ _ _ _ H) as (H1 & H2 & H3).
  split; [exact H1|]. split; [|split; assumption].
  unfold post_register, register_try in H.
  destruct (validatePeerData _ _ _) as [errs|]; cbn [bind] in H;
    [|discriminate].
  destruct errs; [|now injection H].
  destruct (body_id req); try discriminate.
  destruct (body_ip req); try discriminate.
  destruct (parseInt (body_port req)); discriminate.
Qed.

Lemma validation_failure_names_every_violation_witness :
  exists details,
    post_register
      (mkRegisterRequest (JsString "short") (JsString "192.168.1.100")
                         (JsNumber 0) JsUndefined JsUndefined JsUndefined
                         None "::1")
      1000 aged_state
    = (Register400 "Validation failed" details, aged_state) /\
    In "Invalid peer ID" details /\ In "Invalid port number" details /\
    ~ (In "Invalid IP address" details
       \/ In "Invalid IP address format" details).
Proof.
  eexists. split; [vm_compute; reflexivity|].
  edestruct (validation_failure_names_every_violation
               (mkRegisterRequest (JsString "short")
                  (JsString "192.168.1.100") (JsNumber 0) JsUndefined
                  JsUndefined JsUndefined None "::1") 1000 aged_state)
    as (_ & _ & _ & Hid & Hip & Hport); [vm_compute; reflexivity|].
  split; [apply Hid; reflexivity|]. split; [apply Hport; reflexivity|].
  intros H. apply Hip in H. vm_compute in H. discriminate.
Defined.

(** X3.  What a registration writes, by answer.  200: the record is [set]
    in the map, [totalRegistrations] grows by one, one [info] line is logged
    and [errors] is untouched.  400: nothing at all.  500: the map is
    untouched, [errors] grows by one and one [error] line is logged. *)
Theorem registration_effects req now st :
  let st' := snd (post_register req now st) in
  match fst (post_register req now st) with
  | Register200 _ _ _ =>
      (exists id_s stored,
         body_id req = JsString id_s /\
         peers st' = map_set id_s stored (peers st)) /\
      totalRegistrations (serverStats st')
        = totalRegistrations (serverStats st) + 1 /\
      errors (serverStats st') = errors (serverStats st) /\
      exists msg, logs st' = (logs st ++ [(info, msg)])%list
  | Register400 _ _ => st' = st
  | Register500 _ =>
      peers st' = peers st /\
      errors (serverStats st') = errors (serverStats st) + 1 /\
      totalRegistrations (serverStats st')
        = totalRegistrations (serverStats st) /\
      logs st' = (logs st ++ [(error, "Registration error:")])%list
  end.
Proof.
  cbv zeta.
  destruct (post_register req now st) as [[m rp net|e d|e] st'] eqn:H;
    cbn [fst snd].
  - apply register_200_inv in H
      as (id_s & ip_s & pn & stored & Hid & _ & _ & _ & -> & _).
    split; [now exists id_s, stored|]. cbn. repeat split; eauto.
  - now apply register_400_lists_violations in H.
  - unfold post_register, register_try in H.
    destruct (validatePeerData _ _ _) as [errs|]; cbn [bind] in H.
    + destruct errs; [|discriminate].
      destruct (body_id req); try (injection H as _ <-; now cbn).
      destruct (body_ip req); try (injection H as _ <-; now cbn).
      destruct (parseInt (body_port req)); cbn [bind] in H;
        [discriminate|injection H as _ <-; now cbn].
    + injection H as _ <-. now cbn.
Qed.

(** X4.  [DELETE /peers/:id] on a stored id answers 200 with the record's id
    and name, removes exactly that record (a later lookup answers 404, every
    other id is found as before, the map has one entry less) and logs one
    line. *)
Theorem delete_removes_record id st p :
  map_wf (peers st) ->
  map_get id (peers st) = Some p ->
  exists st',
    delete_peer id st =
      (Delete200 "Peer unregistered successfully" (Registry.id p) (name p),
       st') /\
    get_peer id st' = (Peer404 "Peer not found", st') /\
    (forall other, other <> id ->
       map_get other (peers st') = map_get other (peers st)) /\
    map_size (peers st') = map_size (peers st) - 1 /\
    serverStats st' = serverStats st /\
    logs st' = (logs st ++ [(info, "Unregistered peer: " +:+ id)])%list.
Proof.
  intros Hwf Hget. unfold delete_peer, map_has. rewrite Hget. cbn [negb].
  eexists. split; [reflexivity|].
  unfold get_peer. cbn [peers logger set_peers serverStats logs].
  rewrite map_get_delete_eq. repeat split.
  - intros other Hne. apply map_get_delete_ne. congruence.
  - now apply (map_delete_size_present id p).
Qed.

Lemma delete_removes_record_witness :
  map_wf (peers aged_state) /\
  map_get "peer_3min_0002" (peers aged_state)
  = Some (sample_peer "peer_3min_0002" "curl" 820000) /\
  exists st',
    delete_peer "peer_3min_0002" aged_state =
      (Delete200 "Peer unregistered successfully" "peer_3min_0002"
                 (JsString "Test Node"), st') /\
    map_size (peers st') = 3.
Proof.
  assert (Hwf : map_wf (peers aged_state)) by literal_wf.
  split; [exact Hwf|]. split; [reflexivity|].
  destruct (delete_removes_record "peer_3min_0002" aged_state _ Hwf eq_refl)
    as (st' & Hrun & _ & _ & Hsize & _).
  exists st'. split; [exact Hrun|exact Hsize].
Defined.

(** X5.  Register, then look up.  After a 200 answer, [GET /peers/:id] for
    the registered id answers 200 with the id and ip of the request, the
    name, version, capabilities and [registeredAt] that the registration
    echoed, and [lastSeen = now]; the port is [parseInt] of the port sent,
    so a port sent as an integer JSON number comes back as that integer,
    and it lies in 1..65535. *)
Theorem register_then_get req now st message rp net st' :
  post_register req now st = (Register200 message rp net, st') ->
  exists id_s ip_s view,
    body_id req = JsString id_s /\ body_ip req = JsString ip_s /\
    get_peer id_s st' = (Peer200 view, st') /\
    pp_id view = id_s /\ pp_ip view = ip_s /\ pp_lastSeen view = now /\
    pp_name view = rp_name rp /\ pp_version view = rp_version rp /\
    pp_capabilities view = rp_capabilities rp /\
    pp_registeredAt view = rp_registeredAt rp /\
    rp_id rp = id_s /\
    parseInt (body_port req) = Ok (pp_port view) /\
    (forall n, body_port req = JsNumber n ->
               pp_port view = Some n /\ 1 <= n <= 65535).
Proof.
  intros H. apply register_200_inv in H
    as (id_s & ip_s & pn & stored & Hid & Hip & Hport & Hv & -> & _ & -> & _
        & Hsid & Hsip & Hsport & Hseen & _).
  exists id_s, ip_s, (public_view stored).
  split; [exact Hid|]. split; [exact Hip|].
  unfold get_peer. cbn [peers logger count_registration set_peers].
  rewrite map_get_set_eq. split; [reflexivity|].
  cbn. repeat split; auto.
  - now rewrite Hsport.
  - rewrite Hsport. rewrite H in Hport. rewrite parseInt_number in Hport.
    congruence.
  - apply validate_ok_valid in Hv as (_ & _ & Hp). rewrite H in Hp.
    rewrite port_valid_number in Hp. lia.
  - apply validate_ok_valid in Hv as (_ & _ & Hp). rewrite H in Hp.
    rewrite port_valid_number in Hp. lia.
Qed.

Lemma register_then_get_witness :
  exists message rp net st' view,
    post_register (request_for "peer_alpha_01") sample_now aged_state
    = (Register200 message rp net, st') /\
    get_peer "peer_alpha_01" st' = (Peer200 view, st') /\
    pp_port view = Some 4001 /\ pp_lastSeen view = sample_now /\
    view =
      {| pp_id := "peer_alpha_01"; pp_ip := "10.1.2.3"; pp_port := Some 4001;
         pp_name := JsString "Peer-peer_alp"; pp_version := JsString "1.0.0";
         pp_capabilities := [JsString "webrtc"]; pp_lastSeen := sample_now;
         pp_registeredAt := sample_now; pp_connectionCount := 1 |}.
Proof.
  edestruct (register_then_get (request_for "peer_alpha_01") sample_now
               aged_state)
    as (id_s & ip_s & view & Hid & _ & Hget & _ & _ & Hseen & _ & _ & _ & _
        & _ & _ & Hport); [vm_compute; reflexivity|].
  injection Hid as <-.
  eexists _, _, _, _, view. split; [vm_compute; reflexivity|].
  split; [exact Hget|]. split; [apply (Hport 4001); reflexivity|].
  split; [exact Hseen|].
  assert (Hview := Hget). vm_compute in Hview. injection Hview as Hview.
  rewrite <- Hview. reflexivity.
Defined.

(** X6.  The network summary of a 200 registration: [totalPeers] is the size
    of the map after the write, one more than before for a new id and the
    same for a known id; [activePeers] counts the registered peer itself, so
    it is at least 1, and never exceeds [totalPeers]. *)
Theorem register_network_summary req now st message rp net st' :
  post_register req now st = (Register200 message rp net, st') ->
  totalPeers net = map_size (peers st') /\
  (exists id_s,
     body_id req = JsString id_s /\
     totalPeers net =
       map_size (peers st) + (if map_has id_s (peers st) then 0 else 1) /\
     message = "Peer " +:+ (if map_has id_s (peers st) then "updated"
                            else "registered") +:+ " successfully") /\
  1 <= activePeers net <= totalPeers net.
Proof.
  intros H. apply register_200_inv in H
    as (id_s & ip_s & pn & stored & Hid & _ & _ & _ & -> & -> & _ & -> & _
        & _ & _ & Hseen & _).
  cbn [totalPeers activePeers peers logger count_registration set_peers].
  split; [reflexivity|]. split.
  { exists id_s. split; [exact Hid|]. split; [apply map_set_size|reflexivity]. }
  set (m := map_set id_s stored (peers st)).
  assert (Hin : In stored (List.filter (is_active now) (map_values m))).
  { apply filter_In. split.
    - apply (map_get_values id_s). apply map_get_set_eq.
    - unfold is_active, activeThreshold. rewrite Hseen.
      apply Z.ltb_lt. lia. }
  split.
  - destruct (List.filter (is_active now) (map_values m));
      [contradiction|cbn [List.length]; lia].
  - unfold map_size. apply inj_le.
    etransitivity; [apply filter_length_le|].
    unfold map_values. now rewrite length_map.
Qed.

Lemma register_network_summary_witness :
  exists message rp net st',
    post_register (request_for "peer_alpha_01") sample_now aged_state
    = (Register200 message rp net, st') /\
    totalPeers net = 5 /\ 1 <= activePeers net <= 5.
Proof.
  eexists _, _, _, _. split; [vm_compute; reflexivity|].
  edestruct (register_network_summary (request_for "peer_alpha_01")
               sample_now aged_state)
    as (Htotal & _ & Hactive); [vm_compute; reflexivity|].
  split; [reflexivity|exact Hactive].
Defined.

End RegistrationTheorems.

(* ===================================================================== *)
(** * Heartbeat and sweep                                                *)
(* ===================================================================== *)

Module LifecycleTheorems.
Import Js Registry RegistrySpec RegistryMore JsFacts RegistryFacts.
Import SweepFacts RegisterFacts InvariantFacts DecimalFacts.
Import LifecycleFacts ListingFacts.

(** X7.  A removed record leaves no trace.  After [DELETE /peers/:id], or
    after a sweep that found the record stale, the next valid registration
    of the same id is answered as a new one: "Peer registered successfully",
    [connectionCount = 1] and [registeredAt = now], whatever the record's
    count and first registration time were. *)
Theorem removed_record_registers_as_new req now t st id_s p st1 :
  map_wf (peers st) ->
  request_valid req = true ->
  body_id req = JsString id_s ->
  map_get id_s (peers st) = Some p ->
  st1 = snd (delete_peer id_s st) \/
  (is_stale t p = true /\ st1 = cleanupInactivePeers t st) ->
  exists rp net stored st2,
    post_register req now st1 =
      (Register200 "Peer registered successfully" rp net, st2) /\
    map_get id_s (peers st2) = Some stored /\
    connectionCount stored = 1 /\
    registeredAt stored = now.
Proof.
  intros Hwf Hvalid Hid Hget Hst1.
  assert (Hgone : map_get id_s (peers st1) = None).
  { destruct Hst1 as [->|[Hstale ->]].
    - unfold delete_peer, map_has. rewrite Hget.
      cbn [negb snd peers logger set_peers]. apply map_get_delete_eq.
    - rewrite cleanup_get by assumption. now rewrite Hget, Hstale. }
  destruct (register_new req now st1 id_s Hvalid Hid Hgone)
    as (rp & net & stored & Hrun & Hstored & Hc & Hr & _).
  now exists rp, net, stored, (snd (post_register req now st1)).
Qed.

Lemma removed_record_registers_as_new_witness :
  exists rp net stored st2,
    post_register (request_for "peer_5m01_0004") 2000000
                  (cleanupInactivePeers sample_now aged_state) =
      (Register200 "Peer registered successfully" rp net, st2) /\
    map_get "peer_5m01_0004" (peers st2) = Some stored /\
    connectionCount stored = 1 /\
    registeredAt stored = 2000000.
Proof.
  apply (removed_record_registers_as_new
           (request_for "peer_5m01_0004") 2000000 sample_now aged_state
           "peer_5m01_0004" (sample_peer "peer_5m01_0004" "curl" 699000)).
  - literal_wf.
  - reflexivity.
  - reflexivity.
  - reflexivity.
  - right. split; reflexivity.
Defined.

(** X8.  The same valid registration handled [n] times on a registry that
    does not hold its id leaves one record, with [connectionCount = n],
    [registeredAt] the time of the first and [lastSeen] the time of the last
    registration. *)
Theorem repeated_registration_counts req id_s t0 ts st :
  request_valid req = true ->
  body_id req = JsString id_s ->
  map_get id_s (peers st) = None ->
  exists stored,
    map_get id_s (peers (register_at_times req (t0 :: ts) st)) = Some stored /\
    connectionCount stored = Z.of_nat (List.length (t0 :: ts)) /\
    registeredAt stored = t0 /\
    lastSeen stored = List.last ts t0 /\
    map_size (peers (register_at_times req (t0 :: ts) st))
      = map_size (peers st) + 1.
Proof.
  intros Hvalid Hid Hget.
  destruct (register_new req t0 st id_s Hvalid Hid Hget)
    as (rp & net & s1 & _ & Hget1 & Hc1 & Hr1 & Hs1 & Hsize1).
  destruct (register_again_times req id_s ts _ s1 Hvalid Hid Hget1
              ltac:(lia))
    as (s2 & Hget2 & Hc2 & Hr2 & Hs2 & Hsize2).
  exists s2. change (register_at_times req (t0 :: ts) st)
    with (register_at_times req ts (snd (post_register req t0 st))).
  split; [exact Hget2|]. split; [cbn [List.length]; lia|].
  split; [congruence|]. split; congruence.
Qed.

Lemma repeated_registration_counts_witness :
  exists stored,
    map_get "peer_alpha_01"
      (peers (register_at_times (request_for "peer_alpha_01")
                [1000; 2000; 3000] aged_state)) = Some stored /\
    connectionCount stored = 3 /\ registeredAt stored = 1000 /\
    lastSeen stored = 3000.
Proof.
  destruct (repeated_registration_counts (request_for "peer_alpha_01")
              "peer_alpha_01" 1000 [2000; 3000] aged_state
              eq_refl eq_refl eq_refl)
    as (stored & Hget & Hc & Hr & Hs & _).
  exists stored. repeat split; assumption.
Defined.

(** X9.  Heartbeat against the sweep.  A heartbeat at time [t] keeps the
    record through every sweep that runs no later than five minutes after
    [t]; a record the sweep has removed is not revived by a heartbeat, which
    answers 404 and changes nothing. *)
Theorem heartbeat_defers_sweep id t now st p :
  map_wf (peers st) ->
  map_get id (peers st) = Some p ->
  (now - t <= 5 * 60 * 1000 ->
   map_get id (peers (cleanupInactivePeers now (snd (post_heartbeat id t st))))
   = Some (set_lastSeen p t)) /\
  (is_stale now p = true ->
   post_heartbeat id t (cleanupInactivePeers now st)
   = (Heartbeat404 "Peer not found", cleanupInactivePeers now st)).
Proof.
  intros Hwf Hget. split.
  - intros Hle. rewrite cleanup_get by now apply post_heartbeat_wf.
    unfold post_heartbeat. rewrite Hget. cbn [snd peers set_peers].
    rewrite map_get_set_eq.
    unfold is_stale, inactiveThreshold. cbn [lastSeen set_lastSeen].
    destruct (Z.gtb_spec (now - t) (5 * 60 * 1000)); [lia|reflexivity].
  - intros Hstale. unfold post_heartbeat.
    rewrite cleanup_get by assumption. now rewrite Hget, Hstale.
Qed.

Lemma heartbeat_defers_sweep_witness :
  map_get "peer_5m01_0004"
    (peers (cleanupInactivePeers sample_now
              (snd (post_heartbeat "peer_5m01_0004" 999000 aged_state))))
  = Some (set_lastSeen (sample_peer "peer_5m01_0004" "curl" 699000) 999000) /\
  post_heartbeat "peer_5m01_0004" 999000
                 (cleanupInactivePeers sample_now aged_state)
  = (Heartbeat404 "Peer not found",
     cleanupInactivePeers sample_now aged_state).
Proof.
  assert (Hwf : map_wf (peers aged_state)) by literal_wf.
  destruct (heartbeat_defers_sweep "peer_5m01_0004" 999000 sample_now
              aged_state _ Hwf eq_refl) as [Hkeep Hgone].
  split; [apply Hkeep; vm_compute; discriminate|apply Hgone; reflexivity].
Defined.

(** X10.  A heartbeat writes [lastSeen] and nothing else.  The stored
    record afterwards has [lastSeen = now] and, field by field, the [id],
    [ip], [port], [name], [version], [capabilities], [registeredAt],
    [updatedAt], [connectionCount], [userAgent] and [ipAddress] it had
    before; the order of the entries, every other record, the counters and
    the log are as before. *)
Theorem heartbeat_writes_lastSeen_only id now st p :
  map_get id (peers st) = Some p ->
  exists st',
    post_heartbeat id now st = (Heartbeat200 "Heartbeat received" now, st') /\
    List.map fst (peers st') = List.map fst (peers st) /\
    (forall k,
       map_get k (peers st') =
       if String.eqb k id
       then Some {| Registry.id := Registry.id p;
                    ip := ip p;
                    port := port p;
                    name := name p;
                    version := version p;
                    capabilities := capabilities p;
                    lastSeen := now;
                    registeredAt := registeredAt p;
                    updatedAt := updatedAt p;
                    connectionCount := connectionCount p;
                    userAgent := userAgent p;
                    ipAddress := ipAddress p |}
       else map_get k (peers st)) /\
    serverStats st' = serverStats st /\ logs st' = logs st.
Proof.
  intros Hget. unfold post_heartbeat. rewrite Hget.
  eexists. split; [reflexivity|]. cbn [peers set_peers serverStats logs].
  split; [apply map_set_keys_present; now apply (map_get_has _ p)|].
  split; [|repeat split].
  intros k. destruct (String.eqb_spec k id) as [->|Hne].
  - apply map_get_set_eq.
  - apply map_get_set_ne. congruence.
Qed.

Lemma heartbeat_writes_lastSeen_only_witness :
  exists st',
    post_heartbeat "peer_3min_0002" sample_now aged_state
    = (Heartbeat200 "Heartbeat received" sample_now, st') /\
    List.map fst (peers st') = List.map fst (peers aged_state) /\
    map_get "peer_3min_0002" (peers st') =
      Some {| Registry.id := "peer_3min_0002";
              ip := "192.168.1.100";
              port := Some 8080;
              name := JsString "Test Node";
              version := JsString "1.0.0";
              capabilities := [JsString "websocket"; JsString "webrtc"];
              lastSeen := sample_now;
              registeredAt := 1000;
              updatedAt := 820000;
              connectionCount := 1;
              userAgent := "curl";
              ipAddress := "10.0.0.7" |} /\
    map_get "peer_fresh_0001" (peers st')
      = map_get "peer_fresh_0001" (peers aged_state) /\
    logs st' = [].
Proof.
  destruct (heartbeat_writes_lastSeen_only "peer_3min_0002" sample_now
              aged_state _ eq_refl)
    as (st' & Hrun & Hkeys & Hget & _ & Hlogs).
  exists st'. split; [exact Hrun|]. split; [exact Hkeys|].
  split; [exact (Hget "peer_3min_0002")|].
  split; [exact (Hget "peer_fresh_0001")|exact Hlogs].
Defined.

(** X11.  The sweep is an order-preserving filter with an exact log.  It
    keeps the records seen within the last five minutes, in their order;
    leaves the counters alone; logs one "Removed inactive peer" line per
    removed record, in map order, followed by one summary line with their
    number if there was any, and nothing otherwise. *)
Theorem sweep_filters_and_logs now st :
  map_wf (peers st) ->
  peers (cleanupInactivePeers now st) = List.filter (keeps now) (peers st) /\
  serverStats (cleanupInactivePeers now st) = serverStats st /\
  logs (cleanupInactivePeers now st) =
    (logs st
     ++ List.map removal_line
          (List.filter (fun e => negb (keeps now e)) (peers st))
     ++ match List.filter (fun e => negb (keeps now e)) (peers st) with
        | [] => []
        | removed => [summary_line (List.length removed)]
        end)%list /\
  map_size (peers st) =
    map_size (peers (cleanupInactivePeers now st))
    + Z.of_nat (List.length
        (List.filter (fun e => negb (keeps now e)) (peers st))).
Proof.
  intros Hwf. rewrite cleanup_spec by assumption.
  cbn [peers serverStats logs]. split; [reflexivity|].
  split; [reflexivity|]. split.
  - destruct (List.filter _ (peers st)); reflexivity.
  - unfold map_size. rewrite <- Nat2Z.inj_add. f_equal.
    generalize (peers st) as m. clear.
    induction m as [|e m IH]; cbn [List.filter List.length]; [reflexivity|].
    destruct (keeps now e); cbn [negb List.length]; lia.
Qed.

Lemma sweep_filters_and_logs_witness :
  peers (cleanupInactivePeers sample_now aged_state)
  = [("peer_fresh_0001", sample_peer "peer_fresh_0001" "curl" 990000);
     ("peer_3min_0002", sample_peer "peer_3min_0002" "curl" 820000);
     ("peer_4m59_0003", sample_peer "peer_4m59_0003" "curl" 701000)] /\
  logs (cleanupInactivePeers sample_now aged_state)
  = [(info, "Removed inactive peer: peer_5m01_0004");
     (info, "Cleanup completed: removed 1 inactive peers")].
Proof.
  assert (Hwf : map_wf (peers aged_state)) by literal_wf.
  destruct (sweep_filters_and_logs sample_now aged_state Hwf)
    as (Hpeers & _ & Hlogs & _).
  split; [rewrite Hpeers|rewrite Hlogs]; reflexivity.
Defined.

(** X12.  Sweeping again changes nothing, and an earlier sweep does not
    change what a later one leaves: a second sweep at the same time returns
    the state untouched (no log line), and for [t1 <= t2] the sweep at [t2]
    leaves the same records whether or not the sweep at [t1] ran before. *)
Theorem sweep_idempotent_and_monotone t1 t2 st :
  map_wf (peers st) ->
  cleanupInactivePeers t1 (cleanupInactivePeers t1 st)
  = cleanupInactivePeers t1 st /\
  (t1 <= t2 ->
   peers (cleanupInactivePeers t2 (cleanupInactivePeers t1 st))
   = peers (cleanupInactivePeers t2 st)).
Proof.
  intros Hwf.
  assert (Hwf1 : map_wf (peers (cleanupInactivePeers t1 st)))
    by now apply cleanup_wf.
  split.
  - rewrite (cleanup_spec t1 (cleanupInactivePeers t1 st)) by assumption.
    rewrite (cleanup_spec t1 st) by assumption. cbn [peers serverStats logs].
    rewrite (filter_filter_implied (keeps t1) (keeps t1)) by auto.
    assert (Hnone : List.filter (fun e => negb (keeps t1 e))
                      (List.filter (keeps t1) (peers st)) = []).
    { generalize (peers st) as m. clear.
      induction m as [|e m IH]; cbn [List.filter]; [reflexivity|].
      destruct (keeps t1 e) eqn:Hk; cbn [List.filter]; [|exact IH].
      now rewrite Hk. }
    rewrite Hnone. cbn [List.map]. now rewrite !app_nil_r.
  - intros Hle.
    rewrite (cleanup_spec t2 (cleanupInactivePeers t1 st)) by assumption.
    rewrite (cleanup_spec t2 st), (cleanup_spec t1 st) by assumption.
    cbn [peers]. apply filter_filter_implied.
    intros e. now apply keeps_later.
Qed.

Lemma sweep_idempotent_and_monotone_witness :
  cleanupInactivePeers sample_now (cleanupInactivePeers sample_now aged_state)
  = cleanupInactivePeers sample_now aged_state /\
  peers (cleanupInactivePeers 1100000
           (cleanupInactivePeers sample_now aged_state))
  = peers (cleanupInactivePeers 1100000 aged_state).
Proof.
  assert (Hwf : map_wf (peers aged_state)) by literal_wf.
  destruct (sweep_idempotent_and_monotone sample_now 1100000 aged_state Hwf)
    as [Hsame Hlater].
  split; [exact Hsame|apply Hlater; vm_compute; discriminate].
Defined.

End LifecycleTheorems.

(* ===================================================================== *)
(** * Listing and pagination                                             *)
(* ===================================================================== *)

Module ListingTheorems.
Import Js Registry RegistrySpec RegistryMore JsFacts RegistryFacts.
Import SweepFacts RegisterFacts InvariantFacts DecimalFacts.
Import LifecycleFacts ListingFacts.

(** X13.  What [GET /peers] lists.  In a 200 answer [total] is the number of
    stored records that pass every filter the query asks for, each listed
    record is the public view of such a stored record, and the state is not
    changed. *)
Theorem listing_matches_query q now st data st' :
  get_peers q now st = (Peers200 data, st') ->
  st' = st /\
  total (r_pagination data) =
    Z.of_nat (List.length
      (List.filter (matches_query q now) (map_values (peers st)))) /\
  forall view, In view (r_peers data) ->
    exists p, view = public_view p /\ In p (map_values (peers st)) /\
              matches_query q now p = true.
Proof. apply get_peers_lists_matching. Qed.

Lemma listing_matches_query_witness :
  exists data,
    get_peers active_query sample_now aged_state = (Peers200 data, aged_state)
    /\ total (r_pagination data) = 1.
Proof.
  eexists. split; [vm_compute; reflexivity|].
  edestruct (listing_matches_query active_query sample_now aged_state)
    as (_ & Htotal & _); [vm_compute; reflexivity|].
  exact Htotal.
Defined.

(** X14.  A repeated or nested filter parameter matches nothing.  When
    [capability] or [version] arrives as an array or an object (as in
    [?capability=a&capability=b]), the comparison by [includes] or [===]
    fails for every record: the answer lists no peer and [total] is 0. *)
Theorem structured_filter_matches_nothing q now st data st' :
  is_structured (q_capability q) = true \/
  is_structured (q_version q) = true ->
  get_peers q now st = (Peers200 data, st') ->
  r_peers data = [] /\ total (r_pagination data) = 0.
Proof.
  intros Hs H.
  assert (Hnone : forall p, matches_query q now p = false).
  { intros p. unfold matches_query.
    destruct Hs as [Hs|Hs].
    - destruct (q_capability q) eqn:Hc; try discriminate;
        cbn [ToBoolean negb orb];
        (replace (array_includes (capabilities p) _) with false;
         [now rewrite andb_false_r|]);
        unfold array_includes; symmetry;
        induction (capabilities p) as [|y l IH]; cbn [existsb];
          try reflexivity; rewrite <- IH; now destruct y.
    - destruct (q_version q) eqn:Hv; try discriminate;
        cbn [ToBoolean negb orb];
        (replace (strict_eq (version p) _) with false
           by now destruct (version p)); apply andb_false_r. }
  destruct (get_peers_lists_matching q now st data st' H)
    as (_ & Htotal & Hin).
  split.
  - destruct (r_peers data) as [|view rest]; [reflexivity|].
    destruct (Hin view (or_introl eq_refl)) as (p & _ & _ & Hm).
    rewrite Hnone in Hm. discriminate.
  - rewrite Htotal.
    replace (List.filter (matches_query q now) (map_values (peers st)))
      with (@nil Peer); [reflexivity|].
    symmetry. generalize (map_values (peers st)) as l.
    induction l as [|p l IH]; cbn [List.filter]; [reflexivity|].
    now rewrite Hnone.
Qed.

Lemma structured_filter_matches_nothing_witness :
  exists data,
    get_peers
      (mkPeersQuery JsUndefined JsUndefined
         (JsArray [JsString "websocket"; JsString "webrtc"]) JsUndefined
         JsUndefined)
      sample_now aged_state = (Peers200 data, aged_state) /\
    r_peers data = [] /\ total (r_pagination data) = 0.
Proof.
  eexists. split; [vm_compute; reflexivity|].
  eapply (structured_filter_matches_nothing
            (mkPeersQuery JsUndefined JsUndefined
               (JsArray [JsString "websocket"; JsString "webrtc"])
               JsUndefined JsUndefined) sample_now aged_state).
  - left. reflexivity.
  - vm_compute. reflexivity.
Defined.

(** X15.  The size of a page.  For [offset >= 0] and [limit > 0] written as
    decimal numerals the answer is 200, the effective limit is
    [min(limit, 100)], the page holds
    [min(effective limit, max(0, total - offset))] records, a page with
    [hasMore = true] is full, and a page with [hasMore = false] reaches the
    end of the list. *)
Theorem page_size q lim off now st :
  0 <= off -> 0 < lim ->
  exists data,
    get_peers (with_window q lim off) now st = (Peers200 data, st) /\
    limit (r_pagination data) = Z.min lim 100 /\
    Z.of_nat (List.length (r_peers data)) =
      Z.min (Z.min lim 100) (Z.max 0 (total (r_pagination data) - off)) /\
    (hasMore (r_pagination data) = true ->
     Z.of_nat (List.length (r_peers data)) = Z.min lim 100) /\
    (hasMore (r_pagination data) = false ->
     r_peers data =
     List.map public_view (skipn (Z.to_nat off) (listing q now st))).
Proof.
  intros Hoff Hlim. rewrite get_peers_window.
  destruct (Z.eqb_spec lim 0) as [->|_]; [lia|].
  eexists. split; [reflexivity|].
  cbn [r_peers r_pagination limit total hasMore].
  split; [reflexivity|]. rewrite length_map.
  rewrite slice_length by lia.
  set (T := Z.of_nat (List.length (listing q now st))).
  split; [lia|]. split.
  - intros Hmore. apply Z.ltb_lt in Hmore. lia.
  - intros Hmore. apply Z.ltb_ge in Hmore. f_equal.
    rewrite slice_nonneg by lia.
    apply firstn_all2. rewrite length_skipn. fold T in Hmore |- *. lia.
Qed.

Lemma page_size_witness :
  exists data,
    get_peers (with_window no_filter 3 2) sample_now aged_state
    = (Peers200 data, aged_state) /\
    List.length (r_peers data) = 2%nat /\
    hasMore (r_pagination data) = false.
Proof.
  destruct (page_size no_filter 3 2 sample_now aged_state)
    as (data & Hrun & _ & Hlen & _); [lia|lia|].
  exists data. split; [exact Hrun|].
  assert (Heq : Peers200 data =
     fst (get_peers (with_window no_filter 3 2) sample_now aged_state))
    by now rewrite Hrun.
  vm_compute in Heq. injection Heq as ->. split; reflexivity.
Defined.

(** X16.  Consecutive pages concatenate.  The page at [offset] with limit
    [lim1] followed by the page at [offset + lim1] with limit [lim2] is the
    page at [offset] with limit [lim1 + lim2], as long as the sum stays
    within the cap of 100: no record is listed twice or skipped. *)
Theorem consecutive_pages_concatenate q lim1 lim2 off now st :
  0 <= off -> 0 < lim1 -> 0 < lim2 -> lim1 + lim2 <= 100 ->
  exists d1 d2 d,
    get_peers (with_window q lim1 off) now st = (Peers200 d1, st) /\
    get_peers (with_window q lim2 (off + lim1)) now st = (Peers200 d2, st) /\
    get_peers (with_window q (lim1 + lim2) off) now st = (Peers200 d, st) /\
    (r_peers d1 ++ r_peers d2)%list = r_peers d.
Proof.
  intros Hoff H1 H2 Hcap. rewrite !get_peers_window.
  destruct (Z.eqb_spec lim1 0); [lia|]. destruct (Z.eqb_spec lim2 0); [lia|].
  destruct (Z.eqb_spec (lim1 + lim2) 0); [lia|].
  eexists _, _, _. repeat (split; [reflexivity|]). cbn [r_peers].
  rewrite <- map_app. f_equal.
  replace (Z.min lim1 100) with lim1 by lia.
  replace (Z.min lim2 100) with lim2 by lia.
  replace (Z.min (lim1 + lim2) 100) with (lim1 + lim2) by lia.
  replace (off + (lim1 + lim2)) with (off + lim1 + lim2) by lia.
  apply slice_concat; lia.
Qed.

Lemma consecutive_pages_concatenate_witness :
  exists d1 d2 d,
    get_peers (with_window no_filter 1 1) sample_now aged_state
      = (Peers200 d1, aged_state) /\
    get_peers (with_window no_filter 2 2) sample_now aged_state
      = (Peers200 d2, aged_state) /\
    get_peers (with_window no_filter 3 1) sample_now aged_state
      = (Peers200 d, aged_state) /\
    (r_peers d1 ++ r_peers d2)%list = r_peers d.
Proof.
  apply (consecutive_pages_concatenate no_filter 1 2 1 sample_now aged_state);
    lia.
Defined.

(** X17.  A negative limit escapes the cap.  [limit=-k] with [k > 0] is
    truthy, so it is neither replaced by 50 nor raised by [Math.min]; with
    [offset=0] the slice ends [k] records before the end of the list, and
    the answer holds [max(0, total - k)] records, which can exceed 100. *)
Theorem negative_limit_drops_tail q k now st :
  0 < k ->
  exists data,
    get_peers (with_window q (- k) 0) now st = (Peers200 data, st) /\
    limit (r_pagination data) = - k /\
    Z.of_nat (List.length (r_peers data)) =
      Z.max 0 (total (r_pagination data) - k) /\
    r_peers data =
      List.map public_view
        (firstn (List.length (listing q now st) - Z.to_nat k)
                (listing q now st)).
Proof.
  intros Hk. rewrite get_peers_window.
  destruct (Z.eqb_spec (- k) 0); [lia|].
  replace (Z.min (- k) 100) with (- k) by lia.
  eexists. split; [reflexivity|].
  cbn [r_peers r_pagination limit total]. split; [reflexivity|].
  assert (Hslice : slice (listing q now st) 0 (0 + - k)
                   = firstn (List.length (listing q now st) - Z.to_nat k)
                            (listing q now st)).
  { unfold slice, slice_index. cbn [Z.ltb Z.compare].
    destruct (Z.ltb_spec (0 + - k) 0); [|lia].
    set (T := Z.of_nat (List.length (listing q now st))).
    replace (Z.to_nat (Z.min 0 T)) with 0%nat by lia. cbn [skipn].
    f_equal. lia. }
  rewrite Hslice. split; [|reflexivity].
  rewrite length_map, length_firstn. lia.
Qed.

Lemma negative_limit_drops_tail_witness :
  exists data,
    get_peers (with_window no_filter (- 5) 0) 6000 (crowd 120)
    = (Peers200 data, crowd 120) /\
    limit (r_pagination data) = - 5 /\
    Z.of_nat (List.length (r_peers data)) = 115.
Proof.
  destruct (negative_limit_drops_tail no_filter 5 6000 (crowd 120))
    as (data & Hrun & Hlim & Hlen & _); [lia|].
  exists data. split; [exact Hrun|]. split; [exact Hlim|].
  rewrite Hlen.
  destruct (get_peers_lists_matching _ _ _ _ _ Hrun) as (_ & -> & _).
  vm_compute. reflexivity.
Defined.

(** X18.  The sweep does not change what an [active=true] listing shows.
    Every record the sweep removes at a time up to three minutes after
    [now] is already outside the two-minute activity window at [now], so
    the listing answers the same with or without it. *)
Theorem sweep_keeps_active_listing q now t st :
  map_wf (peers st) ->
  query_activeOnly q = true ->
  t <= now + 3 * 60 * 1000 ->
  fst (get_peers q now (cleanupInactivePeers t st)) = fst (get_peers q now st).
Proof.
  intros Hwf Hact Ht.
  assert (Hlist : filter_peers q now
                    (map_values (peers (cleanupInactivePeers t st)))
                  = filter_peers q now (map_values (peers st))).
  { rewrite (filter_peers_active_prefix q now (map_values (peers st)) Hact).
    rewrite (filter_peers_active_prefix q now
               (map_values (peers (cleanupInactivePeers t st))) Hact).
    rewrite cleanup_spec by assumption. cbn [peers].
    rewrite filter_active_after_sweep by lia. reflexivity. }
  unfold get_peers, peers_try.
  destruct (query_limit q) as [lim|e]; cbn [bind]; [|reflexivity].
  destruct (query_offset q) as [off|e]; cbn [bind]; [|reflexivity].
  cbn [fst]. now rewrite Hlist.
Qed.

Lemma sweep_keeps_active_listing_witness :
  fst (get_peers active_query sample_now
         (cleanupInactivePeers 1100000 aged_state))
  = fst (get_peers active_query sample_now aged_state).
Proof.
  apply sweep_keeps_active_listing;
    [literal_wf|reflexivity|vm_compute; discriminate].
Defined.

(** X19.  The freshest peer is listed first.  After a heartbeat at a time
    later than every other record's [lastSeen], an unfiltered listing with a
    positive limit starts with that peer. *)
Theorem freshest_peer_listed_first id now st p lim :
  map_wf (peers st) ->
  map_get id (peers st) = Some p ->
  (forall k p', map_get k (peers st) = Some p' -> k <> id ->
                lastSeen p' < now) ->
  0 < lim ->
  exists data rest st',
    get_peers (with_window no_filter lim 0) now
              (snd (post_heartbeat id now st)) = (Peers200 data, st') /\
    r_peers data = public_view (set_lastSeen p now) :: rest.
Proof.
  intros Hwf Hget Hothers Hlim.
  set (st1 := snd (post_heartbeat id now st)).
  assert (Hwf1 : map_wf (peers st1)) by now apply post_heartbeat_wf.
  assert (Hget1 : forall k, map_get k (peers st1) =
            if String.eqb k id then Some (set_lastSeen p now)
            else map_get k (peers st)).
  { intros k. unfold st1, post_heartbeat. rewrite Hget.
    cbn [snd peers set_peers].
    destruct (String.eqb_spec k id) as [->|Hne];
      [apply map_get_set_eq|apply map_get_set_ne; congruence]. }
  rewrite get_peers_window. destruct (Z.eqb_spec lim 0); [lia|].
  assert (Hlisting : forall x, In x (listing no_filter now st1) <->
                               In x (map_values (peers st1))).
  { intros x. rewrite listing_In. unfold matches_query. cbn. tauto. }
  assert (Hmine : In (set_lastSeen p now) (listing no_filter now st1)).
  { apply Hlisting. apply (map_get_values id). rewrite Hget1.
    now rewrite String.eqb_refl. }
  destruct (listing no_filter now st1) as [|h t] eqn:Hl; [contradiction|].
  assert (Hsorted : StronglySorted (fun a b => lastSeen a >= lastSeen b)
                      (h :: t)).
  { rewrite <- Hl. unfold listing, sort_peers, by_lastSeen_desc.
    apply sort_sorted. }
  pose proof (sorted_head_max _ lastSeen h t Hsorted _ Hmine) as Hmax.
  cbn [lastSeen set_lastSeen] in Hmax.
  assert (Hh : h = set_lastSeen p now).
  { assert (Hin : In h (map_values (peers st1)))
      by (apply Hlisting; now left).
    apply in_values_get in Hin as [k Hin].
    apply (map_wf_In_get _ _ _ Hwf1) in Hin. rewrite Hget1 in Hin.
    destruct (String.eqb_spec k id) as [Heq|Hne]; [congruence|].
    specialize (Hothers k h Hin Hne). lia. }
  subst h. eexists _, _, st1. split; [reflexivity|]. cbn [r_peers].
  rewrite slice_nonneg by lia. cbn [Z.to_nat skipn].
  replace (Z.to_nat (0 + Z.min lim 100 - 0))
    with (S (Z.to_nat (Z.min lim 100 - 1))) by lia.
  reflexivity.
Qed.

Lemma freshest_peer_listed_first_witness :
  exists data rest st',
    get_peers (with_window no_filter 2 0) sample_now
              (snd (post_heartbeat "peer_5m01_0004" sample_now aged_state))
    = (Peers200 data, st') /\
    r_peers data
    = public_view
        (set_lastSeen (sample_peer "peer_5m01_0004" "curl" 699000) sample_now)
      :: rest.
Proof.
  apply (freshest_peer_listed_first "peer_5m01_0004" sample_now aged_state
           (sample_peer "peer_5m01_0004" "curl" 699000) 2).
  - literal_wf.
  - reflexivity.
  - intros k p' Hk Hne. cbn [aged_state peers map_get] in Hk.
    repeat match type of Hk with
           | (if String.eqb ?a k then _ else _) = _ =>
               destruct (String.eqb_spec a k) as [<-|_];
               [try (injection Hk as <-; vm_compute; reflexivity);
                try congruence|]
           end.
    discriminate.
  - lia.
Defined.

End ListingTheorems.
